(** * escabelo: the LSM storage engine, embedded and verified

    A shallow embedding of [internal/engine] (memtable.go, wal.go, sst.go,
    engine.go, compactor.go) and of the key validation of
    [internal/server/protocol.go].

    Conventions of the embedding.
    - Go [string] is [string] (a sequence of 8-bit characters), [[]byte] is
      [list byte]; [nil] and the empty slice are both [[]].
    - [(value, found, err)] triples are [result (option value)].
    - A file is the [list byte] of its contents.  The data directory maps the
      numeric id of a segment to the file [NNNNNN.sst] carrying that id, and
      holds [wal.log].
    - [time.Now().UnixNano()] reads an external clock: the n-th read of a
      run returns [clock n], where [clock] is arbitrary.
    - Writes to the file system succeed; reads fail exactly as the bytes on
      disk make them fail (short reads, missing files).
    - Every exported operation runs atomically; the background workers
      (flusher, compactor) are steps of their own. *)

From Stdlib Require Import ZArith List String Ascii Lia Bool.
From coqutil Require Import Byte Word.LittleEndianList.
From stdpp Require Import gmap strings list pretty.
Import ListNotations.
Local Open Scope Z_scope.

(** ** Errors and results *)

Inductive error : Type :=
| EOF                                  (* io.EOF *)
| ErrUnexpectedEOF                     (* io.ErrUnexpectedEOF *)
| ErrNotExist (path : string)          (* os.Open of a missing file *)
| Errorf (msg : string)                (* fmt.Errorf without a cause *)
| Wrapf (msg : string) (cause : error) (* fmt.Errorf with %w *).

Inductive result (A : Type) : Type :=
| Ok (a : A)
| Err (e : error).
Arguments Ok {A} a.
Arguments Err {A} e.

Definition is_Ok {A} (r : result A) : bool :=
  match r with Ok _ => true | Err _ => false end.

(** ** Fixed-width integers *)

Definition int64 (z : Z) : Z := (z + 2 ^ 63) mod 2 ^ 64 - 2 ^ 63.
Definition uint32 (z : Z) : Z := z mod 2 ^ 32.
Definition len_string (s : string) : Z := Z.of_nat (String.length s).
Definition len_bytes (b : list byte) : Z := Z.of_nat (length b).

(** ** Readers: [bufio.Reader], [io.ReadFull], [binary.Read] *)

Module IO.

Definition Reader (A : Type) : Type := list byte -> result (A * list byte).

Definition ret {A} (a : A) : Reader A := fun r => Ok (a, r).

Definition bind {A B} (c : Reader A) (k : A -> Reader B) : Reader B :=
  fun r => match c r with
           | Ok (a, r') => k a r'
           | Err e => Err e
           end.

(* reader.ReadByte() *)
Definition ReadByte : Reader byte :=
  fun r => match r with
           | [] => Err EOF
           | b :: r' => Ok (b, r')
           end.

(* io.ReadFull(reader, buf) with len(buf) = n: EOF when nothing could be
   read, ErrUnexpectedEOF after a short read, no read at all for n = 0 *)
Definition ReadFull (n : nat) : Reader (list byte) :=
  fun r => if (n =? 0)%nat then Ok ([], r)
           else if (length r =? 0)%nat then Err EOF
           else if (length r <? n)%nat then Err ErrUnexpectedEOF
           else Ok (take n r, drop n r).

(* binary.Read(reader, binary.LittleEndian, &x) for x of type int64 *)
Definition Read_int64 : Reader Z :=
  bind (ReadFull 8) (fun bs => ret (int64 (le_combine bs))).

(* binary.Read(reader, binary.LittleEndian, &x) for x of type uint32 *)
Definition Read_uint32 : Reader Z :=
  bind (ReadFull 4) (fun bs => ret (le_combine bs)).

(* reader.Discard(n): skips n bytes, io.EOF when fewer are left *)
Definition Discard (n : nat) : Reader unit :=
  fun r => if (n =? 0)%nat then Ok (tt, r)
           else if (length r <? n)%nat then Err EOF
           else Ok (tt, drop n r).

(* binary.Write(writer, binary.LittleEndian, x) for int64 and uint32 *)
Definition Write_int64 (x : Z) : list byte := le_split 8 x.
Definition Write_uint32 (x : Z) : list byte := le_split 4 x.

End IO.

Notation "'let*' x ':=' c 'in' k" := (IO.bind c (fun x => k))
  (at level 10, x name, c at level 100, k at level 200).

(** ** wal.go *)

Module WAL.

Record WALEntry : Type := mkWALEntry {
  OpType : byte;
  Key : string;
  Value : list byte;
  Timestamp : Z
}.

Definition OpTypePut : byte := Byte.x01.
Definition OpTypeDelete : byte := Byte.x02.

(* the log: the bytes of wal.log and the bytes still held by the
   bufio.Writer in front of it *)
Record WAL : Type := mkWAL {
  file : list byte;
  writer : list byte;
  bufSize : Z
}.

(* NewWAL on a data directory whose wal.log holds [f] *)
Definition NewWAL (f : list byte) : WAL :=
  {| file := f; writer := []; bufSize := 256 * 1024 |}.

(* bufio.Writer: Available, Flush, WriteByte, Write *)
Definition Available (w : WAL) : Z := bufSize w - len_bytes (writer w).

Definition Flush (w : WAL) : WAL :=
  {| file := file w ++ writer w; writer := []; bufSize := bufSize w |}.

Definition WriteByte (c : byte) (w : WAL) : WAL :=
  let w := if Available w <=? 0 then Flush w else w in
  {| file := file w; writer := writer w ++ [c]; bufSize := bufSize w |}.

Definition Write (p : list byte) (w : WAL) : WAL :=
  if len_bytes p <=? Available w then
    {| file := file w; writer := writer w ++ p; bufSize := bufSize w |}
  else if len_bytes (writer w) =? 0 then
    (* large write, empty buffer: written directly to the file *)
    {| file := file w ++ p; writer := []; bufSize := bufSize w |}
  else
    let n := Z.to_nat (Available w) in
    let w1 := Flush {| file := file w; writer := writer w ++ take n p;
                       bufSize := bufSize w |} in
    let p1 := drop n p in
    if len_bytes p1 <=? Available w1 then
      {| file := file w1; writer := p1; bufSize := bufSize w1 |}
    else
      {| file := file w1 ++ p1; writer := []; bufSize := bufSize w1 |}.

(* the record format: opType(1) + timestamp(8) + keyLen(4) + key +
   valueLen(4) + value *)
Definition encode (entry : WALEntry) : list byte :=
  [OpType entry]
  ++ IO.Write_int64 (Timestamp entry)
  ++ IO.Write_uint32 (uint32 (len_string (Key entry)))
  ++ list_byte_of_string (Key entry)
  ++ IO.Write_uint32 (uint32 (len_bytes (Value entry)))
  ++ Value entry.

(* Append writes an entry to the WAL *)
Definition Append (entry : WALEntry) (w : WAL) : WAL :=
  let w := WriteByte (OpType entry) w in
  let w := Write (IO.Write_int64 (Timestamp entry)) w in
  let w := Write (IO.Write_uint32 (uint32 (len_string (Key entry)))) w in
  let w := Write (list_byte_of_string (Key entry)) w in
  let w := Write (IO.Write_uint32 (uint32 (len_bytes (Value entry)))) w in
  let w := Write (Value entry) w in
  (* group commit: only flush if the buffer is nearly full *)
  if len_bytes (writer w) >=? bufSize w - 4096 then Flush w else w.

(* the fields of a record that follow the opType byte *)
Definition read_rest (opType : byte) : IO.Reader WALEntry :=
  let* ts := IO.Read_int64 in
  let* keyLen := IO.Read_uint32 in
  let* keyBytes := IO.ReadFull (Z.to_nat keyLen) in
  let* valueLen := IO.Read_uint32 in
  let* value := IO.ReadFull (Z.to_nat valueLen) in
  IO.ret {| OpType := opType; Key := string_of_list_byte keyBytes;
            Value := value; Timestamp := ts |}.

(* the loop of Replay; every turn consumes at least one byte, so a fuel of
   one more than the number of bytes left is never exhausted *)
Fixpoint Replay_loop (fuel : nat) (r : list byte) (entries : list WALEntry)
    {struct fuel} : result (list WALEntry) :=
  match fuel with
  | O => Ok entries
  | S fuel' =>
      match IO.ReadByte r with
      | Err EOF => Ok entries
      | Err e => Err e
      | Ok (opType, r1) =>
          match read_rest opType r1 with
          | Err e => Err e
          | Ok (entry, r2) => Replay_loop fuel' r2 (entries ++ [entry])
          end
      end
  end.

(* Replay reads all entries from the WAL (the file, from offset 0) *)
Definition Replay (w : WAL) : result (list WALEntry) :=
  Replay_loop (S (length (file w))) (file w) [].

(* Truncate clears the WAL: the file is cut to length 0 and the writer is
   reset, dropping what it buffered *)
Definition Truncate (w : WAL) : WAL :=
  {| file := []; writer := []; bufSize := bufSize w |}.

(* Sync flushes the writer (and fsyncs the file) *)
Definition Sync (w : WAL) : WAL := Flush w.

(* Size returns the current size of the WAL file *)
Definition Size (w : WAL) : Z := len_bytes (file w).

(* everything appended since the last truncation, written out or not *)
Definition contents (w : WAL) : list byte := file w ++ writer w.

End WAL.


(** ** memtable.go *)

(* Entry represents a key-value pair with metadata *)
Record Entry : Type := mkEntry {
  Key : string;
  Value : list byte;
  Timestamp : Z;
  Deleted : bool
}.

Module MemTable.

Record MemTable : Type := mkMemTable {
  data : gmap string Entry;
  size : Z;
  maxSize : Z
}.

Definition NewMemTable (maxSize : Z) : MemTable :=
  {| data := ∅; size := 0; maxSize := maxSize |}.

(* Put adds or updates a key-value pair; [now] is its reading of the clock *)
Definition Put (now : Z) (key : string) (value : list byte) (m : MemTable)
  : MemTable :=
  let entry := {| Key := key; Value := value; Timestamp := now;
                  Deleted := false |} in
  let size1 := match data m !! key with
               | Some old =>
                   int64 (size m - int64 (len_string (Key old)
                                          + len_bytes (Value old)))
               | None => size m
               end in
  {| data := <[key := entry]> (data m);
     size := int64 (size1 + int64 (len_string key + len_bytes value));
     maxSize := maxSize m |}.

(* Get retrieves a value by key *)
Definition Get (key : string) (m : MemTable) : option (list byte) :=
  match data m !! key with
  | Some entry => if Deleted entry then None else Some (Value entry)
  | None => None
  end.

(* Delete marks a key as deleted (tombstone); the clock is read, as [now],
   only when an entry is marked *)
Definition Delete (now : Z) (key : string) (m : MemTable) : bool * MemTable :=
  match data m !! key with
  | Some entry =>
      if Deleted entry then (false, m)
      else (true,
            {| data := <[key := {| Key := Key entry; Value := Value entry;
                                   Timestamp := now; Deleted := true |}]>
                         (data m);
               size := size m; maxSize := maxSize m |})
  | None => (false, m)
  end.

(* Keys returns all non-deleted keys (in the iteration order of the map) *)
Definition Keys (m : MemTable) : list string :=
  map fst (filter (fun kv => Deleted kv.2 = false) (map_to_list (data m))).

(* k[:len(prefix)] == prefix, guarded by len(k) >= len(prefix) *)
Definition has_prefix (prefix k : string) : bool :=
  (String.length prefix <=? String.length k)%nat
  && String.eqb (substring 0 (String.length prefix) k) prefix.

(* PrefixScan returns all values with keys starting with prefix *)
Definition PrefixScan (prefix : string) (m : MemTable) : list (list byte) :=
  map (fun kv => Value kv.2)
      (filter (fun kv => negb (Deleted kv.2) && has_prefix prefix kv.1 = true)
              (map_to_list (data m))).

Definition Size (m : MemTable) : Z := size m.

Definition IsFull (m : MemTable) : bool := size m >=? maxSize m.

(* Entries returns all entries for flushing to SST *)
Definition Entries (m : MemTable) : list Entry :=
  map snd (map_to_list (data m)).

End MemTable.

(** ** sort.Slice

    The callers sort records with pairwise distinct keys, for which every
    sorting algorithm returns the same slice; insertion sort stands for it. *)

Fixpoint insert_by {A} (less : A -> A -> bool) (x : A) (l : list A) : list A :=
  match l with
  | [] => [x]
  | y :: l' => if less y x then y :: insert_by less x l' else x :: l
  end.

Definition sort_by {A} (less : A -> A -> bool) (l : list A) : list A :=
  foldr (insert_by less) [] l.

Definition key_less (a b : Entry) : bool := String.ltb (Key a) (Key b).

(** ** sst.go *)

Module SST.

(* SSTable represents a sorted string table (immutable on-disk segment);
   [FilePath] is the id in the name of its file *)
Record SSTable : Type := mkSSTable {
  ID : Z;
  FilePath : Z;
  Index : gmap string Z;
  MinKey : string;
  MaxKey : string;
  Size : Z
}.

(* SSTManager manages multiple SST files; [dataDir] holds the segment
   files of the data directory *)
Record SSTManager : Type := mkSSTManager {
  sstables : list SSTable;
  dataDir : gmap Z (list byte);
  nextID : Z
}.

(* fmt.Sprintf("%06d.sst", id): the digits of id, with zeros in front up
   to a width of six, the sign included *)
Fixpoint zeros (n : nat) {struct n} : string :=
  match n with
  | O => ""
  | S n' => String "0" (zeros n')
  end.

Definition file_name (id : Z) : string :=
  let digits := pretty (Z.abs id) in
  (if id <? 0 then "-" +:+ zeros (5 - String.length digits) +:+ digits
   else zeros (6 - String.length digits) +:+ digits) +:+ ".sst".

(* filepath.Join(dataDir, name) for the data directory ./data, the default
   of the flag -data-dir: Join cleans the path *)
Definition path (id : Z) : string := "data/" +:+ file_name id.

(* the record format: timestamp(8) + deleted(1) + keyLen(4) + key +
   valueLen(4) + value *)
Definition encode (entry : Entry) : list byte :=
  IO.Write_int64 (Timestamp entry)
  ++ [if Deleted entry then Byte.x01 else Byte.x00]
  ++ IO.Write_uint32 (uint32 (len_string (Key entry)))
  ++ list_byte_of_string (Key entry)
  ++ IO.Write_uint32 (uint32 (len_bytes (Value entry)))
  ++ Value entry.

(* the fields of a record that follow the timestamp *)
Definition read_rest (timestamp : Z) : IO.Reader Entry :=
  let* deleted := IO.ReadByte in
  let* keyLen := IO.Read_uint32 in
  let* keyBytes := IO.ReadFull (Z.to_nat keyLen) in
  let* valueLen := IO.Read_uint32 in
  let* valueBytes := IO.ReadFull (Z.to_nat valueLen) in
  IO.ret {| Key := string_of_list_byte keyBytes; Value := valueBytes;
            Timestamp := timestamp;
            Deleted := Byte.eqb deleted Byte.x01 |}.

(* the loop of loadSSTable: offset, first and last key, entry count and
   the sparse index built so far *)
Fixpoint loadSSTable_loop (fuel : nat) (r : list byte) (offset : Z)
    (firstKey lastKey : string) (entryCount : nat) (index : gmap string Z)
    {struct fuel} : result (string * string * gmap string Z) :=
  match fuel with
  | O => Ok (firstKey, lastKey, index)
  | S fuel' =>
      let startOffset := offset in
      match IO.Read_int64 r with
      | Err EOF => Ok (firstKey, lastKey, index)
      | Err e => Err e
      | Ok (_, r1) =>
          let offset := int64 (offset + 8) in
          match (let* _ := IO.ReadByte in
                 let* keyLen := IO.Read_uint32 in
                 let* keyBytes := IO.ReadFull (Z.to_nat keyLen) in
                 let* valueLen := IO.Read_uint32 in
                 let* _ := IO.Discard (Z.to_nat valueLen) in
                 IO.ret (keyLen, keyBytes, valueLen)) r1 with
          | Err e => Err e
          | Ok ((keyLen, keyBytes, valueLen), r2) =>
              let offset :=
                int64 (int64 (int64 (int64 (offset + 1) + 4) + keyLen) + 4) in
              let offset := int64 (offset + valueLen) in
              let key := string_of_list_byte keyBytes in
              let firstKey := if (entryCount =? 0)%nat then key
                              else firstKey in
              let index := if (entryCount mod 10 =? 0)%nat
                           then <[key := startOffset]> index else index in
              loadSSTable_loop fuel' r2 offset firstKey key (S entryCount)
                               index
          end
      end
  end.

(* loadSSTable loads an SST file and builds its index *)
Definition loadSSTable (dir : gmap Z (list byte)) (id : Z) : result SSTable :=
  match dir !! id with
  | None => Err (ErrNotExist (path id))
  | Some f =>
      match loadSSTable_loop (S (length f)) f 0 "" "" 0 ∅ with
      | Err e => Err e
      | Ok (firstKey, lastKey, index) =>
          Ok {| ID := id; FilePath := id; Index := index;
                MinKey := firstKey; MaxKey := lastKey;
                Size := len_bytes f |}
      end
  end.

(* the loop of loadExistingSSTables over the directory listing *)
Fixpoint loadExisting_loop (dir : gmap Z (list byte)) (ids : list Z)
    (tables : list SSTable) (next : Z) {struct ids}
  : result (list SSTable * Z) :=
  match ids with
  | [] => Ok (tables, next)
  | id :: ids' =>
      match loadSSTable dir id with
      | Err e => Err (Wrapf ("failed to load SST " +:+ path id) e)
      | Ok sst =>
          loadExisting_loop dir ids' (tables ++ [sst])
            (if ID sst >=? next then int64 (ID sst + 1) else next)
      end
  end.

(* NewSSTManager: scans the data directory (in the order of the file names)
   and sorts the segments by ID, newest first *)
Definition NewSSTManager (dir : gmap Z (list byte)) : result SSTManager :=
  match loadExisting_loop dir (sort_by Z.ltb (map fst (map_to_list dir)))
                          [] 1 with
  | Err e => Err e
  | Ok (tables, next) =>
      Ok {| sstables := sort_by (fun a b => ID a >? ID b) tables;
            dataDir := dir; nextID := next |}
  end.

(* the loop of Flush over the sorted entries: the bytes written, the
   offset reached and the sparse index *)
Fixpoint Flush_loop (i : nat) (offset : Z) (index : gmap string Z)
    (entries : list Entry) {struct entries}
  : list byte * Z * gmap string Z :=
  match entries with
  | [] => ([], offset, index)
  | entry :: rest =>
      let startOffset := offset in
      let keyLen := uint32 (len_string (Key entry)) in
      let valueLen := uint32 (len_bytes (Value entry)) in
      let offset :=
        int64 (int64 (int64 (int64 (int64 (offset + 8) + 1) + 4) + keyLen)
               + 4) in
      let offset := int64 (offset + valueLen) in
      let index := if (i mod 10 =? 0)%nat
                   then <[Key entry := startOffset]> index else index in
      let '(bytes, offset, index) := Flush_loop (S i) offset index rest in
      (encode entry ++ bytes, offset, index)
  end.

(* Flush writes a memtable to a new SST file *)
Definition Flush (entries : list Entry) (sm : SSTManager) : SSTManager :=
  match entries with
  | [] => sm
  | _ :: _ =>
      let id := nextID sm in
      let entries := sort_by key_less entries in
      let '(bytes, offset, index) := Flush_loop 0 0 ∅ entries in
      let sst := {| ID := id; FilePath := id; Index := index;
                    MinKey := default "" (Key <$> head entries);
                    MaxKey := default "" (Key <$> last entries);
                    Size := offset |} in
      {| sstables := sst :: sstables sm;
         dataDir := <[id := bytes]> (dataDir sm);
         nextID := int64 (id + 1) |}
  end.

(* the start offset getFromSST takes from the sparse index: the largest
   offset among the index keys that are <= key *)
Definition startOffset (index : gmap string Z) (key : string) : Z :=
  map_fold (fun indexKey offset acc =>
              if String.leb indexKey key
              then (if offset >? acc then offset else acc) else acc)
           0 index.

(* the scan of getFromSST *)
Fixpoint getFromSST_loop (fuel : nat) (r : list byte) (key : string)
    {struct fuel} : result (option (list byte)) :=
  match fuel with
  | O => Ok None
  | S fuel' =>
      match IO.Read_int64 r with
      | Err EOF => Ok None
      | Err e => Err e
      | Ok (timestamp, r1) =>
          match read_rest timestamp r1 with
          | Err e => Err e
          | Ok (entry, r2) =>
              if String.eqb (Key entry) key then
                if Deleted entry then Ok None (* tombstone *)
                else Ok (Some (Value entry))
              else if String.ltb key (Key entry) then Ok None
              else getFromSST_loop fuel' r2 key
          end
      end
  end.

(* getFromSST searches for a key in a specific SST file *)
Definition getFromSST (dir : gmap Z (list byte)) (sst : SSTable)
    (key : string) : result (option (list byte)) :=
  match dir !! FilePath sst with
  | None => Err (ErrNotExist (path (FilePath sst)))
  | Some f =>
      let r := drop (Z.to_nat (startOffset (Index sst) key)) f in
      getFromSST_loop (S (length r)) r key
  end.

(* the loop of Get over the snapshot of the segment list *)
Fixpoint Get_loop (dir : gmap Z (list byte)) (tables : list SSTable)
    (key : string) {struct tables} : result (option (list byte)) :=
  match tables with
  | [] => Ok None
  | sst :: rest =>
      if String.ltb key (MinKey sst) || String.ltb (MaxKey sst) key
      then Get_loop dir rest key
      else match getFromSST dir sst key with
           | Err e => Err e
           | Ok (Some value) => Ok (Some value)
           | Ok None => Get_loop dir rest key
           end
  end.

(* Get searches for a key across all SST files (newest first) *)
Definition Get (key : string) (sm : SSTManager) : result (option (list byte)) :=
  Get_loop (dataDir sm) (sstables sm) key.

Definition GetAllSSTables (sm : SSTManager) : list SSTable := sstables sm.

(* the slice without its first element of the given ID *)
Fixpoint remove_first (id : Z) (tables : list SSTable) {struct tables}
  : list SSTable :=
  match tables with
  | [] => []
  | s :: rest => if ID s =? id then rest else s :: remove_first id rest
  end.

(* RemoveSSTable removes an SST file from the manager and deletes it *)
Definition RemoveSSTable (sst : SSTable) (sm : SSTManager) : SSTManager :=
  if existsb (fun s => ID s =? ID sst) (sstables sm) then
    {| sstables := remove_first (ID sst) (sstables sm);
       dataDir := delete (FilePath sst) (dataDir sm);
       nextID := nextID sm |}
  else sm.

End SST.

(** ** engine.go *)

Module Engine.

(* Config holds engine configuration (the timer intervals drive the
   background steps and are not part of the state) *)
Record Config : Type := mkConfig {
  MemTableMaxSize : Z
}.

(* Stats holds engine statistics *)
Record Stats : Type := mkStats {
  Writes : Z;
  Reads : Z;
  Deletes : Z;
  Flushes : Z;
  Compactions : Z;
  MemTableSize : Z;
  SSTCount : Z;
  WALSize : Z;
  TotalDataSize : Z
}.

(* Engine is the main LSM-tree storage engine; [flushCh] tells whether the
   one-slot flush channel holds a signal, [ticks] counts the reads of the
   clock made so far *)
Record Engine : Type := mkEngine {
  memtable : MemTable.MemTable;
  immutableMemtables : list MemTable.MemTable;
  sstManager : SST.SSTManager;
  wal : WAL.WAL;
  config : Config;
  flushCh : bool;
  stats : Stats;
  ticks : nat
}.

Definition set_Writes (s : Stats) (v : Z) : Stats :=
  mkStats v (Reads s) (Deletes s) (Flushes s) (Compactions s)
          (MemTableSize s) (SSTCount s) (WALSize s) (TotalDataSize s).
Definition set_Reads (s : Stats) (v : Z) : Stats :=
  mkStats (Writes s) v (Deletes s) (Flushes s) (Compactions s)
          (MemTableSize s) (SSTCount s) (WALSize s) (TotalDataSize s).
Definition set_Deletes (s : Stats) (v : Z) : Stats :=
  mkStats (Writes s) (Reads s) v (Flushes s) (Compactions s)
          (MemTableSize s) (SSTCount s) (WALSize s) (TotalDataSize s).
Definition set_Flushes (s : Stats) (v : Z) : Stats :=
  mkStats (Writes s) (Reads s) (Deletes s) v (Compactions s)
          (MemTableSize s) (SSTCount s) (WALSize s) (TotalDataSize s).
Definition set_MemTableSize (s : Stats) (v : Z) : Stats :=
  mkStats (Writes s) (Reads s) (Deletes s) (Flushes s) (Compactions s)
          v (SSTCount s) (WALSize s) (TotalDataSize s).
Definition set_SSTCount (s : Stats) (v : Z) : Stats :=
  mkStats (Writes s) (Reads s) (Deletes s) (Flushes s) (Compactions s)
          (MemTableSize s) v (WALSize s) (TotalDataSize s).
Definition set_WALSize (s : Stats) (v : Z) : Stats :=
  mkStats (Writes s) (Reads s) (Deletes s) (Flushes s) (Compactions s)
          (MemTableSize s) (SSTCount s) v (TotalDataSize s).

Definition set_stats (e : Engine) (s : Stats) : Engine :=
  mkEngine (memtable e) (immutableMemtables e) (sstManager e) (wal e)
           (config e) (flushCh e) s (ticks e).
Definition set_wal (e : Engine) (w : WAL.WAL) : Engine :=
  mkEngine (memtable e) (immutableMemtables e) (sstManager e) w
           (config e) (flushCh e) (stats e) (ticks e).
Definition set_memtable (e : Engine) (m : MemTable.MemTable) : Engine :=
  mkEngine m (immutableMemtables e) (sstManager e) (wal e)
           (config e) (flushCh e) (stats e) (ticks e).
Definition set_sstManager (e : Engine) (sm : SST.SSTManager) : Engine :=
  mkEngine (memtable e) (immutableMemtables e) sm (wal e)
           (config e) (flushCh e) (stats e) (ticks e).
Definition set_ticks (e : Engine) (n : nat) : Engine :=
  mkEngine (memtable e) (immutableMemtables e) (sstManager e) (wal e)
           (config e) (flushCh e) (stats e) n.

(* the files of a data directory, as they are found at start-up *)
Record Disk : Type := mkDisk {
  wal_log : list byte;
  sst_files : gmap Z (list byte)
}.

Section WithClock.

(* the n-th call of time.Now().UnixNano() returns [clock n] *)
Variable clock : nat -> Z.

(* rotateMemTable moves the current memtable to immutable list *)
Definition rotateMemTable (e : Engine) : Engine :=
  mkEngine (MemTable.NewMemTable (MemTableMaxSize (config e)))
           (immutableMemtables e ++ [memtable e])
           (sstManager e) (wal e) (config e)
           true (* a signal is pending, whether or not one already was *)
           (stats e) (ticks e).

(* the loop of recover over the replayed entries: one clock reading for
   every record applied to the memtable *)
Fixpoint recover_loop (entries : list WAL.WALEntry) (m : MemTable.MemTable)
    (t : nat) {struct entries} : MemTable.MemTable * nat :=
  match entries with
  | [] => (m, t)
  | entry :: rest =>
      if Byte.eqb (WAL.OpType entry) WAL.OpTypePut then
        recover_loop rest
          (MemTable.Put (clock t) (WAL.Key entry) (WAL.Value entry) m) (S t)
      else if Byte.eqb (WAL.OpType entry) WAL.OpTypeDelete then
        let '(deleted, m') := MemTable.Delete (clock t) (WAL.Key entry) m in
        recover_loop rest m' (if deleted then S t else t)
      else recover_loop rest m t
  end.

(* recover replays the WAL to restore state *)
Definition recover (e : Engine) : result Engine :=
  match WAL.Replay (wal e) with
  | Err err => Err err
  | Ok entries =>
      let '(m, t) := recover_loop entries (memtable e) (ticks e) in
      Ok (set_ticks (set_memtable e m) t)
  end.

(* NewEngine creates a new storage engine on a data directory *)
Definition NewEngine (cfg : Config) (d : Disk) : result Engine :=
  let w := WAL.NewWAL (wal_log d) in
  match SST.NewSSTManager (sst_files d) with
  | Err err => Err (Wrapf "failed to create SST manager" err)
  | Ok sm =>
      let engine :=
        {| memtable := MemTable.NewMemTable (MemTableMaxSize cfg);
           immutableMemtables := [];
           sstManager := sm;
           wal := w;
           config := cfg;
           flushCh := false;
           stats := mkStats 0 0 0 0 0 0 0 0 0;
           ticks := 0 |} in
      match recover engine with
      | Err err => Err (Wrapf "recovery failed" err)
      | Ok engine => Ok engine
      end
  end.

(* Put writes a key-value pair *)
Definition Put (key : string) (value : list byte) (e : Engine)
  : result unit * Engine :=
  (* validate key size (max 100KB) *)
  if len_string key >? 100 * 1024 then
    (Err (Errorf ("key too large: " +:+ pretty (len_string key)
                  +:+ " bytes (max 100KB)")), e)
  else
    (* write to WAL first (durability) *)
    let walEntry := {| WAL.OpType := WAL.OpTypePut; WAL.Key := key;
                       WAL.Value := value;
                       WAL.Timestamp := clock (ticks e) |} in
    let w := WAL.Append walEntry (wal e) in
    (* write to memtable *)
    let m := MemTable.Put (clock (S (ticks e))) key value (memtable e) in
    let s := set_MemTableSize (set_Writes (stats e)
                                 (int64 (Writes (stats e) + 1)))
                              (MemTable.Size m) in
    let e1 := mkEngine m (immutableMemtables e) (sstManager e) w (config e)
                       (flushCh e) s (S (S (ticks e))) in
    (* check if memtable is full *)
    (Ok tt, if MemTable.IsFull m then rotateMemTable e1 else e1).

(* the immutable memtables, in the order of the slice *)
Fixpoint Get_immutables (tables : list MemTable.MemTable) (key : string)
    {struct tables} : option (list byte) :=
  match tables with
  | [] => None
  | mt :: rest =>
      match MemTable.Get key mt with
      | Some value => Some value
      | None => Get_immutables rest key
      end
  end.

(* Get retrieves a value by key *)
Definition Get (key : string) (e : Engine)
  : result (option (list byte)) * Engine :=
  let e := set_stats e (set_Reads (stats e) (int64 (Reads (stats e) + 1))) in
  (* check active memtable *)
  match MemTable.Get key (memtable e) with
  | Some value => (Ok (Some value), e)
  | None =>
      (* check immutable memtables *)
      match Get_immutables (immutableMemtables e) key with
      | Some value => (Ok (Some value), e)
      | None =>
          (* check SST files *)
          match SST.Get key (sstManager e) with
          | Err err => (Err (Wrapf "SST lookup failed" err), e)
          | Ok r => (Ok r, e)
          end
      end
  end.

(* Delete removes a key *)
Definition Delete (key : string) (e : Engine) : result bool * Engine :=
  (* check if key exists *)
  match Get key e with
  | (Err err, e) => (Err err, e)
  | (Ok None, e) => (Ok false, e)
  | (Ok (Some _), e) =>
      (* write to WAL *)
      let walEntry := {| WAL.OpType := WAL.OpTypeDelete; WAL.Key := key;
                         WAL.Value := [];
                         WAL.Timestamp := clock (ticks e) |} in
      let w := WAL.Append walEntry (wal e) in
      (* write tombstone to memtable *)
      let '(deleted, m) :=
        MemTable.Delete (clock (S (ticks e))) key (memtable e) in
      let s := set_Deletes (stats e) (int64 (Deletes (stats e) + 1)) in
      let e1 := mkEngine m (immutableMemtables e) (sstManager e) w (config e)
                         (flushCh e) s
                         (if deleted then S (S (ticks e)) else S (ticks e)) in
      (Ok deleted, if MemTable.IsFull m then rotateMemTable e1 else e1)
  end.

(* Keys returns all keys: the key set built from the memtables *)
Definition Keys (e : Engine) : list string :=
  let keySet : gmap string bool :=
    foldl (fun acc key => <[key := true]> acc) ∅
          (MemTable.Keys (memtable e)
           ++ concat (map MemTable.Keys (immutableMemtables e))) in
  map fst (map_to_list keySet).

(* PrefixScan returns all values with keys starting with prefix; the
   values are collected in a map keyed by their own contents *)
Definition PrefixScan (prefix : string) (e : Engine) : list (list byte) :=
  let valueMap : gmap string (list byte) :=
    foldl (fun acc value => <[string_of_list_byte value := value]> acc) ∅
          (MemTable.PrefixScan prefix (memtable e)
           ++ concat (map (MemTable.PrefixScan prefix)
                          (immutableMemtables e))) in
  map snd (map_to_list valueMap).

(* flush writes the oldest immutable memtable to an SST file; the step of
   the flusher on a signal *)
Definition flush (e : Engine) : Engine :=
  match immutableMemtables e with
  | [] => e
  | mt :: rest =>
      let shouldTruncateWAL := match rest with [] => true | _ => false end in
      let sm := SST.Flush (MemTable.Entries mt) (sstManager e) in
      let w := if shouldTruncateWAL then WAL.Truncate (wal e) else wal e in
      let s := set_SSTCount
                 (set_Flushes (stats e) (int64 (Flushes (stats e) + 1)))
                 (Z.of_nat (length (SST.GetAllSSTables sm))) in
      mkEngine (memtable e) rest sm w (config e) (flushCh e) s (ticks e)
  end.

(* Close shuts down the engine gracefully: the immutable memtables and
   the active one are flushed to segments, the WAL is flushed and closed
   (it is not truncated) *)
Definition Close (e : Engine) : Engine :=
  let sm := foldl (fun sm mt => SST.Flush (MemTable.Entries mt) sm)
                  (sstManager e) (immutableMemtables e) in
  let sm := SST.Flush (MemTable.Entries (memtable e)) sm in
  set_wal (set_sstManager e sm) (WAL.Flush (wal e)).

End WithClock.

End Engine.

(** ** compactor.go *)

Module Compactor.

(* the loop of readAllEntries *)
Fixpoint readAllEntries_loop (fuel : nat) (r : list byte)
    (entries : list Entry) {struct fuel} : result (list Entry) :=
  match fuel with
  | O => Ok entries
  | S fuel' =>
      match IO.Read_int64 r with
      | Err EOF => Ok entries
      | Err e => Err e
      | Ok (timestamp, r1) =>
          match SST.read_rest timestamp r1 with
          | Err e => Err e
          | Ok (entry, r2) =>
              readAllEntries_loop fuel' r2 (entries ++ [entry])
          end
      end
  end.

(* readAllEntries reads all entries from an SST file *)
Definition readAllEntries (dir : gmap Z (list byte)) (sst : SST.SSTable)
  : result (list Entry) :=
  match dir !! SST.FilePath sst with
  | None => Err (ErrNotExist (SST.path (SST.FilePath sst)))
  | Some f => readAllEntries_loop (S (length f)) f []
  end.

(* the body of the inner loop of mergeSSTs *)
Definition merge_entry (entryMap : gmap string Entry) (entry : Entry)
  : gmap string Entry :=
  match entryMap !! Key entry with
  | Some existing =>
      if Timestamp entry >? Timestamp existing
      then <[Key entry := entry]> entryMap else entryMap
  | None => <[Key entry := entry]> entryMap
  end.

(* the outer loop of mergeSSTs *)
Fixpoint mergeSSTs_loop (dir : gmap Z (list byte))
    (sstables : list SST.SSTable) (entryMap : gmap string Entry)
    {struct sstables} : result (gmap string Entry) :=
  match sstables with
  | [] => Ok entryMap
  | sst :: rest =>
      match readAllEntries dir sst with
      | Err e => Err e
      | Ok entries => mergeSSTs_loop dir rest (foldl merge_entry entryMap entries)
      end
  end.

(* mergeSSTs merges multiple SST files, keeping the newest version of
   each key *)
Definition mergeSSTs (dir : gmap Z (list byte)) (sstables : list SST.SSTable)
  : result (list Entry) :=
  match mergeSSTs_loop dir sstables ∅ with
  | Err e => Err e
  | Ok entryMap =>
      (* convert map to slice and remove tombstones, sort by key *)
      Ok (sort_by key_less
            (filter (fun entry => Deleted entry = false)
                    (map snd (map_to_list entryMap))))
  end.

(* compact performs a compaction cycle *)
Definition compact (sm : SST.SSTManager) : result unit * SST.SSTManager :=
  let sstables := SST.GetAllSSTables sm in
  (* simple strategy: merge oldest SSTs if we have more than 4 *)
  if (length sstables <=? 4)%nat then (Ok tt, sm)
  else
    (* take the 4 oldest SSTs *)
    let toMerge := drop (length sstables - 4) sstables in
    match mergeSSTs (SST.dataDir sm) toMerge with
    | Err e => (Err (Wrapf "merge failed" e), sm)
    | Ok mergedEntries =>
        (* write merged SST, remove old SSTs *)
        let sm := SST.Flush mergedEntries sm in
        (Ok tt, foldl (fun sm sst => SST.RemoveSSTable sst sm) sm toMerge)
    end.

(* one tick of the compaction timer on an engine *)
Definition tick (e : Engine.Engine) : Engine.Engine :=
  Engine.set_sstManager e (compact (Engine.sstManager e)).2.

End Compactor.

(** ** protocol.go: key validation *)

Module Protocol.

Definition runeError : Z := 0xFFFD.

(* a continuation byte: locb <= b <= hicb *)
Definition cont (b : Z) : bool := (0x80 <=? b) && (b <=? 0xBF).

(* the rune starting a string whose first byte is not ASCII, and its width
   in bytes (runtime.decoderune); an ill-formed sequence yields runeError
   and the width 1 *)
Definition decoderune (s : list Z) : Z * nat :=
  let len := Z.of_nat (length s) in
  let s0 := nth 0 s 0 in
  let s1 := nth 1 s 0 in
  let s2 := nth 2 s 0 in
  let s3 := nth 3 s 0 in
  if (0xC0 <=? s0) && (s0 <? 0xE0) then
    (* 0080-07FF two byte sequence *)
    let r := Z.lor (Z.shiftl (Z.land s0 0x1F) 6) (Z.land s1 0x3F) in
    if (len >? 1) && cont s1 && (0x7F <? r) then (r, 2%nat)
    else (runeError, 1%nat)
  else if (0xE0 <=? s0) && (s0 <? 0xF0) then
    (* 0800-FFFF three byte sequence *)
    let r := Z.lor (Z.lor (Z.shiftl (Z.land s0 0x0F) 12)
                          (Z.shiftl (Z.land s1 0x3F) 6))
                   (Z.land s2 0x3F) in
    if (len >? 2) && cont s1 && cont s2
       && (0x7FF <? r) && negb ((0xD800 <=? r) && (r <=? 0xDFFF))
    then (r, 3%nat) else (runeError, 1%nat)
  else if (0xF0 <=? s0) && (s0 <? 0xF8) then
    (* 10000-1FFFFF four byte sequence *)
    let r := Z.lor (Z.lor (Z.lor (Z.shiftl (Z.land s0 0x07) 18)
                                 (Z.shiftl (Z.land s1 0x3F) 12))
                          (Z.shiftl (Z.land s2 0x3F) 6))
                   (Z.land s3 0x3F) in
    if (len >? 3) && cont s1 && cont s2 && cont s3
       && (0xFFFF <? r) && (r <=? 0x10FFFF)
    then (r, 4%nat) else (runeError, 1%nat)
  else (runeError, 1%nat).

(* the runes a [for _, ch := range key] loop goes through *)
Fixpoint runes (fuel : nat) (s : list Z) {struct fuel} : list Z :=
  match fuel, s with
  | S fuel', b :: t =>
      if b <? 0x80 then b :: runes fuel' t
      else let '(r, width) := decoderune s in r :: runes fuel' (drop width s)
  | _, _ => []
  end.

Definition bytes_of (key : string) : list Z :=
  map byte.unsigned (list_byte_of_string key).

(* the character class ([a-z] | [A-Z] | [0-9] | "." | "-" | ":" | "_") *)
Definition in_class (ch : Z) : bool :=
  ((97 <=? ch) && (ch <=? 122))
  || ((65 <=? ch) && (ch <=? 90))
  || ((48 <=? ch) && (ch <=? 57))
  || (ch =? 46) || (ch =? 45) || (ch =? 58) || (ch =? 95).

(* isValidKey validates key format *)
Definition isValidKey (key : string) : bool :=
  if (String.length key =? 0)%nat then false
  else forallb in_class (runes (String.length key) (bytes_of key)).

End Protocol.

(** ** server.go: the dispatch of a parsed command *)

Module Server.

Inductive Command : Type :=
| CmdRead (key : string)
| CmdWrite (key : string) (value : list byte)
| CmdDelete (key : string)
| CmdStatus
| CmdKeys
| CmdReads (prefix : string).

Definition CR : string := String (ascii_of_nat 13) EmptyString.
Definition LF : string := String (ascii_of_nat 10) EmptyString.

(* the text of an error, as %v prints it *)
Fixpoint Error (e : error) {struct e} : string :=
  match e with
  | EOF => "EOF"
  | ErrUnexpectedEOF => "unexpected EOF"
  | ErrNotExist path => "open " +:+ path +:+ ": no such file or directory"
  | Errorf msg => msg
  | Wrapf msg cause => msg +:+ ": " +:+ Error cause
  end.

(* strings.Join *)
Fixpoint Join (elems : list string) (sep : string) {struct elems} : string :=
  match elems with
  | [] => ""
  | [s] => s
  | s :: rest => s +:+ sep +:+ Join rest sep
  end.

(* GetStats returns current engine statistics *)
Definition GetStats (e : Engine.Engine) : Engine.Stats :=
  Engine.set_WALSize
    (Engine.set_SSTCount
       (Engine.set_MemTableSize (Engine.stats e)
          (MemTable.Size (Engine.memtable e)))
       (Z.of_nat (length (SST.GetAllSSTables (Engine.sstManager e)))))
    (WAL.Size (Engine.wal e)).

Definition status_line (s : Engine.Stats) : string :=
  "well going our operation" +:+ LF
  +:+ "writes=" +:+ pretty (Engine.Writes s)
  +:+ " reads=" +:+ pretty (Engine.Reads s)
  +:+ " deletes=" +:+ pretty (Engine.Deletes s)
  +:+ " flushes=" +:+ pretty (Engine.Flushes s)
  +:+ " memtable_size=" +:+ pretty (Engine.MemTableSize s)
  +:+ " sst_count=" +:+ pretty (Engine.SSTCount s)
  +:+ " wal_size=" +:+ pretty (Engine.WALSize s).

Section WithClock.

Variable clock : nat -> Z.

(* executeCommand executes a parsed command *)
Definition executeCommand (cmd : Command) (e : Engine.Engine)
  : string * Engine.Engine :=
  match cmd with
  | CmdRead key =>
      match Engine.Get key e with
      | (Err err, e) => ("error: " +:+ Error err, e)
      | (Ok None, e) => ("error", e)
      | (Ok (Some value), e) => (string_of_list_byte value, e)
      end
  | CmdWrite key value =>
      match Engine.Put clock key value e with
      | (Err err, e) => ("error: " +:+ Error err, e)
      | (Ok _, e) => ("success", e)
      end
  | CmdDelete key =>
      match Engine.Delete clock key e with
      | (Err err, e) => ("error: " +:+ Error err, e)
      | (Ok false, e) => ("error", e)
      | (Ok true, e) => ("success", e)
      end
  | CmdStatus => (status_line (GetStats e), e)
  | CmdKeys => (Join (Engine.Keys e) CR, e)
  | CmdReads prefix =>
      (Join (map string_of_list_byte (Engine.PrefixScan prefix e)) CR, e)
  end.

End WithClock.

End Server.

(** * Specification vocabulary *)

(** a read stopped by the end of the file *)
Definition short_read {A} (r : result A) : Prop :=
  r = Err EOF \/ r = Err ErrUnexpectedEOF.

(** the records the log can hold without loss: a timestamp in the int64
    range, key and value shorter than 4 GiB *)
Definition WALEntry_wf (e : WAL.WALEntry) : Prop :=
  - 2 ^ 63 <= WAL.Timestamp e < 2 ^ 63
  /\ len_string (WAL.Key e) < 2 ^ 32
  /\ len_bytes (WAL.Value e) < 2 ^ 32.

(* the bytes of a record after its opType *)
Definition WAL_body (e : WAL.WALEntry) : list byte :=
  IO.Write_int64 (WAL.Timestamp e)
  ++ IO.Write_uint32 (uint32 (len_string (WAL.Key e)))
  ++ list_byte_of_string (WAL.Key e)
  ++ IO.Write_uint32 (uint32 (len_bytes (WAL.Value e)))
  ++ WAL.Value e.

(** ** Sample data for the worked examples *)

(* a clock that advances by one nanosecond between two reads *)
Definition sample_clock (n : nat) : Z := 1000 + Z.of_nat n.

Definition bytes (s : string) : list byte := list_byte_of_string s.

Definition rec_a : WAL.WALEntry :=
  {| WAL.OpType := WAL.OpTypePut; WAL.Key := "a"; WAL.Value := bytes "1";
     WAL.Timestamp := 1 |}.
Definition rec_b : WAL.WALEntry :=
  {| WAL.OpType := WAL.OpTypePut; WAL.Key := "b"; WAL.Value := bytes "2";
     WAL.Timestamp := 2 |}.

(* the log left by [write a|1] and [write b|2] when the second record was
   cut after 12 of its 19 bytes *)
Definition torn_log : list byte :=
  WAL.encode rec_a ++ take 12 (WAL.encode rec_b).

(* the engine NewEngine builds on an empty data directory *)
Definition fresh (cfg : Engine.Config) : Engine.Engine :=
  {| Engine.memtable := MemTable.NewMemTable (Engine.MemTableMaxSize cfg);
     Engine.immutableMemtables := [];
     Engine.sstManager := SST.mkSSTManager [] ∅ 1;
     Engine.wal := WAL.NewWAL [];
     Engine.config := cfg;
     Engine.flushCh := false;
     Engine.stats := Engine.mkStats 0 0 0 0 0 0 0 0 0;
     Engine.ticks := 0 |}.

(* the default configuration: a memtable of 64 MiB *)
Definition default_config : Engine.Config :=
  Engine.mkConfig (64 * 1024 * 1024).

(* a memtable so small that a record of four bytes fills it *)
Definition tiny_config : Engine.Config := Engine.mkConfig 4.

(** ** Runs: client commands interleaved with the background workers *)

Inductive Step : Type :=
| Client (cmd : Server.Command)   (* a command of a client *)
| Flusher                         (* the flusher takes a signal *)
| CompactionTick                  (* the compaction timer fires *)
| Restart                         (* Close, then NewEngine on the disk *).

Fixpoint run_steps (clock : nat -> Z) (steps : list Step) (e : Engine.Engine)
    {struct steps} : list string * Engine.Engine :=
  match steps with
  | [] => ([], e)
  | Client cmd :: rest =>
      let '(response, e) := Server.executeCommand clock cmd e in
      let '(responses, e) := run_steps clock rest e in
      (response :: responses, e)
  | Flusher :: rest => run_steps clock rest (Engine.flush e)
  | CompactionTick :: rest => run_steps clock rest (Compactor.tick e)
  | Restart :: rest =>
      let closed := Engine.Close e in
      match Engine.NewEngine clock (Engine.config e)
              (Engine.mkDisk (WAL.file (Engine.wal closed))
                             (SST.dataDir (Engine.sstManager closed))) with
      | Ok e' => run_steps clock rest e'
      | Err _ => ([], e)
      end
  end.

(* a key of n bytes *)
Fixpoint key_of_size (n : nat) {struct n} : string :=
  match n with
  | O => ""
  | S n' => String "a" (key_of_size n')
  end.

(* the same log record under another timestamp *)
Definition with_Timestamp (ts : Z) (entry : WAL.WALEntry) : WAL.WALEntry :=
  WAL.mkWALEntry (WAL.OpType entry) (WAL.Key entry) (WAL.Value entry) ts.

(* two keys under the prefix user: bound to the same value *)
Definition twins : Engine.Engine :=
  (run_steps sample_clock
     [Client (Server.CmdWrite "user:a" (bytes "A"));
      Client (Server.CmdWrite "user:b" (bytes "A"));
      Client (Server.CmdWrite "other" (bytes "X"))]
     (fresh default_config)).2.

(** ** Segments and compaction *)

(** the records a segment can hold without loss *)
Definition Entry_wf (e : Entry) : Prop :=
  - 2 ^ 63 <= Timestamp e < 2 ^ 63
  /\ len_string (Key e) < 2 ^ 32
  /\ len_bytes (Value e) < 2 ^ 32.

(** [e] is a record of [all] with the highest timestamp among the records
    of its key *)
Definition newest_of (all : list Entry) (e : Entry) : Prop :=
  In e all
  /\ forall e', In e' all -> Key e' = Key e -> Timestamp e' <= Timestamp e.

(** a registry as Flush and NewSSTManager build it: ids are unique, below
    the next id, and name the files *)
Definition SSTManager_wf (sm : SST.SSTManager) : Prop :=
  NoDup (map SST.ID (SST.sstables sm))
  /\ Forall (fun s => SST.ID s < SST.nextID sm /\ SST.FilePath s = SST.ID s)
            (SST.sstables sm).

(* a registry built by flushing the given cohorts, oldest first *)
Definition registry (cohorts : list (list Entry)) : SST.SSTManager :=
  foldl (fun sm entries => SST.Flush entries sm)
        (SST.mkSSTManager [] ∅ 1) cohorts.

(* five cohorts: k is overwritten, d is deleted, e and f are written once *)
Definition five_cohorts : list (list Entry) :=
  [ [mkEntry "k" (bytes "old") 10 false; mkEntry "d" (bytes "x") 11 false];
    [mkEntry "k" (bytes "new") 20 false];
    [mkEntry "d" [] 30 true];
    [mkEntry "e" (bytes "y") 40 false];
    [mkEntry "f" (bytes "z") 50 false] ].

(* a deleted key and four graceful restarts: Close flushes the active
   memtable, which holds the tombstone of a, and leaves the WAL in place,
   so every restart replays the write and the delete and the next Close
   flushes the tombstone again; the fifth segment also holds b *)
Definition tombstone_segments_scenario : list Step :=
  [Client (Server.CmdWrite "a" (bytes "1"));
   Client (Server.CmdDelete "a");
   Restart; Restart; Restart; Restart;
   Client (Server.CmdWrite "b" (bytes "2"));
   Restart].

(* the overwrite of k reaches the fifth segment, the first write the first *)
Definition overwrite_scenario : list Step :=
  [Client (Server.CmdWrite "k" (bytes "old")); Flusher;
   Client (Server.CmdWrite "a" (bytes "111")); Flusher;
   Client (Server.CmdWrite "b" (bytes "222")); Flusher;
   Client (Server.CmdWrite "c" (bytes "333")); Flusher;
   Client (Server.CmdWrite "k" (bytes "new")); Flusher].

(** ** Worked runs *)

Definition tombstone_scenario : list Step :=
  [Client (Server.CmdWrite "k" (bytes "abc"));
   Client (Server.CmdWrite "k" (bytes "x"));
   Client (Server.CmdDelete "k");
   Client (Server.CmdRead "k")].

Definition segment_tombstone_scenario : list Step :=
  [Client (Server.CmdWrite "k" (bytes "abc")); Flusher;
   Client (Server.CmdWrite "k" (bytes "x"));
   Client (Server.CmdDelete "k");
   Client (Server.CmdWrite "z" (bytes "zz")); Flusher;
   Client (Server.CmdRead "k")].

(* the default memtable size: the value of k reaches a segment through a
   graceful restart, which also replays it into the memtable *)
Definition restart_tombstone_scenario : list Step :=
  [Client (Server.CmdWrite "k" (bytes "abc")); Restart;
   Client (Server.CmdDelete "k");
   Client (Server.CmdRead "k")].

Definition delete_frozen_scenario : list Step :=
  [Client (Server.CmdWrite "k" (bytes "abc"));
   Client (Server.CmdDelete "k");
   Client (Server.CmdRead "k")].

Definition delete_flushed_scenario : list Step :=
  [Client (Server.CmdWrite "k" (bytes "abc")); Flusher;
   Client (Server.CmdDelete "k");
   Client (Server.CmdRead "k")].

Definition status_scenario : list Step :=
  [Client (Server.CmdWrite "k" (bytes "v"));
   Client (Server.CmdRead "k");
   Client (Server.CmdRead "k");
   Client (Server.CmdDelete "k");
   Client Server.CmdStatus].

(** ** The value map of the prefix scan *)

(* the map PrefixScan collects the values in: every value is stored under
   its own contents *)
Definition keyed_by_contents (valueMap : gmap string (list byte)) : Prop :=
  forall s v, valueMap !! s = Some v -> s = string_of_list_byte v.

Definition collect (valueMap : gmap string (list byte))
    (values : list (list byte)) : gmap string (list byte) :=
  foldl (fun acc value => <[string_of_list_byte value := value]> acc)
        valueMap values.

(** ** The entry map of the merge, the files of removed segments *)

(* what the entry map of mergeSSTs holds after the records [all] *)
Definition merged_from (all : list Entry) (entryMap : gmap string Entry)
  : Prop :=
  (forall k e, entryMap !! k = Some e -> Key e = k /\ newest_of all e)
  /\ (forall e, In e all -> is_Some (entryMap !! Key e)).

Definition unlink (dir : gmap Z (list byte)) (tables : list SST.SSTable)
  : gmap Z (list byte) :=
  foldl (fun d s => delete (SST.FilePath s) d) dir tables.

(** ** Memtables *)

(** the bytes the records of a memtable hold: key and value of every
    entry, the deleted ones included *)
Definition footprint (data : gmap string Entry) : Z :=
  map_fold (fun _ entry acc =>
              acc + (len_string (Key entry) + len_bytes (Value entry)))
           0 data.

(** a memtable as Put and Delete build it: an entry is stored under its
    own key, and [size] is the footprint of the map, in the int64 range *)
Definition MemTable_wf (m : MemTable.MemTable) : Prop :=
  (forall k entry, MemTable.data m !! k = Some entry -> Key entry = k)
  /\ MemTable.size m = footprint (MemTable.data m)
  /\ footprint (MemTable.data m) < 2 ^ 63.

(** ** Segments *)

(** a slice of records in ascending order of their keys, no key twice *)
Fixpoint ascending (l : list Entry) {struct l} : Prop :=
  match l with
  | [] => True
  | e :: l' =>
      Forall (fun e' => String.ltb (Key e) (Key e') = true) l' /\ ascending l'
  end.

(** what a lookup of [key] in the records [es] of one segment is to
    answer: the value of the record of that key, nothing for a tombstone
    or a key the segment does not hold *)
Definition segment_lookup (key : string) (es : list Entry)
  : option (list byte) :=
  match find (fun e => String.eqb (Key e) key) es with
  | Some e => if Deleted e then None else Some (Value e)
  | None => None
  end.

(** a sparse index over the file of the records [es]: every index entry
    gives the offset at which the record of its key starts *)
Definition index_of (es : list Entry) (index : gmap string Z) : Prop :=
  forall k off, index !! k = Some off ->
    exists pre e suf,
      es = pre ++ e :: suf /\ Key e = k
      /\ off = len_bytes (concat (map SST.encode pre)).

(** ** Recovery *)

(** two memtables that hold the same records up to their timestamps *)
Definition same_records (m1 m2 : MemTable.MemTable) : Prop :=
  (forall k,
     (fun e => (Key e, Value e, Deleted e)) <$> (MemTable.data m1 !! k)
     = (fun e => (Key e, Value e, Deleted e)) <$> (MemTable.data m2 !! k))
  /\ MemTable.size m1 = MemTable.size m2
  /\ MemTable.maxSize m1 = MemTable.maxSize m2.

(** a command of a client whose value, if it writes one, fits the length
    field of a log record *)
Definition client_step (s : Step) : Prop :=
  match s with
  | Client (Server.CmdWrite _ value) => len_bytes value < 2 ^ 32
  | Client _ => True
  | _ => False
  end.

(** the engine [e] has rotated and flushed nothing, its log holds the
    records [es], written out or still buffered, and replaying them on an
    empty memtable rebuilds the memtable of [e] up to the timestamps *)
Definition logged (cfg : Engine.Config) (e : Engine.Engine)
    (es : list WAL.WALEntry) : Prop :=
  Engine.immutableMemtables e = []
  /\ Engine.sstManager e = SST.mkSSTManager [] ∅ 1
  /\ Engine.config e = cfg
  /\ WAL.contents (Engine.wal e) = concat (map WAL.encode es)
  /\ Forall WALEntry_wf es
  /\ (forall k, is_Some (MemTable.data (Engine.memtable e) !! k) ->
        len_string k < 2 ^ 32)
  /\ forall clock' t,
       same_records
         (Engine.recover_loop clock' es
            (MemTable.NewMemTable (Engine.MemTableMaxSize cfg)) t).1
         (Engine.memtable e).

(** ** The registry of segments *)

(** a slice in strictly ascending order of a key *)
Fixpoint sorted_by_key {A} (key : A -> Z) (l : list A) {struct l} : Prop :=
  match l with
  | [] => True
  | x :: l' => Forall (fun y => key x < key y) l' /\ sorted_by_key key l'
  end.

(** a registry that is what NewSSTManager builds from its data directory:
    the segments are listed newest first, every file of the directory is
    the file of one segment, and loading it gives the descriptor the
    registry holds; the next id follows the newest one *)
Definition SSTManager_loaded (sm : SST.SSTManager) : Prop :=
  sorted_by_key (fun s => - SST.ID s) (SST.sstables sm)
  /\ Forall (fun s => 1 <= SST.ID s) (SST.sstables sm)
  /\ SST.nextID sm = match SST.sstables sm with
                     | [] => 1
                     | s :: _ => SST.ID s + 1
                     end
  /\ SST.nextID sm < 2 ^ 63
  /\ (forall id, is_Some (SST.dataDir sm !! id)
                 <-> In id (map SST.ID (SST.sstables sm)))
  /\ Forall (fun s => SST.loadSSTable (SST.dataDir sm) (SST.ID s) = Ok s)
            (SST.sstables sm).

(** ** A record larger than the buffer of the log *)

(* a value of 300000 bytes *)
Definition big_value : list byte := repeat Byte.x78 (Z.to_nat 300000).

(* the engine after [write a|1] and a tick of the WAL syncer *)
Definition synced_engine : Engine.Engine :=
  let e := (Engine.Put sample_clock "a" (bytes "1")
              (fresh default_config)).2 in
  Engine.set_wal e (WAL.Sync (Engine.wal e)).

(** * Properties *)

(* case analysis on the condition of a conditional of the goal *)
Ltac case_if :=
  match goal with |- context [if ?c then _ else _] => destruct c end.

(** ** Bytes and readers *)

Lemma length_list_byte_of_string (s : string) :
  length (list_byte_of_string s) = String.length s.
Proof.
  induction s as [|a s IH]; [reflexivity|].
  cbn [String.length]. rewrite <- IH. reflexivity.
Qed.

Lemma int64_small (z : Z) : - 2 ^ 63 <= z < 2 ^ 63 -> int64 z = z.
Proof. intros H. unfold int64. rewrite Z.mod_small; lia. Qed.

Lemma int64_mod (z : Z) : - 2 ^ 63 <= z < 2 ^ 63 -> int64 (z mod 2 ^ 64) = z.
Proof.
  intros H. unfold int64.
  rewrite Zplus_mod_idemp_l. rewrite Z.mod_small; lia.
Qed.

Lemma uint32_small (z : Z) : 0 <= z < 2 ^ 32 -> uint32 z = z.
Proof. intros H. unfold uint32. apply Z.mod_small. exact H. Qed.

Lemma ReadFull_app (bs rest : list byte) (n : nat) :
  length bs = n -> IO.ReadFull n (bs ++ rest) = Ok (bs, rest).
Proof.
  intros <-. unfold IO.ReadFull.
  destruct bs as [|b bs]; [reflexivity|].
  cbn [length Nat.eqb app].
  destruct (Nat.ltb_spec (S (length (bs ++ rest))) (S (length bs))) as [H|H].
  - rewrite length_app in H. lia.
  - change (b :: bs ++ rest) with ((b :: bs) ++ rest).
    change (S (length bs)) with (length (b :: bs)).
    rewrite take_app_length, drop_app_length. reflexivity.
Qed.

(* a read of n bytes from a reader cut after m bytes *)
Lemma ReadFull_take (bs rest : list byte) (n m : nat) :
  length bs = n ->
  IO.ReadFull n (take m (bs ++ rest)) =
    if (m <? n)%nat
    then Err (if (m =? 0)%nat then EOF else ErrUnexpectedEOF)
    else Ok (bs, take (m - n) rest).
Proof.
  intros Hn. destruct (Nat.ltb_spec m n) as [Hlt|Hge].
  - unfold IO.ReadFull.
    assert (Hlen : length (take m (bs ++ rest)) = m).
    { rewrite length_take, length_app. lia. }
    rewrite Hlen.
    destruct (Nat.eqb_spec n 0) as [->|_]; [lia|].
    destruct (Nat.eqb_spec m 0) as [->|_]; [reflexivity|].
    destruct (Nat.ltb_spec m n); [reflexivity|lia].
  - rewrite take_app_ge by lia. rewrite Hn. apply ReadFull_app. exact Hn.
Qed.

Lemma Read_int64_app (ts : Z) (rest : list byte) :
  - 2 ^ 63 <= ts < 2 ^ 63 ->
  IO.Read_int64 (IO.Write_int64 ts ++ rest) = Ok (ts, rest).
Proof.
  intros H. unfold IO.Read_int64, IO.bind, IO.Write_int64.
  rewrite ReadFull_app by apply length_le_split.
  unfold IO.ret. rewrite le_combine_split.
  change (Z.of_nat 8 * 8) with 64. rewrite int64_mod by exact H. reflexivity.
Qed.

Lemma Read_uint32_app (n : Z) (rest : list byte) :
  IO.Read_uint32 (IO.Write_uint32 (uint32 n) ++ rest) = Ok (uint32 n, rest).
Proof.
  unfold IO.Read_uint32, IO.bind, IO.Write_uint32.
  rewrite ReadFull_app by apply length_le_split.
  unfold IO.ret. rewrite le_combine_split.
  change (Z.of_nat 4 * 8) with 32. unfold uint32.
  rewrite Z.mod_mod by lia. reflexivity.
Qed.

Lemma Read_int64_take (ts : Z) (rest : list byte) (m : nat) :
  - 2 ^ 63 <= ts < 2 ^ 63 ->
  IO.Read_int64 (take m (IO.Write_int64 ts ++ rest)) =
    if (m <? 8)%nat
    then Err (if (m =? 0)%nat then EOF else ErrUnexpectedEOF)
    else Ok (ts, take (m - 8) rest).
Proof.
  intros H. unfold IO.Read_int64, IO.bind, IO.Write_int64.
  rewrite (ReadFull_take _ _ 8 m) by apply length_le_split.
  destruct (m <? 8)%nat; [reflexivity|].
  unfold IO.ret. rewrite le_combine_split.
  change (Z.of_nat 8 * 8) with 64. rewrite int64_mod by exact H. reflexivity.
Qed.

Lemma Read_uint32_take (n : Z) (rest : list byte) (m : nat) :
  IO.Read_uint32 (take m (IO.Write_uint32 (uint32 n) ++ rest)) =
    if (m <? 4)%nat
    then Err (if (m =? 0)%nat then EOF else ErrUnexpectedEOF)
    else Ok (uint32 n, take (m - 4) rest).
Proof.
  unfold IO.Read_uint32, IO.bind, IO.Write_uint32.
  rewrite (ReadFull_take _ _ 4 m) by apply length_le_split.
  destruct (m <? 4)%nat; [reflexivity|].
  unfold IO.ret. rewrite le_combine_split.
  change (Z.of_nat 4 * 8) with 32. unfold uint32.
  rewrite Z.mod_mod by lia. reflexivity.
Qed.

Lemma short_read_eof {A} (b : bool) :
  @short_read A (Err (if b then EOF else ErrUnexpectedEOF)).
Proof. destruct b; [left|right]; reflexivity. Qed.

Lemma short_read_not_Ok {A} (r : result A) : short_read r -> is_Ok r = false.
Proof. intros [-> | ->]; reflexivity. Qed.

(** ** The write-ahead log *)

Lemma WAL_encode_body (e : WAL.WALEntry) :
  WAL.encode e = WAL.OpType e :: WAL_body e.
Proof. reflexivity. Qed.

Lemma WAL_body_length (e : WAL.WALEntry) :
  length (WAL_body e)
  = (16 + String.length (WAL.Key e) + length (WAL.Value e))%nat.
Proof.
  unfold WAL_body, IO.Write_int64, IO.Write_uint32.
  rewrite !length_app, !length_le_split, length_list_byte_of_string. lia.
Qed.

Lemma key_length_nat (s : string) :
  len_string s < 2 ^ 32 -> Z.to_nat (uint32 (len_string s)) = String.length s.
Proof.
  intros H. unfold len_string in *. rewrite uint32_small by lia. lia.
Qed.

Lemma value_length_nat (v : list byte) :
  len_bytes v < 2 ^ 32 -> Z.to_nat (uint32 (len_bytes v)) = length v.
Proof.
  intros H. unfold len_bytes in *. rewrite uint32_small by lia. lia.
Qed.

Lemma WAL_read_rest_app (e : WAL.WALEntry) (rest : list byte) :
  WALEntry_wf e ->
  WAL.read_rest (WAL.OpType e) (WAL_body e ++ rest) = Ok (e, rest).
Proof.
  intros (Hts & Hk & Hv). unfold WAL.read_rest, WAL_body, IO.bind.
  rewrite <- !app_assoc.
  rewrite Read_int64_app by exact Hts.
  rewrite Read_uint32_app.
  rewrite ReadFull_app
    by (rewrite key_length_nat by exact Hk; apply length_list_byte_of_string).
  rewrite Read_uint32_app.
  rewrite ReadFull_app by (rewrite value_length_nat by exact Hv; reflexivity).
  unfold IO.ret. rewrite string_of_list_byte_of_string.
  destruct e; reflexivity.
Qed.

Lemma WAL_read_rest_take (e : WAL.WALEntry) (op : byte) (m : nat) :
  WALEntry_wf e -> (m < length (WAL_body e))%nat ->
  short_read (WAL.read_rest op (take m (WAL_body e))).
Proof.
  intros (Hts & Hk & Hv) Hm. rewrite WAL_body_length in Hm.
  unfold WAL.read_rest, WAL_body, IO.bind.
  rewrite Read_int64_take by exact Hts.
  destruct (Nat.ltb_spec m 8); [apply short_read_eof|].
  rewrite Read_uint32_take.
  destruct (Nat.ltb_spec (m - 8) 4); [apply short_read_eof|].
  rewrite (ReadFull_take _ _ _ (m - 8 - 4))
    by (rewrite key_length_nat by exact Hk; apply length_list_byte_of_string).
  rewrite key_length_nat by exact Hk.
  destruct (Nat.ltb_spec (m - 8 - 4) (String.length (WAL.Key e)));
    [apply short_read_eof|].
  rewrite Read_uint32_take.
  destruct (Nat.ltb_spec (m - 8 - 4 - String.length (WAL.Key e)) 4);
    [apply short_read_eof|].
  rewrite <- (app_nil_r (WAL.Value e)).
  rewrite (ReadFull_take _ _ _ (m - 8 - 4 - String.length (WAL.Key e) - 4))
    by (rewrite app_nil_r, value_length_nat by exact Hv; reflexivity).
  rewrite app_nil_r, value_length_nat by exact Hv.
  destruct (Nat.ltb_spec (m - 8 - 4 - String.length (WAL.Key e) - 4)
                         (length (WAL.Value e)));
    [apply short_read_eof|lia].
Qed.

Lemma Replay_loop_record (e : WAL.WALEntry) (r : list byte)
    (acc : list WAL.WALEntry) (fuel : nat) :
  WALEntry_wf e ->
  WAL.Replay_loop (S fuel) (WAL.encode e ++ r) acc
  = WAL.Replay_loop fuel r (acc ++ [e]).
Proof.
  intros Hwf. rewrite WAL_encode_body. cbn [WAL.Replay_loop IO.ReadByte app].
  rewrite WAL_read_rest_app by exact Hwf. reflexivity.
Qed.

Lemma Replay_loop_records (es : list WAL.WALEntry) :
  Forall WALEntry_wf es ->
  forall (r : list byte) (acc : list WAL.WALEntry) (fuel : nat),
    WAL.Replay_loop (length es + fuel) (concat (map WAL.encode es) ++ r) acc
    = WAL.Replay_loop fuel r (acc ++ es).
Proof.
  induction 1 as [|e es Hwf _ IH]; intros r acc fuel.
  - cbn. rewrite app_nil_r. reflexivity.
  - cbn [length map concat Nat.add]. rewrite <- app_assoc.
    rewrite Replay_loop_record by exact Hwf.
    rewrite IH, <- app_assoc. reflexivity.
Qed.

Lemma WAL_log_length (es : list WAL.WALEntry) :
  (length es <= length (concat (map WAL.encode es)))%nat.
Proof.
  induction es as [|e es IH]; [reflexivity|].
  cbn [length map concat]. rewrite length_app, WAL_encode_body.
  cbn [length]. lia.
Qed.

(** a log made of whole records is replayed in full *)
Lemma Replay_whole_records (es : list WAL.WALEntry) :
  Forall WALEntry_wf es ->
  WAL.Replay (WAL.NewWAL (concat (map WAL.encode es))) = Ok es.
Proof.
  intros Hwf. unfold WAL.Replay. cbn [WAL.file WAL.NewWAL].
  pose proof (WAL_log_length es) as Hlen.
  set (log := concat (map WAL.encode es)) in *.
  replace (S (length log))
    with (length es + S (length log - length es))%nat by lia.
  rewrite <- (app_nil_r log) at 2. subst log.
  rewrite Replay_loop_records by exact Hwf. reflexivity.
Qed.

(** a log that ends inside a record makes Replay fail *)
Lemma Replay_truncated (es : list WAL.WALEntry) (e : WAL.WALEntry) (n : nat) :
  Forall WALEntry_wf es -> WALEntry_wf e ->
  (0 < n < length (WAL.encode e))%nat ->
  short_read
    (WAL.Replay (WAL.NewWAL (concat (map WAL.encode es)
                             ++ take n (WAL.encode e)))).
Proof.
  intros Hwf He Hn. unfold WAL.Replay. cbn [WAL.file WAL.NewWAL].
  pose proof (WAL_log_length es) as Hlen.
  set (log := concat (map WAL.encode es)) in *.
  set (t := take n (WAL.encode e)).
  replace (S (length (log ++ t)))
    with (length es + S (length (log ++ t) - length es))%nat
    by (rewrite length_app; lia).
  subst log. rewrite Replay_loop_records by exact Hwf.
  subst t. rewrite WAL_encode_body in *. cbn [length] in Hn.
  destruct n as [|m]; [lia|].
  cbn [take WAL.Replay_loop IO.ReadByte].
  destruct (WAL_read_rest_take e (WAL.OpType e) m He ltac:(lia)) as [-> | ->];
    [left|right]; reflexivity.
Qed.

Lemma NewEngine_Replay_Err (clock : nat -> Z) (cfg : Engine.Config)
    (log : list byte) (files : gmap Z (list byte)) (err : error) :
  WAL.Replay (WAL.NewWAL log) = Err err ->
  is_Ok (Engine.NewEngine clock cfg (Engine.mkDisk log files)) = false.
Proof.
  intros H. unfold Engine.NewEngine. cbn [Engine.wal_log Engine.sst_files].
  destruct (SST.NewSSTManager files); [|reflexivity].
  unfold Engine.recover. cbn [Engine.wal]. rewrite H. reflexivity.
Qed.

Lemma NewEngine_Replay_Ok (clock : nat -> Z) (cfg : Engine.Config)
    (log : list byte) (es : list WAL.WALEntry) :
  WAL.Replay (WAL.NewWAL log) = Ok es ->
  is_Ok (Engine.NewEngine clock cfg (Engine.mkDisk log ∅)) = true.
Proof.
  intros H. unfold Engine.NewEngine. cbn [Engine.wal_log Engine.sst_files].
  replace (SST.NewSSTManager ∅) with (Ok (SST.mkSSTManager [] ∅ 1))
    by reflexivity.
  unfold Engine.recover. cbn [Engine.wal]. rewrite H.
  destruct (Engine.recover_loop _ _ _ _). reflexivity.
Qed.

(** Replay yields every record of a log that ends on a record boundary,
    and the engine then starts; a log whose last record is truncated makes
    Replay return the error of the short read (io.EOF or
    io.ErrUnexpectedEOF) instead of any record, and NewEngine fails with
    it. *)
Theorem Replay_truncated_record_is_error (clock : nat -> Z)
    (cfg : Engine.Config) (files : gmap Z (list byte))
    (es : list WAL.WALEntry) (e : WAL.WALEntry) (n : nat) :
  Forall WALEntry_wf es -> WALEntry_wf e ->
  (0 < n < length (WAL.encode e))%nat ->
  let log := concat (map WAL.encode es) in
  let torn := log ++ take n (WAL.encode e) in
  WAL.Replay (WAL.NewWAL log) = Ok es
  /\ is_Ok (Engine.NewEngine clock cfg (Engine.mkDisk log ∅)) = true
  /\ short_read (WAL.Replay (WAL.NewWAL torn))
  /\ is_Ok (Engine.NewEngine clock cfg (Engine.mkDisk torn files)) = false.
Proof.
  intros Hwf He Hn log torn.
  pose proof (Replay_whole_records es Hwf) as Hok.
  pose proof (Replay_truncated es e n Hwf He Hn) as Hshort.
  split; [exact Hok|]. split; [exact (NewEngine_Replay_Ok _ _ _ _ Hok)|].
  split; [exact Hshort|].
  destruct Hshort as [H|H]; exact (NewEngine_Replay_Err _ _ _ _ _ H).
Qed.

(* the theorem on the log of [write a|1] followed by 12 bytes of the
   record of [write b|2] *)
Lemma Replay_truncated_record_witness :
  Forall WALEntry_wf [rec_a] /\ WALEntry_wf rec_b
  /\ (0 < 12 < length (WAL.encode rec_b))%nat
  /\ WAL.Replay (WAL.NewWAL (concat (map WAL.encode [rec_a]))) = Ok [rec_a]
  /\ is_Ok (Engine.NewEngine sample_clock (Engine.mkConfig 1024)
              (Engine.mkDisk (concat (map WAL.encode [rec_a])) ∅)) = true
  /\ short_read
       (WAL.Replay (WAL.NewWAL (concat (map WAL.encode [rec_a])
                                ++ take 12 (WAL.encode rec_b))))
  /\ is_Ok (Engine.NewEngine sample_clock (Engine.mkConfig 1024)
              (Engine.mkDisk (concat (map WAL.encode [rec_a])
                              ++ take 12 (WAL.encode rec_b)) ∅)) = false.
Proof.
  assert (Ha : WALEntry_wf rec_a) by (vm_compute; easy).
  assert (Hb : WALEntry_wf rec_b) by (vm_compute; easy).
  assert (Hn : (0 < 12 < length (WAL.encode rec_b))%nat) by (vm_compute; lia).
  assert (Hs : Forall WALEntry_wf [rec_a])
    by (constructor; [exact Ha|constructor]).
  split; [exact Hs|]. split; [exact Hb|]. split; [exact Hn|].
  exact (Replay_truncated_record_is_error sample_clock (Engine.mkConfig 1024)
           ∅ [rec_a] rec_b 12 Hs Hb Hn).
Defined.

(** After a crash that left the second of two records half written,
    Replay returns io.ErrUnexpectedEOF, the first, well-formed record is
    not yielded, and NewEngine reports "recovery failed" instead of an
    engine. *)
Lemma Replay_torn_log_fails :
  WAL.Replay (WAL.NewWAL torn_log) = Err ErrUnexpectedEOF
  /\ WAL.Replay (WAL.NewWAL torn_log) <> Ok [rec_a]
  /\ Engine.NewEngine sample_clock (Engine.mkConfig 1024)
       (Engine.mkDisk torn_log ∅)
     = Err (Wrapf "recovery failed" ErrUnexpectedEOF).
Proof.
  assert (H : WAL.Replay (WAL.NewWAL torn_log) = Err ErrUnexpectedEOF)
    by (vm_compute; reflexivity).
  split; [exact H|]. split; [rewrite H; discriminate|].
  vm_compute. reflexivity.
Qed.

Lemma NewEngine_fresh (clock : nat -> Z) (cfg : Engine.Config) :
  Engine.NewEngine clock cfg (Engine.mkDisk [] ∅) = Ok (fresh cfg).
Proof. reflexivity. Qed.

Lemma Flush_contents (w : WAL.WAL) :
  WAL.contents (WAL.Flush w) = WAL.contents w.
Proof. unfold WAL.contents, WAL.Flush. cbn. apply app_nil_r. Qed.

Lemma WriteByte_contents (c : byte) (w : WAL.WAL) :
  WAL.contents (WAL.WriteByte c w) = WAL.contents w ++ [c].
Proof.
  unfold WAL.WriteByte.
  destruct (WAL.Available w <=? 0); unfold WAL.contents; cbn;
    rewrite ?app_nil_r, ?app_assoc; reflexivity.
Qed.

Lemma Write_contents (p : list byte) (w : WAL.WAL) :
  WAL.contents (WAL.Write p w) = WAL.contents w ++ p.
Proof.
  unfold WAL.Write.
  destruct (len_bytes p <=? WAL.Available w).
  { unfold WAL.contents. cbn. apply app_assoc. }
  destruct (Z.eqb_spec (len_bytes (WAL.writer w)) 0) as [H0|_].
  { unfold WAL.contents. cbn.
    destruct (WAL.writer w); [|discriminate H0].
    rewrite !app_nil_r. reflexivity. }
  cbn zeta.
  case_if;
    unfold WAL.contents, WAL.Flush; cbn;
    rewrite ?app_nil_r, <- ?app_assoc, take_drop; reflexivity.
Qed.

(** Append adds the bytes of the record, and nothing else, to the log *)
Lemma Append_contents (entry : WAL.WALEntry) (w : WAL.WAL) :
  WAL.contents (WAL.Append entry w) = WAL.contents w ++ WAL.encode entry.
Proof.
  unfold WAL.Append. cbn zeta.
  case_if;
    rewrite ?Flush_contents, !Write_contents, WriteByte_contents;
    unfold WAL.encode; rewrite <- !app_assoc; reflexivity.
Qed.

(** ** Lookups and deletes across the layers *)

(** Get changes nothing but the read counter *)
Lemma Get_state (key : string) (e : Engine.Engine) :
  (Engine.Get key e).2
  = Engine.set_stats e
      (Engine.set_Reads (Engine.stats e)
         (int64 (Engine.Reads (Engine.stats e) + 1))).
Proof.
  unfold Engine.Get. simpl.
  destruct (MemTable.Get key (Engine.memtable e)); [reflexivity|].
  destruct (Engine.Get_immutables (Engine.immutableMemtables e) key);
    [reflexivity|].
  destruct (SST.Get key (Engine.sstManager e)); reflexivity.
Qed.

(** C1 fails on the code.  With a memtable limit of four bytes,
    [write k|abc] rotates the memtable, [write k|x] and [delete k] leave a
    tombstone for k in the active memtable above the frozen one, and
    [read k] answers the older value abc: MemTable.Get reports a tombstone
    as not found and Engine.Get goes on to the older layers.  The same
    happens between segments: when the tombstone and the old value have both
    been flushed, SSTManager.Get reads past the tombstone in the newer
    segment and answers abc from the older one.  And with the default
    memtable size: after [write k|abc] and a graceful restart, [delete k]
    succeeds and [read k] still answers abc, from the segment that Close
    wrote. *)
Theorem Get_reads_past_tombstone :
  let r := run_steps sample_clock tombstone_scenario (fresh tiny_config) in
  let s := run_steps sample_clock segment_tombstone_scenario
             (fresh tiny_config) in
  let t := run_steps sample_clock restart_tombstone_scenario
             (fresh default_config) in
  r.1 = ["success"; "success"; "success"; "abc"]
  /\ MemTable.data (Engine.memtable r.2) !! "k"
     = Some (mkEntry "k" (bytes "x") 1005 true)
  /\ MemTable.data <$> Engine.immutableMemtables r.2
     = [ {["k" := mkEntry "k" (bytes "abc") 1001 false]} ]
  /\ s.1 = ["success"; "success"; "success"; "success"; "abc"]
  /\ Engine.immutableMemtables s.2 = []
  /\ MemTable.data (Engine.memtable s.2) = ∅
  /\ (Compactor.readAllEntries (SST.dataDir (Engine.sstManager s.2)) <$>
        SST.sstables (Engine.sstManager s.2))
     = [ Ok [mkEntry "k" (bytes "x") 1005 true;
             mkEntry "z" (bytes "zz") 1007 false];
         Ok [mkEntry "k" (bytes "abc") 1001 false] ]
  /\ t.1 = ["success"; "success"; "abc"]
  /\ MemTable.data (Engine.memtable t.2) !! "k"
     = Some (mkEntry "k" (bytes "abc") 1002 true)
  /\ (Compactor.readAllEntries (SST.dataDir (Engine.sstManager t.2)) <$>
        SST.sstables (Engine.sstManager t.2))
     = [ Ok [mkEntry "k" (bytes "abc") 1001 false] ].
Proof. vm_compute. repeat split. Qed.

(** in general: a tombstone in the active memtable does not stop Get,
    which answers whatever the immutable memtables hold for the key *)
Lemma Get_past_active_tombstone (key : string) (e : Engine.Engine)
    (entry : Entry) (v : list byte) :
  MemTable.data (Engine.memtable e) !! key = Some entry ->
  Deleted entry = true ->
  Engine.Get_immutables (Engine.immutableMemtables e) key = Some v ->
  (Engine.Get key e).1 = Ok (Some v).
Proof.
  intros Hk Hdel Himm. unfold Engine.Get, MemTable.Get. simpl.
  rewrite Hk, Hdel, Himm. reflexivity.
Qed.

(** and a tombstone found in a segment does not stop SSTManager.Get, which
    goes on with the older segments *)
Lemma SST_Get_past_tombstone (dir : gmap Z (list byte)) (sst : SST.SSTable)
    (older : list SST.SSTable) (key : string) :
  String.ltb key (SST.MinKey sst) = false ->
  String.ltb (SST.MaxKey sst) key = false ->
  SST.getFromSST dir sst key = Ok None ->
  SST.Get_loop dir (sst :: older) key = SST.Get_loop dir older key.
Proof.
  intros Hmin Hmax Hget. cbn [SST.Get_loop].
  rewrite Hmin, Hmax, Hget. reflexivity.
Qed.

(** C2 fails on the code.  With a memtable limit of four bytes,
    [write k|abc] rotates the memtable, so the value of k lives in an
    immutable memtable (and, once the flusher has run, in a segment).
    [delete k] then finds the key, appends the delete record to the WAL and
    counts a delete, but MemTable.Delete on the fresh active memtable finds
    no entry to mark: no tombstone is created, the client is answered
    error, and k stays readable. *)
Theorem Delete_of_frozen_key_marks_nothing :
  let r := run_steps sample_clock delete_frozen_scenario (fresh tiny_config) in
  let s := run_steps sample_clock delete_flushed_scenario (fresh tiny_config) in
  r.1 = ["success"; "error"; "abc"]
  /\ MemTable.data (Engine.memtable r.2) = ∅
  /\ WAL.Replay (WAL.Sync (Engine.wal r.2))
     = Ok [WAL.mkWALEntry WAL.OpTypePut "k" (bytes "abc") 1000;
           WAL.mkWALEntry WAL.OpTypeDelete "k" [] 1002]
  /\ Engine.Deletes (Engine.stats r.2) = 1
  /\ s.1 = ["success"; "error"; "abc"]
  /\ MemTable.data (Engine.memtable s.2) = ∅
  /\ WAL.Replay (WAL.Sync (Engine.wal s.2))
     = Ok [WAL.mkWALEntry WAL.OpTypeDelete "k" [] 1002]
  /\ Engine.Deletes (Engine.stats s.2) = 1.
Proof. vm_compute. repeat split. Qed.

(** what Delete does when the value lives in the active memtable: the
    delete record goes to the WAL, the entry is marked, the answer is true *)
Lemma Delete_of_active_key (clock : nat -> Z) (key : string)
    (e : Engine.Engine) (entry : Entry) :
  MemTable.data (Engine.memtable e) !! key = Some entry ->
  Deleted entry = false ->
  let e' := (Engine.Delete clock key e).2 in
  let m' := MemTable.mkMemTable
              (<[key := mkEntry (Key entry) (Value entry)
                          (clock (S (Engine.ticks e))) true]>
                 (MemTable.data (Engine.memtable e)))
              (MemTable.size (Engine.memtable e))
              (MemTable.maxSize (Engine.memtable e)) in
  (Engine.Delete clock key e).1 = Ok true
  /\ WAL.contents (Engine.wal e')
     = WAL.contents (Engine.wal e)
       ++ WAL.encode (WAL.mkWALEntry WAL.OpTypeDelete key []
                        (clock (Engine.ticks e)))
  /\ (Engine.memtable e' = m'
      \/ Engine.immutableMemtables e' = Engine.immutableMemtables e ++ [m'])
  /\ Engine.Deletes (Engine.stats e')
     = int64 (Engine.Deletes (Engine.stats e) + 1).
Proof.
  intros Hk Hlive.
  assert (HG : Engine.Get key e
               = (Ok (Some (Value entry)),
                  Engine.set_stats e
                    (Engine.set_Reads (Engine.stats e)
                       (int64 (Engine.Reads (Engine.stats e) + 1))))).
  { unfold Engine.Get, MemTable.Get. simpl. rewrite Hk, Hlive. reflexivity. }
  unfold Engine.Delete. rewrite HG. unfold MemTable.Delete. simpl.
  rewrite Hk, Hlive. simpl.
  case_if;
    simpl; rewrite Append_contents; auto.
Qed.

(** in general: when the key has no entry in the active memtable and its
    value comes from an older layer, Delete logs the delete and counts it,
    leaves every memtable as it was, and returns false *)
Lemma Delete_of_key_below_active (clock : nat -> Z) (key : string)
    (e : Engine.Engine) (v : list byte) :
  MemTable.data (Engine.memtable e) !! key = None ->
  (Engine.Get key e).1 = Ok (Some v) ->
  MemTable.IsFull (Engine.memtable e) = false ->
  let e' := (Engine.Delete clock key e).2 in
  (Engine.Delete clock key e).1 = Ok false
  /\ Engine.memtable e' = Engine.memtable e
  /\ Engine.immutableMemtables e' = Engine.immutableMemtables e
  /\ WAL.contents (Engine.wal e')
     = WAL.contents (Engine.wal e)
       ++ WAL.encode (WAL.mkWALEntry WAL.OpTypeDelete key []
                        (clock (Engine.ticks e)))
  /\ Engine.Deletes (Engine.stats e')
     = int64 (Engine.Deletes (Engine.stats e) + 1).
Proof.
  intros Hk Hget Hfull. unfold Engine.Delete.
  pose proof (Get_state key e) as HG.
  destruct (Engine.Get key e) as [r e1]. simpl in Hget, HG. subst r e1.
  unfold MemTable.Delete. simpl. rewrite Hk, Hfull. simpl.
  rewrite Append_contents. auto.
Qed.

(** ** The statistics *)

(** every Delete counts one read: its existence probe is Engine.Get *)
Lemma Delete_counts_a_read (clock : nat -> Z) (key : string)
    (e : Engine.Engine) :
  Engine.Reads (Engine.stats (Engine.Delete clock key e).2)
  = int64 (Engine.Reads (Engine.stats e) + 1).
Proof.
  unfold Engine.Delete. pose proof (Get_state key e) as HG.
  destruct (Engine.Get key e) as [r e1]. simpl in HG. subst e1.
  destruct r as [[v|]|err]; [|reflexivity|reflexivity].
  destruct (MemTable.Delete _ _ _) as [deleted m].
  destruct (MemTable.IsFull m); reflexivity.
Qed.

(** C4 fails on the code.  From an empty engine, write k|v, read k,
    read k, delete k leaves writes=1, reads=3, deletes=1: the delete
    counts as a third read. *)
Theorem status_counts_the_delete_probe (clock : nat -> Z) :
  let r := run_steps clock status_scenario (fresh default_config) in
  r.1 = ["success"; "v"; "v"; "success";
         Server.status_line (Engine.mkStats 1 3 1 0 0 2 0 0 0)]
  /\ Engine.Writes (Engine.stats r.2) = 1
  /\ Engine.Reads (Engine.stats r.2) = 3
  /\ Engine.Deletes (Engine.stats r.2) = 1.
Proof. vm_compute. repeat split. Qed.

(** ** Deleting an absent key *)

(** C8.  When Get reports the key absent, Delete returns false and the
    client is answered error; no WAL record is written (the log, its buffer
    and its size are unchanged), no tombstone is created (the active and the
    immutable memtables are unchanged), the segments are unchanged.  The
    engine is left exactly as the existence probe left it: apart from the
    read counter, nothing changed. *)
Theorem Delete_of_absent_key (clock : nat -> Z) (key : string)
    (e : Engine.Engine) :
  (Engine.Get key e).1 = Ok None ->
  let r := Engine.Delete clock key e in
  r.1 = Ok false
  /\ (Server.executeCommand clock (Server.CmdDelete key) e).1 = "error"
  /\ Engine.wal r.2 = Engine.wal e
  /\ WAL.Size (Engine.wal r.2) = WAL.Size (Engine.wal e)
  /\ WAL.contents (Engine.wal r.2) = WAL.contents (Engine.wal e)
  /\ Engine.memtable r.2 = Engine.memtable e
  /\ Engine.immutableMemtables r.2 = Engine.immutableMemtables e
  /\ Engine.sstManager r.2 = Engine.sstManager e
  /\ Engine.ticks r.2 = Engine.ticks e
  /\ Engine.flushCh r.2 = Engine.flushCh e
  /\ Engine.Writes (Engine.stats r.2) = Engine.Writes (Engine.stats e)
  /\ Engine.Deletes (Engine.stats r.2) = Engine.Deletes (Engine.stats e)
  /\ Engine.Flushes (Engine.stats r.2) = Engine.Flushes (Engine.stats e)
  /\ r.2 = (Engine.Get key e).2.
Proof.
  intros Habs r. subst r. unfold Server.executeCommand, Engine.Delete.
  pose proof (Get_state key e) as HG.
  destruct (Engine.Get key e) as [res e1]. simpl in Habs, HG. subst res e1.
  simpl. repeat split.
Qed.

(* the theorem on a fresh engine, where k is absent *)
Lemma Delete_of_absent_key_witness :
  (Engine.Get "k" (fresh default_config)).1 = Ok None
  /\ (Engine.Delete sample_clock "k" (fresh default_config)).1 = Ok false
  /\ Engine.wal (Engine.Delete sample_clock "k" (fresh default_config)).2
     = Engine.wal (fresh default_config)
  /\ Engine.memtable (Engine.Delete sample_clock "k" (fresh default_config)).2
     = Engine.memtable (fresh default_config).
Proof.
  assert (H : (Engine.Get "k" (fresh default_config)).1 = Ok None)
    by reflexivity.
  pose proof (Delete_of_absent_key sample_clock "k" (fresh default_config) H)
    as (H1 & _ & H3 & _ & _ & H6 & _).
  exact (conj H (conj H1 (conj H3 H6))).
Defined.

(** ** Put: the key size limit and the two timestamps *)

Lemma len_key_of_size (n : nat) : len_string (key_of_size n) = Z.of_nat n.
Proof.
  unfold len_string. f_equal.
  induction n as [|n IH]; [reflexivity|]. cbn. now rewrite IH.
Qed.

(** what a Put of an accepted key does: one record appended to the WAL,
    stamped with the clock reading taken before the append; one entry put
    into the active memtable, stamped with the next clock reading; the
    memtable rotated when that made it full *)
Lemma Put_accepted (clock : nat -> Z) (key : string) (value : list byte)
    (e : Engine.Engine) :
  len_string key <= 100 * 1024 ->
  let e' := (Engine.Put clock key value e).2 in
  let m' := MemTable.Put (clock (S (Engine.ticks e))) key value
              (Engine.memtable e) in
  (Engine.Put clock key value e).1 = Ok tt
  /\ WAL.contents (Engine.wal e')
     = WAL.contents (Engine.wal e)
       ++ WAL.encode (WAL.mkWALEntry WAL.OpTypePut key value
                        (clock (Engine.ticks e)))
  /\ (Engine.memtable e' = m'
      \/ Engine.immutableMemtables e' = Engine.immutableMemtables e ++ [m'])
  /\ MemTable.data m' !! key
     = Some (mkEntry key value (clock (S (Engine.ticks e))) false)
  /\ Engine.ticks e' = S (S (Engine.ticks e))
  /\ Engine.Writes (Engine.stats e')
     = int64 (Engine.Writes (Engine.stats e) + 1).
Proof.
  intros Hlen e' m'. subst e'. unfold Engine.Put.
  destruct (Z.gtb_spec (len_string key) (100 * 1024)) as [Hgt|_]; [lia|].
  fold m'. cbn zeta.
  split; [reflexivity|].
  assert (Hm : MemTable.data m' !! key
               = Some (mkEntry key value (clock (S (Engine.ticks e))) false))
    by (subst m'; unfold MemTable.Put; simpl; apply lookup_insert_eq).
  destruct (MemTable.IsFull m'); simpl; rewrite Append_contents; auto 10.
Qed.

Lemma Put_rejected (clock : nat -> Z) (key : string) (value : list byte)
    (e : Engine.Engine) :
  len_string key > 100 * 1024 ->
  Engine.Put clock key value e
  = (Err (Errorf ("key too large: " +:+ pretty (len_string key)
                  +:+ " bytes (max 100KB)")), e).
Proof.
  intros Hlen. unfold Engine.Put.
  destruct (Z.gtb_spec (len_string key) (100 * 1024)) as [_|Hle];
    [reflexivity|lia].
Qed.

(** recover stamps the entries with its own clock readings: the timestamps
    stored in the log records play no part *)
Lemma recover_loop_ignores_timestamps (clock : nat -> Z) (ts : Z)
    (entries : list WAL.WALEntry) :
  forall (m : MemTable.MemTable) (t : nat),
    Engine.recover_loop clock (map (with_Timestamp ts) entries) m t
    = Engine.recover_loop clock entries m t.
Proof.
  induction entries as [|entry rest IH]; intros m t; [reflexivity|].
  cbn [map Engine.recover_loop with_Timestamp WAL.OpType WAL.Key WAL.Value].
  destruct (Byte.eqb (WAL.OpType entry) WAL.OpTypePut); [apply IH|].
  destruct (Byte.eqb (WAL.OpType entry) WAL.OpTypeDelete); [|apply IH].
  destruct (MemTable.Delete (clock t) (WAL.Key entry) m). apply IH.
Qed.

(** C6, as amended.  For every put the timestamp of the WAL record is the
    clock reading taken in Engine.Put before the append, and the timestamp
    of the MemStore entry is the next clock reading, taken in MemTable.Put;
    the two are equal exactly when the clock returned the same value twice.
    Replay does not use the logged timestamps: recover stamps every entry
    with a fresh clock reading, in log order. *)
Theorem Put_stamps_two_clock_readings (clock : nat -> Z) (key : string)
    (value : list byte) (e : Engine.Engine) :
  len_string key <= 100 * 1024 ->
  let e' := (Engine.Put clock key value e).2 in
  let m' := MemTable.Put (clock (S (Engine.ticks e))) key value
              (Engine.memtable e) in
  WAL.contents (Engine.wal e')
  = WAL.contents (Engine.wal e)
    ++ WAL.encode (WAL.mkWALEntry WAL.OpTypePut key value
                     (clock (Engine.ticks e)))
  /\ (Engine.memtable e' = m'
      \/ Engine.immutableMemtables e' = Engine.immutableMemtables e ++ [m'])
  /\ (exists entry, MemTable.data m' !! key = Some entry
        /\ Timestamp entry = clock (S (Engine.ticks e))
        /\ (Timestamp entry = clock (Engine.ticks e)
            <-> clock (S (Engine.ticks e)) = clock (Engine.ticks e)))
  /\ (forall (ts : Z) (entries : list WAL.WALEntry) (m : MemTable.MemTable)
        (t : nat),
        Engine.recover_loop clock (map (with_Timestamp ts) entries) m t
        = Engine.recover_loop clock entries m t).
Proof.
  intros Hlen e' m'.
  destruct (Put_accepted clock key value e Hlen) as (_ & H2 & H3 & H4 & _).
  split; [exact H2|]. split; [exact H3|]. split.
  - eexists. split; [exact H4|]. simpl. split; [reflexivity|]. tauto.
  - intros ts entries m t. apply recover_loop_ignores_timestamps.
Qed.

(* the theorem on [write k|v] at a fresh engine *)
Lemma Put_stamps_two_clock_readings_witness :
  len_string "k" <= 100 * 1024
  /\ WAL.contents
       (Engine.wal (Engine.Put sample_clock "k" (bytes "v")
                      (fresh default_config)).2)
     = WAL.contents (Engine.wal (fresh default_config))
       ++ WAL.encode (WAL.mkWALEntry WAL.OpTypePut "k" (bytes "v")
                        (sample_clock 0)).
Proof.
  assert (H : len_string "k" <= 100 * 1024) by (vm_compute; discriminate).
  pose proof (Put_stamps_two_clock_readings sample_clock "k" (bytes "v")
                (fresh default_config) H) as (H1 & _).
  exact (conj H H1).
Defined.

(** C6 fails on the code: with a clock that advances by one nanosecond
    between two reads, [write k|v] logs the timestamp 1000 and stamps the
    MemStore entry with 1001. *)
Lemma Put_timestamps_differ :
  let e := (Engine.Put sample_clock "k" (bytes "v") (fresh default_config)).2 in
  WAL.Replay (WAL.Sync (Engine.wal e))
  = Ok [WAL.mkWALEntry WAL.OpTypePut "k" (bytes "v") 1000]
  /\ MemTable.data (Engine.memtable e) !! "k"
     = Some (mkEntry "k" (bytes "v") 1001 false)
  /\ ~ (forall w m, WAL.Replay (WAL.Sync (Engine.wal e)) = Ok [w] ->
          MemTable.data (Engine.memtable e) !! "k" = Some m ->
          WAL.Timestamp w = Timestamp m).
Proof.
  cbn zeta.
  assert (Hw : WAL.Replay (WAL.Sync (Engine.wal
                 (Engine.Put sample_clock "k" (bytes "v")
                    (fresh default_config)).2))
               = Ok [WAL.mkWALEntry WAL.OpTypePut "k" (bytes "v") 1000])
    by (vm_compute; reflexivity).
  assert (Hm : MemTable.data (Engine.memtable
                 (Engine.Put sample_clock "k" (bytes "v")
                    (fresh default_config)).2) !! "k"
               = Some (mkEntry "k" (bytes "v") 1001 false))
    by (vm_compute; reflexivity).
  split; [exact Hw|]. split; [exact Hm|].
  intros H. specialize (H _ _ Hw Hm). discriminate H.
Qed.

(** ** Key validation *)

Lemma in_class_above (ch : Z) : 123 <= ch -> Protocol.in_class ch = false.
Proof.
  intros H. unfold Protocol.in_class.
  repeat match goal with
    | |- context [?a <=? ?b] => destruct (Z.leb_spec a b)
    | |- context [?a =? ?b] => destruct (Z.eqb_spec a b)
    end; simpl; try lia; reflexivity.
Qed.

(* a rune that takes more than one byte, or stands for an invalid byte, is
   outside the class *)
Lemma decoderune_outside_class (s : list Z) :
  Protocol.in_class (Protocol.decoderune s).1 = false.
Proof.
  unfold Protocol.decoderune. cbn zeta.
  repeat match goal with
    | |- context [if ?c then _ else _] =>
        let H := fresh "H" in destruct c eqn:H
    end; try reflexivity; cbn [fst];
    rewrite ?andb_true_iff in *;
    apply in_class_above;
    repeat match goal with H : _ /\ _ |- _ => destruct H end;
    repeat match goal with H : (_ <? _) = true |- _ =>
             apply Z.ltb_lt in H end;
    lia.
Qed.

Lemma runes_class (fuel : nat) :
  forall s : list Z,
    (length s <= fuel)%nat ->
    forallb Protocol.in_class (Protocol.runes fuel s)
    = forallb Protocol.in_class s.
Proof.
  induction fuel as [|fuel IH]; intros [|b t] Hlen; try reflexivity.
  - cbn in Hlen. lia.
  - cbn [Protocol.runes].
    destruct (Z.ltb_spec b 0x80) as [Hb|Hb].
    + cbn [forallb]. rewrite IH by (cbn in Hlen; lia). reflexivity.
    + pose proof (decoderune_outside_class (b :: t)) as Hr.
      destruct (Protocol.decoderune (b :: t)) as [r width].
      cbn [fst] in Hr. cbn [forallb].
      rewrite Hr, in_class_above by lia. reflexivity.
Qed.

(** isValidKey accepts exactly the non-empty keys whose bytes are all in
    the class *)
Lemma isValidKey_bytes (key : string) :
  Protocol.isValidKey key
  = negb (String.length key =? 0)%nat
    && forallb Protocol.in_class (Protocol.bytes_of key).
Proof.
  unfold Protocol.isValidKey.
  destruct (String.length key =? 0)%nat eqn:E; [reflexivity|].
  apply runes_class. unfold Protocol.bytes_of.
  rewrite length_map, length_list_byte_of_string. lia.
Qed.

(** C5, as amended.  Engine.Put validates the size of the key only: a key
    of at most 100 KiB that contains a character outside
    [A-Za-z0-9.\-:_] is accepted, logged and stored (a key over 100 KiB is
    rejected, see [Put_rejected]).  The character class is checked by
    isValidKey, which the command parser applies: it returns false for
    every key containing a character outside the class. *)
Theorem Put_validates_only_the_key_size (clock : nat -> Z) (key : string)
    (value : list byte) (e : Engine.Engine) (ch : Z) :
  In ch (Protocol.bytes_of key) -> Protocol.in_class ch = false ->
  len_string key <= 100 * 1024 ->
  let e' := (Engine.Put clock key value e).2 in
  let m' := MemTable.Put (clock (S (Engine.ticks e))) key value
              (Engine.memtable e) in
  Protocol.isValidKey key = false
  /\ (Engine.Put clock key value e).1 = Ok tt
  /\ WAL.contents (Engine.wal e')
     = WAL.contents (Engine.wal e)
       ++ WAL.encode (WAL.mkWALEntry WAL.OpTypePut key value
                        (clock (Engine.ticks e)))
  /\ (Engine.memtable e' = m'
      \/ Engine.immutableMemtables e' = Engine.immutableMemtables e ++ [m'])
  /\ MemTable.Get key m' = Some value.
Proof.
  intros Hin Hch Hlen e' m'.
  destruct (Put_accepted clock key value e Hlen) as (H1 & H2 & H3 & H4 & _).
  split.
  { rewrite isValidKey_bytes. apply andb_false_iff. right.
    apply not_true_iff_false. intros Hall.
    rewrite forallb_forall in Hall. rewrite (Hall ch Hin) in Hch.
    discriminate Hch. }
  split; [exact H1|]. split; [exact H2|]. split; [exact H3|].
  subst m'. unfold MemTable.Get. rewrite H4. reflexivity.
Qed.

(* the theorem on the key "a b", whose second byte is a space *)
Lemma Put_validates_only_the_key_size_witness :
  In 32 (Protocol.bytes_of "a b") /\ Protocol.in_class 32 = false
  /\ len_string "a b" <= 100 * 1024
  /\ Protocol.isValidKey "a b" = false
  /\ (Engine.Put sample_clock "a b" (bytes "v") (fresh default_config)).1
     = Ok tt.
Proof.
  assert (Hin : In 32 (Protocol.bytes_of "a b"))
    by (right; left; reflexivity).
  assert (Hch : Protocol.in_class 32 = false) by reflexivity.
  assert (Hlen : len_string "a b" <= 100 * 1024)
    by (vm_compute; discriminate).
  pose proof (Put_validates_only_the_key_size sample_clock "a b" (bytes "v")
                (fresh default_config) 32 Hin Hch Hlen) as (H1 & H2 & _).
  exact (conj Hin (conj Hch (conj Hlen (conj H1 H2)))).
Defined.

(** C5 fails on the code: the key "a b" contains a space, which is outside
    the class, and Engine.Put returns no error, logs the write and stores
    the value. *)
Lemma Put_accepts_key_outside_class :
  Protocol.isValidKey "a b" = false
  /\ is_Ok (Engine.Put sample_clock "a b" (bytes "v")
             (fresh default_config)).1 = true
  /\ (Engine.Put sample_clock "a b" (bytes "v") (fresh default_config)).1
     = Ok tt
  /\ (Engine.Get "a b"
        (Engine.Put sample_clock "a b" (bytes "v")
           (fresh default_config)).2).1
     = Ok (Some (bytes "v")).
Proof. vm_compute. repeat split. Qed.

(** ** Prefix scan *)

Lemma string_of_list_byte_inj (v w : list byte) :
  string_of_list_byte v = string_of_list_byte w -> v = w.
Proof.
  intros H. apply (f_equal list_byte_of_string) in H.
  now rewrite !list_byte_of_string_of_list_byte in H.
Qed.

Lemma keyed_by_contents_insert (valueMap : gmap string (list byte))
    (value : list byte) :
  keyed_by_contents valueMap ->
  keyed_by_contents (<[string_of_list_byte value := value]> valueMap).
Proof.
  intros Hinv s v. rewrite lookup_insert. case_decide as Hs.
  - intros [= <-]. symmetry. exact Hs.
  - apply Hinv.
Qed.

Lemma collect_keyed_by_contents (values : list (list byte)) :
  forall valueMap, keyed_by_contents valueMap ->
                   keyed_by_contents (collect valueMap values).
Proof.
  induction values as [|value rest IH]; intros valueMap Hinv; [exact Hinv|].
  apply IH, keyed_by_contents_insert, Hinv.
Qed.

Lemma collect_lookup (values : list (list byte)) :
  forall valueMap v,
    keyed_by_contents valueMap ->
    In v values \/ valueMap !! string_of_list_byte v = Some v ->
    collect valueMap values !! string_of_list_byte v = Some v.
Proof.
  induction values as [|value rest IH]; intros valueMap v Hinv Hv.
  - destruct Hv as [[]|Hv]. exact Hv.
  - cbn [collect foldl]. apply IH; [apply keyed_by_contents_insert, Hinv|].
    destruct Hv as [[->|Hin]|Hv].
    + right. apply lookup_insert_eq.
    + left. exact Hin.
    + right. rewrite lookup_insert. case_decide as Hs; [|exact Hv].
      f_equal. apply string_of_list_byte_inj, Hs.
Qed.

Lemma keyed_by_contents_NoDup (valueMap : gmap string (list byte)) :
  keyed_by_contents valueMap -> NoDup (map snd (map_to_list valueMap)).
Proof.
  intros Hinv. change (NoDup (snd <$> map_to_list valueMap)).
  apply NoDup_fmap_2_strong; [|apply NoDup_map_to_list].
  intros [s v] [s' v'] H H' Heq. cbn in Heq. subst v'.
  apply elem_of_map_to_list in H, H'.
  now rewrite (Hinv _ _ H), (Hinv _ _ H').
Qed.

Lemma MemTable_PrefixScan_In (prefix key : string) (m : MemTable.MemTable)
    (entry : Entry) :
  MemTable.data m !! key = Some entry -> Deleted entry = false ->
  MemTable.has_prefix prefix key = true ->
  In (Value entry) (MemTable.PrefixScan prefix m).
Proof.
  intros Hk Hlive Hp. unfold MemTable.PrefixScan.
  apply (in_map (fun kv : string * Entry => Value kv.2) _ (key, entry)).
  apply list_elem_of_In, list_elem_of_filter. split.
  - cbn. now rewrite Hlive, Hp.
  - apply elem_of_map_to_list, Hk.
Qed.

(** the values PrefixScan returns are pairwise different *)
Lemma PrefixScan_NoDup (prefix : string) (e : Engine.Engine) :
  NoDup (Engine.PrefixScan prefix e).
Proof.
  unfold Engine.PrefixScan.
  apply keyed_by_contents_NoDup, (collect_keyed_by_contents _ ∅).
  intros s v H. rewrite lookup_empty in H. discriminate H.
Qed.

Lemma PrefixScan_In (prefix key : string) (e : Engine.Engine)
    (m : MemTable.MemTable) (entry : Entry) :
  In m (Engine.memtable e :: Engine.immutableMemtables e) ->
  MemTable.data m !! key = Some entry -> Deleted entry = false ->
  MemTable.has_prefix prefix key = true ->
  In (Value entry) (Engine.PrefixScan prefix e).
Proof.
  intros Hm Hk Hlive Hp. unfold Engine.PrefixScan.
  apply (in_map snd _ (string_of_list_byte (Value entry), Value entry)).
  apply list_elem_of_In, elem_of_map_to_list.
  apply (collect_lookup _ ∅).
  { intros s v H. rewrite lookup_empty in H. discriminate H. }
  left. apply in_app_iff.
  pose proof (MemTable_PrefixScan_In prefix key m entry Hk Hlive Hp) as Hin.
  destruct Hm as [<-|Hm]; [left; exact Hin|right].
  apply in_concat. exists (MemTable.PrefixScan prefix m).
  split; [apply in_map, Hm|exact Hin].
Qed.

(** C10.  PrefixScan deduplicates by value content: when two distinct
    live keys matching the prefix, in one memtable or in two (active or
    immutable), are bound to the same bytes, the result holds that value,
    and holds it once. *)
Theorem PrefixScan_deduplicates_by_value (prefix k1 k2 : string)
    (e : Engine.Engine) (m1 m2 : MemTable.MemTable) (e1 e2 : Entry) :
  k1 <> k2 ->
  In m1 (Engine.memtable e :: Engine.immutableMemtables e) ->
  In m2 (Engine.memtable e :: Engine.immutableMemtables e) ->
  MemTable.data m1 !! k1 = Some e1 -> MemTable.data m2 !! k2 = Some e2 ->
  Deleted e1 = false -> Deleted e2 = false ->
  MemTable.has_prefix prefix k1 = true ->
  MemTable.has_prefix prefix k2 = true ->
  Value e1 = Value e2 ->
  exists before after,
    Engine.PrefixScan prefix e = before ++ Value e1 :: after
    /\ ~ In (Value e1) before /\ ~ In (Value e1) after
    /\ NoDup (Engine.PrefixScan prefix e).
Proof.
  intros _ Hm1 _ Hk1 _ Hl1 _ Hp1 _ _.
  pose proof (PrefixScan_NoDup prefix e) as Hnd.
  destruct (in_split _ _ (PrefixScan_In prefix k1 e m1 e1 Hm1 Hk1 Hl1 Hp1))
    as (before & after & Heq).
  exists before, after. split; [exact Heq|].
  pose proof Hnd as Hnd'. rewrite Heq in Hnd'.
  apply NoDup_app in Hnd' as (_ & Hdisj & Hc).
  apply NoDup_cons in Hc as (Hnot & _).
  split; [|split; [|exact Hnd]].
  - intros Hin. apply (Hdisj (Value e1)); [apply list_elem_of_In, Hin|].
    apply list_elem_of_In. left. reflexivity.
  - intros Hin. apply Hnot, list_elem_of_In, Hin.
Qed.

(* the theorem on user:a and user:b, both bound to A *)
Lemma PrefixScan_deduplicates_by_value_witness :
  "user:a" <> "user:b"
  /\ MemTable.data (Engine.memtable twins) !! "user:a"
     = Some (mkEntry "user:a" (bytes "A") 1001 false)
  /\ MemTable.data (Engine.memtable twins) !! "user:b"
     = Some (mkEntry "user:b" (bytes "A") 1003 false)
  /\ Engine.PrefixScan "user:" twins = [bytes "A"]
  /\ exists before after,
       Engine.PrefixScan "user:" twins = before ++ bytes "A" :: after
       /\ ~ In (bytes "A") before /\ ~ In (bytes "A") after
       /\ NoDup (Engine.PrefixScan "user:" twins).
Proof.
  assert (Hne : "user:a" <> "user:b") by discriminate.
  assert (Ha : MemTable.data (Engine.memtable twins) !! "user:a"
               = Some (mkEntry "user:a" (bytes "A") 1001 false))
    by (vm_compute; reflexivity).
  assert (Hb : MemTable.data (Engine.memtable twins) !! "user:b"
               = Some (mkEntry "user:b" (bytes "A") 1003 false))
    by (vm_compute; reflexivity).
  split; [exact Hne|]. split; [exact Ha|]. split; [exact Hb|].
  split; [vm_compute; reflexivity|].
  exact (PrefixScan_deduplicates_by_value "user:" "user:a" "user:b" twins
           (Engine.memtable twins) (Engine.memtable twins) _ _
           Hne (or_introl eq_refl) (or_introl eq_refl) Ha Hb
           eq_refl eq_refl eq_refl eq_refl eq_refl).
Defined.

(** ** Segment files *)

Lemma SST_read_record (e : Entry) (rest : list byte) :
  Entry_wf e ->
  IO.Read_int64 (SST.encode e ++ rest)
  = Ok (Timestamp e,
        [if Deleted e then Byte.x01 else Byte.x00]
        ++ IO.Write_uint32 (uint32 (len_string (Key e)))
        ++ list_byte_of_string (Key e)
        ++ IO.Write_uint32 (uint32 (len_bytes (Value e)))
        ++ Value e ++ rest)
  /\ SST.read_rest (Timestamp e)
       ([if Deleted e then Byte.x01 else Byte.x00]
        ++ IO.Write_uint32 (uint32 (len_string (Key e)))
        ++ list_byte_of_string (Key e)
        ++ IO.Write_uint32 (uint32 (len_bytes (Value e)))
        ++ Value e ++ rest)
     = Ok (e, rest).
Proof.
  intros (Hts & Hk & Hv). split.
  - unfold SST.encode. rewrite <- !app_assoc.
    apply Read_int64_app, Hts.
  - unfold SST.read_rest, IO.bind. cbn [app IO.ReadByte].
    rewrite Read_uint32_app.
    rewrite ReadFull_app
      by (rewrite key_length_nat by exact Hk;
          apply length_list_byte_of_string).
    rewrite Read_uint32_app.
    rewrite ReadFull_app
      by (rewrite value_length_nat by exact Hv; reflexivity).
    unfold IO.ret. rewrite string_of_list_byte_of_string.
    destruct e as [k v ts []]; reflexivity.
Qed.

Lemma readAllEntries_loop_record (e : Entry) (r : list byte)
    (acc : list Entry) (fuel : nat) :
  Entry_wf e ->
  Compactor.readAllEntries_loop (S fuel) (SST.encode e ++ r) acc
  = Compactor.readAllEntries_loop fuel r (acc ++ [e]).
Proof.
  intros Hwf. destruct (SST_read_record e r Hwf) as [H1 H2].
  cbn [Compactor.readAllEntries_loop]. rewrite H1, H2. reflexivity.
Qed.

Lemma readAllEntries_loop_records (es : list Entry) :
  Forall Entry_wf es ->
  forall (r : list byte) (acc : list Entry) (fuel : nat),
    Compactor.readAllEntries_loop (length es + fuel)
      (concat (map SST.encode es) ++ r) acc
    = Compactor.readAllEntries_loop fuel r (acc ++ es).
Proof.
  induction 1 as [|e es Hwf _ IH]; intros r acc fuel.
  - cbn. rewrite app_nil_r. reflexivity.
  - cbn [length map concat Nat.add]. rewrite <- app_assoc.
    rewrite readAllEntries_loop_record by exact Hwf.
    rewrite IH, <- app_assoc. reflexivity.
Qed.

Lemma SST_encode_length (e : Entry) : (1 <= length (SST.encode e))%nat.
Proof.
  unfold SST.encode, IO.Write_int64. rewrite length_app, length_le_split. lia.
Qed.

Lemma SST_file_length (es : list Entry) :
  (length es <= length (concat (map SST.encode es)))%nat.
Proof.
  induction es as [|e es IH]; [reflexivity|].
  cbn [length map concat]. rewrite length_app.
  pose proof (SST_encode_length e). lia.
Qed.

(** a segment file made of whole records reads back as these records *)
Lemma readAllEntries_encoded (dir : gmap Z (list byte)) (sst : SST.SSTable)
    (es : list Entry) :
  Forall Entry_wf es ->
  dir !! SST.FilePath sst = Some (concat (map SST.encode es)) ->
  Compactor.readAllEntries dir sst = Ok es.
Proof.
  intros Hwf Hf. unfold Compactor.readAllEntries. rewrite Hf.
  pose proof (SST_file_length es) as Hlen.
  set (f := concat (map SST.encode es)) in *.
  replace (S (length f)) with (length es + S (length f - length es))%nat
    by lia.
  rewrite <- (app_nil_r f) at 2. subst f.
  rewrite readAllEntries_loop_records by exact Hwf. reflexivity.
Qed.

Lemma Flush_loop_bytes (entries : list Entry) :
  forall (i : nat) (offset : Z) (index : gmap string Z),
    (SST.Flush_loop i offset index entries).1.1
    = concat (map SST.encode entries).
Proof.
  induction entries as [|entry rest IH]; intros i offset index;
    [reflexivity|].
  cbn [SST.Flush_loop map concat]. cbn zeta.
  match goal with |- context [SST.Flush_loop ?a ?b ?c rest] =>
    specialize (IH a b c); destruct (SST.Flush_loop a b c rest) as [[bs o] ix]
  end.
  cbn in *. now rewrite IH.
Qed.

(** *** Records read from a file are well formed *)

Lemma int64_range (z : Z) : - 2 ^ 63 <= int64 z < 2 ^ 63.
Proof.
  unfold int64. pose proof (Z.mod_pos_bound (z + 2 ^ 63) (2 ^ 64)). lia.
Qed.

Lemma ReadFull_length (n : nat) (r bs r' : list byte) :
  IO.ReadFull n r = Ok (bs, r') -> length bs = n.
Proof.
  unfold IO.ReadFull.
  destruct (Nat.eqb_spec n 0) as [->|_]; [intros [= <- _]; reflexivity|].
  destruct (length r =? 0)%nat; [discriminate|].
  destruct (Nat.ltb_spec (length r) n); [discriminate|].
  intros [= <- _]. rewrite length_take. lia.
Qed.

Lemma Read_uint32_range (r r' : list byte) (n : Z) :
  IO.Read_uint32 r = Ok (n, r') -> 0 <= n < 2 ^ 32.
Proof.
  unfold IO.Read_uint32, IO.bind, IO.ret.
  destruct (IO.ReadFull 4 r) as [[bs r1]|] eqn:E; [|discriminate].
  intros [= <- _]. apply ReadFull_length in E.
  pose proof (le_combine_bound bs) as H. rewrite E in H. exact H.
Qed.

Lemma length_string_of_list_byte (bs : list byte) :
  String.length (string_of_list_byte bs) = length bs.
Proof.
  rewrite <- length_list_byte_of_string.
  now rewrite list_byte_of_string_of_list_byte.
Qed.

Lemma SST_read_rest_wf (ts : Z) (r r' : list byte) (e : Entry) :
  - 2 ^ 63 <= ts < 2 ^ 63 ->
  SST.read_rest ts r = Ok (e, r') -> Entry_wf e.
Proof.
  intros Hts. unfold SST.read_rest, IO.bind, IO.ret.
  destruct (IO.ReadByte r) as [[deleted r1]|]; [|discriminate].
  destruct (IO.Read_uint32 r1) as [[keyLen r2]|] eqn:E1; [|discriminate].
  destruct (IO.ReadFull (Z.to_nat keyLen) r2) as [[keyBytes r3]|] eqn:E2;
    [|discriminate].
  destruct (IO.Read_uint32 r3) as [[valueLen r4]|] eqn:E3; [|discriminate].
  destruct (IO.ReadFull (Z.to_nat valueLen) r4) as [[valueBytes r5]|] eqn:E4;
    [|discriminate].
  intros [= <- _]. apply Read_uint32_range in E1, E3.
  apply ReadFull_length in E2, E4.
  unfold Entry_wf, len_string, len_bytes. cbn.
  rewrite length_string_of_list_byte. lia.
Qed.

Lemma readAllEntries_loop_wf (fuel : nat) :
  forall (r : list byte) (acc es : list Entry),
    Forall Entry_wf acc ->
    Compactor.readAllEntries_loop fuel r acc = Ok es -> Forall Entry_wf es.
Proof.
  induction fuel as [|fuel IH]; intros r acc es Hacc.
  - intros [= <-]. exact Hacc.
  - cbn [Compactor.readAllEntries_loop].
    unfold IO.Read_int64 at 1, IO.bind, IO.ret.
    destruct (IO.ReadFull 8 r) as [[bs r1]|[]];
      try discriminate; [|intros [= <-]; exact Hacc].
    destruct (SST.read_rest _ r1) as [[entry r2]|] eqn:E; [|discriminate].
    apply IH. apply Forall_app. split; [exact Hacc|].
    constructor; [|constructor].
    exact (SST_read_rest_wf _ _ _ _ (int64_range _) E).
Qed.

Lemma readAllEntries_wf (dir : gmap Z (list byte)) (sst : SST.SSTable)
    (es : list Entry) :
  Compactor.readAllEntries dir sst = Ok es -> Forall Entry_wf es.
Proof.
  unfold Compactor.readAllEntries.
  destruct (dir !! SST.FilePath sst); [|discriminate].
  apply readAllEntries_loop_wf. constructor.
Qed.

(** ** Merging *)

Lemma newest_of_snoc_old (all : list Entry) (e x : Entry) :
  newest_of all e -> (Key x = Key e -> Timestamp x <= Timestamp e) ->
  newest_of (all ++ [x]) e.
Proof.
  intros [Hin Hmax] Hx. split; [apply in_app_iff; left; exact Hin|].
  intros e' Hin' Hk. apply in_app_iff in Hin' as [Hin'|[<-|[]]].
  - apply Hmax; assumption.
  - apply Hx, Hk.
Qed.

Lemma newest_of_snoc_new (all : list Entry) (x : Entry) :
  (forall e', In e' all -> Key e' = Key x -> Timestamp e' <= Timestamp x) ->
  newest_of (all ++ [x]) x.
Proof.
  intros Hmax. split; [apply in_app_iff; right; left; reflexivity|].
  intros e' Hin' Hk. apply in_app_iff in Hin' as [Hin'|[<-|[]]].
  - apply Hmax; assumption.
  - lia.
Qed.

Lemma merge_entry_merged_from (all : list Entry)
    (entryMap : gmap string Entry) (x : Entry) :
  merged_from all entryMap ->
  merged_from (all ++ [x]) (Compactor.merge_entry entryMap x).
Proof.
  intros [Hnew Hcov]. unfold Compactor.merge_entry.
  destruct (entryMap !! Key x) as [existing|] eqn:Hx.
  - destruct (Hnew _ _ Hx) as [Hkey [Hin Hmax]].
    destruct (Z.gtb_spec (Timestamp x) (Timestamp existing)) as [Hgt|Hle].
    + split.
      * intros k e. rewrite lookup_insert. case_decide as Hk.
        -- intros [= <-]. split; [exact Hk|].
           apply newest_of_snoc_new. intros e' Hin' Hk'.
           assert (Timestamp e' <= Timestamp existing)
             by (apply Hmax; [exact Hin'|congruence]).
           lia.
        -- intros He. destruct (Hnew _ _ He) as [Hke Hne].
           split; [exact Hke|]. apply newest_of_snoc_old; [exact Hne|].
           intros Hkx. congruence.
      * intros e Hin'. rewrite lookup_insert. case_decide; [eauto|].
        apply in_app_iff in Hin' as [Hin'|[<-|[]]]; [apply Hcov, Hin'|].
        congruence.
    + split.
      * intros k e He. destruct (Hnew _ _ He) as [Hke Hne].
        split; [exact Hke|]. apply newest_of_snoc_old; [exact Hne|].
        intros Hkx.
        assert (e = existing) by congruence. subst e. exact Hle.
      * intros e Hin'.
        apply in_app_iff in Hin' as [Hin'|[<-|[]]]; [apply Hcov, Hin'|].
        rewrite Hx. eauto.
  - split.
    + intros k e. rewrite lookup_insert. case_decide as Hk.
      * intros [= <-]. split; [exact Hk|].
        apply newest_of_snoc_new. intros e' Hin' Hk'.
        destruct (Hcov _ Hin') as [y Hy]. rewrite Hk', Hx in Hy.
        discriminate Hy.
      * intros He. destruct (Hnew _ _ He) as [Hke Hne].
        split; [exact Hke|]. apply newest_of_snoc_old; [exact Hne|].
        intros Hkx. congruence.
    + intros e Hin'. rewrite lookup_insert. case_decide; [eauto|].
      apply in_app_iff in Hin' as [Hin'|[<-|[]]]; [apply Hcov, Hin'|].
      congruence.
Qed.

Lemma foldl_merge_entry_merged_from (es : list Entry) :
  forall (all : list Entry) (entryMap : gmap string Entry),
    merged_from all entryMap ->
    merged_from (all ++ es) (foldl Compactor.merge_entry entryMap es).
Proof.
  induction es as [|x es IH]; intros all entryMap Hinv.
  - rewrite app_nil_r. exact Hinv.
  - cbn [foldl]. replace (all ++ x :: es) with ((all ++ [x]) ++ es)
      by (rewrite <- app_assoc; reflexivity).
    apply IH, merge_entry_merged_from, Hinv.
Qed.

Lemma merged_from_empty : merged_from [] ∅.
Proof.
  split.
  - intros k e H. rewrite lookup_empty in H. discriminate H.
  - intros e [].
Qed.

(** the loop of mergeSSTs, when every file can be read *)
Lemma mergeSSTs_loop_read (dir : gmap Z (list byte))
    (tables : list SST.SSTable) (ess : list (list Entry)) :
  Forall2 (fun s es => Compactor.readAllEntries dir s = Ok es) tables ess ->
  forall entryMap,
    Compactor.mergeSSTs_loop dir tables entryMap
    = Ok (foldl Compactor.merge_entry entryMap (concat ess)).
Proof.
  induction 1 as [|s es tables ess Hs _ IH]; intros entryMap; [reflexivity|].
  cbn [Compactor.mergeSSTs_loop concat]. rewrite Hs, IH, foldl_app.
  reflexivity.
Qed.

(** *** sort.Slice keeps the records *)

Lemma insert_by_Permutation {A} (less : A -> A -> bool) (x : A)
    (l : list A) : insert_by less x l ≡ₚ x :: l.
Proof.
  induction l as [|y l IH]; [reflexivity|].
  cbn [insert_by]. destruct (less y x); [|reflexivity].
  rewrite IH. apply Permutation_swap.
Qed.

Lemma sort_by_Permutation {A} (less : A -> A -> bool) (l : list A) :
  sort_by less l ≡ₚ l.
Proof.
  induction l as [|x l IH]; [reflexivity|].
  unfold sort_by in *. cbn [foldr].
  rewrite insert_by_Permutation, IH. reflexivity.
Qed.

Lemma merged_from_values_NoDup (all : list Entry)
    (entryMap : gmap string Entry) :
  merged_from all entryMap ->
  NoDup (map Key (filter (fun entry => Deleted entry = false)
                         (map snd (map_to_list entryMap)))).
Proof.
  intros [Hnew _].
  assert (Hin : forall e, e ∈ map snd (map_to_list entryMap) ->
                          entryMap !! Key e = Some e).
  { intros e He. change (e ∈ snd <$> map_to_list entryMap) in He.
    apply list_elem_of_fmap in He as ([k e'] & -> & He).
    apply elem_of_map_to_list in He. cbn.
    destruct (Hnew _ _ He) as [-> _]. exact He. }
  change (NoDup (Key <$> filter (fun entry => Deleted entry = false)
                          (snd <$> map_to_list entryMap))).
  apply NoDup_fmap_2_strong.
  - intros e e' He He' Hk.
    apply list_elem_of_filter in He as [_ He], He' as [_ He'].
    apply Hin in He, He'. rewrite Hk in He. congruence.
  - apply NoDup_filter, NoDup_fmap_2_strong; [|apply NoDup_map_to_list].
    intros [k e] [k' e'] He He' Heq. cbn in Heq. subst e'.
    apply elem_of_map_to_list in He, He'.
    destruct (Hnew _ _ He) as [<- _], (Hnew _ _ He') as [<- _]. reflexivity.
Qed.

(** what mergeSSTs returns when every file can be read: live records only,
    each the newest of its key, one record for a key, and a record for every
    key whose newest record is not a tombstone *)
Lemma mergeSSTs_read (dir : gmap Z (list byte)) (tables : list SST.SSTable)
    (ess : list (list Entry)) :
  Forall2 (fun s es => Compactor.readAllEntries dir s = Ok es) tables ess ->
  exists merged,
    Compactor.mergeSSTs dir tables = Ok merged
    /\ (forall e, In e merged ->
          Deleted e = false /\ newest_of (concat ess) e)
    /\ NoDup (map Key merged)
    /\ (forall e, In e (concat ess) ->
          (exists e', In e' merged /\ Key e' = Key e)
          \/ (exists t, newest_of (concat ess) t /\ Key t = Key e
                /\ Deleted t = true))
    /\ Forall Entry_wf merged.
Proof.
  intros Hread. unfold Compactor.mergeSSTs.
  rewrite (mergeSSTs_loop_read dir tables ess Hread).
  set (entryMap := foldl Compactor.merge_entry ∅ (concat ess)).
  assert (Hinv : merged_from (concat ess) entryMap)
    by (apply (foldl_merge_entry_merged_from _ [] ∅), merged_from_empty).
  set (live := filter (fun entry => Deleted entry = false)
                      (map snd (map_to_list entryMap))).
  assert (Hlive : forall e, In e live <->
                            Deleted e = false /\ entryMap !! Key e = Some e).
  { intros e. subst live. rewrite <- list_elem_of_In, list_elem_of_filter.
    change (map snd (map_to_list entryMap))
      with (snd <$> map_to_list entryMap).
    rewrite list_elem_of_fmap. split.
    - intros (Hd & [k e'] & -> & He). split; [exact Hd|].
      apply elem_of_map_to_list in He. cbn.
      destruct (proj1 Hinv _ _ He) as [-> _]. exact He.
    - intros (Hd & He). split; [exact Hd|].
      exists (Key e, e). split; [reflexivity|].
      apply elem_of_map_to_list, He. }
  assert (Hperm : sort_by key_less live ≡ₚ live) by apply sort_by_Permutation.
  assert (Hall : Forall Entry_wf (concat ess)).
  { clear -Hread. induction Hread as [|s es tables ess Hs _ IH];
      [constructor|].
    cbn [concat]. apply Forall_app. split; [|exact IH].
    exact (readAllEntries_wf _ _ _ Hs). }
  exists (sort_by key_less live). split; [reflexivity|]. split; [|split; [|split]].
  - intros e He. apply (Permutation_in _ Hperm), Hlive in He as [Hd He].
    split; [exact Hd|]. exact (proj2 (proj1 Hinv _ _ He)).
  - rewrite Hperm. exact (merged_from_values_NoDup _ _ Hinv).
  - intros e He. destruct (proj2 Hinv e He) as [t Ht].
    destruct (proj1 Hinv _ _ Ht) as [Hk Hnew].
    destruct (Deleted t) eqn:Hd.
    + right. exists t. auto.
    + left. exists t. split; [|exact Hk].
      apply (Permutation_in _ (Permutation_sym Hperm)), Hlive.
      split; [exact Hd|]. rewrite Hk. exact Ht.
  - apply Forall_forall. intros e He.
    apply list_elem_of_In, (Permutation_in _ Hperm), Hlive in He as [_ He].
    destruct (proj1 Hinv _ _ He) as [_ [Hin _]].
    rewrite Forall_forall in Hall. apply Hall, list_elem_of_In, Hin.
Qed.

(** ** The registry: Flush and RemoveSSTable *)

Lemma Flush_nil (sm : SST.SSTManager) : SST.Flush [] sm = sm.
Proof. reflexivity. Qed.

Lemma Flush_cons (entries : list Entry) (sm : SST.SSTManager) :
  entries <> [] ->
  exists new,
    SST.ID new = SST.nextID sm /\ SST.FilePath new = SST.nextID sm
    /\ SST.Flush entries sm
       = SST.mkSSTManager
           (new :: SST.sstables sm)
           (<[SST.nextID sm :=
                concat (map SST.encode (sort_by key_less entries))]>
              (SST.dataDir sm))
           (int64 (SST.nextID sm + 1)).
Proof.
  intros Hne. destruct entries as [|entry rest]; [congruence|].
  unfold SST.Flush.
  pose proof (Flush_loop_bytes (sort_by key_less (entry :: rest)) 0 0 ∅)
    as Hbytes.
  destruct (SST.Flush_loop 0 0 ∅ (sort_by key_less (entry :: rest)))
    as [[bs offset] index].
  cbn in Hbytes. subst bs. eexists. split; [|split]; [| |reflexivity];
    reflexivity.
Qed.

Lemma remove_first_app (pre suf : list SST.SSTable) (s : SST.SSTable) :
  ~ In (SST.ID s) (map SST.ID pre) ->
  SST.remove_first (SST.ID s) (pre ++ s :: suf) = pre ++ suf.
Proof.
  induction pre as [|p pre IH]; intros Hnot.
  - cbn. now rewrite Z.eqb_refl.
  - cbn [app SST.remove_first].
    destruct (Z.eqb_spec (SST.ID p) (SST.ID s)) as [Heq|_].
    + exfalso. apply Hnot. left. exact Heq.
    + rewrite IH; [reflexivity|]. intros Hin. apply Hnot. right. exact Hin.
Qed.

(** removing the tail of the registry, oldest segments last *)
Lemma Remove_tail (suf : list SST.SSTable) :
  forall (pre : list SST.SSTable) (dir : gmap Z (list byte)) (next : Z),
    NoDup (map SST.ID (pre ++ suf)) ->
    foldl (fun sm sst => SST.RemoveSSTable sst sm)
          (SST.mkSSTManager (pre ++ suf) dir next) suf
    = SST.mkSSTManager pre (unlink dir suf) next.
Proof.
  induction suf as [|s suf IH]; intros pre dir next Hnd.
  - cbn. now rewrite app_nil_r.
  - cbn [foldl unlink]. unfold SST.RemoveSSTable at 2.
    cbn [SST.sstables SST.dataDir SST.nextID].
    rewrite map_app in Hnd. cbn [map] in Hnd.
    apply NoDup_app in Hnd as (Hpre & Hdisj & Hsuf).
    apply NoDup_cons in Hsuf as (Hs & Hsuf).
    assert (Hex : existsb (fun x => SST.ID x =? SST.ID s) (pre ++ s :: suf)
                  = true).
    { apply existsb_exists. exists s. split; [|apply Z.eqb_refl].
      apply in_app_iff. right. left. reflexivity. }
    rewrite Hex, remove_first_app.
    + apply IH. rewrite map_app. apply NoDup_app. split; [exact Hpre|].
      split; [|exact Hsuf].
      intros x Hx Hx'. apply (Hdisj x Hx). right. exact Hx'.
    + intros Hin. apply list_elem_of_In in Hin. apply (Hdisj _ Hin). left.
Qed.

Lemma unlink_lookup_removed (tables : list SST.SSTable) :
  forall (dir : gmap Z (list byte)) (s : SST.SSTable),
    In s tables -> unlink dir tables !! SST.FilePath s = None.
Proof.
  assert (Hnone : forall tables dir id,
             dir !! id = None -> unlink dir tables !! id = None).
  { induction tables0 as [|t tables0 IH]; intros dir id Hd; [exact Hd|].
    cbn. apply IH. rewrite lookup_delete. case_decide; [reflexivity|exact Hd]. }
  induction tables as [|t tables IH]; intros dir s Hin; [destruct Hin|].
  destruct Hin as [->|Hin]; cbn.
  - apply Hnone, lookup_delete_eq.
  - apply IH, Hin.
Qed.

Lemma unlink_lookup_kept (tables : list SST.SSTable) :
  forall (dir : gmap Z (list byte)) (id : Z),
    ~ In id (map SST.FilePath tables) ->
    unlink dir tables !! id = dir !! id.
Proof.
  induction tables as [|t tables IH]; intros dir id Hnot; [reflexivity|].
  cbn. rewrite IH by (intros Hin; apply Hnot; right; exact Hin).
  apply lookup_delete_ne. intros Heq. apply Hnot. left. exact Heq.
Qed.

(** Flush keeps the registry well formed, as long as ids do not run out *)
Lemma Flush_wf (entries : list Entry) (sm : SST.SSTManager) :
  SSTManager_wf sm -> SST.nextID sm + 1 < 2 ^ 63 -> 0 <= SST.nextID sm ->
  SSTManager_wf (SST.Flush entries sm).
Proof.
  intros [Hnd Hids] Hmax Hmin.
  destruct entries as [|entry rest]; [split; assumption|].
  destruct (Flush_cons (entry :: rest) sm ltac:(discriminate))
    as (new & Hid & Hpath & ->).
  rewrite Forall_forall in Hids. unfold SSTManager_wf.
  cbn [SST.sstables SST.nextID map]. rewrite int64_small by lia. split.
  - apply NoDup_cons. split; [|exact Hnd].
    rewrite Hid. intros Hin. apply list_elem_of_In, in_map_iff in Hin
      as (s & Hs & Hin).
    apply list_elem_of_In, Hids in Hin. lia.
  - apply Forall_cons. split; [lia|].
    apply Forall_forall. intros s Hs. apply Hids in Hs. lia.
Qed.

(** so is every registry built by flushing a few cohorts into an empty
    data directory *)
Lemma registry_wf (cohorts : list (list Entry)) :
  Z.of_nat (length cohorts) + 1 < 2 ^ 63 ->
  SSTManager_wf (registry cohorts)
  /\ 1 <= SST.nextID (registry cohorts) <= 1 + Z.of_nat (length cohorts).
Proof.
  unfold registry. induction cohorts as [|entries cohorts IH] using rev_ind.
  - intros _. cbn. split; [split; constructor|lia].
  - rewrite length_app, foldl_app. cbn [length foldl]. intros Hlen.
    destruct IH as [Hwf Hnext]; [lia|]. split.
    + apply Flush_wf; [exact Hwf|lia|lia].
    + destruct entries as [|entry rest]; [rewrite Flush_nil; lia|].
      destruct (Flush_cons (entry :: rest)
                  (foldl (fun sm es => SST.Flush es sm)
                         (SST.mkSSTManager [] ∅ 1) cohorts)
                  ltac:(discriminate)) as (new & _ & _ & ->).
      cbn [SST.nextID]. rewrite int64_small by lia. lia.
Qed.

(** ** Compaction *)

Lemma compact_small (sm : SST.SSTManager) :
  (length (SST.sstables sm) <= 4)%nat -> Compactor.compact sm = (Ok tt, sm).
Proof.
  intros Hle. unfold Compactor.compact, SST.GetAllSSTables.
  destruct (Nat.leb_spec (length (SST.sstables sm)) 4); [reflexivity|lia].
Qed.

(* the cycle on a registry of more than four segments whose four oldest
   files can be read *)
Lemma compact_large (sm : SST.SSTManager) (merged : list Entry) :
  SSTManager_wf sm ->
  (4 < length (SST.sstables sm))%nat ->
  Compactor.mergeSSTs (SST.dataDir sm)
    (drop (length (SST.sstables sm) - 4) (SST.sstables sm)) = Ok merged ->
  let kept := take (length (SST.sstables sm) - 4) (SST.sstables sm) in
  let gone := drop (length (SST.sstables sm) - 4) (SST.sstables sm) in
  (merged = [] ->
   Compactor.compact sm
   = (Ok tt, SST.mkSSTManager kept (unlink (SST.dataDir sm) gone)
               (SST.nextID sm)))
  /\ (merged <> [] ->
      exists new,
        SST.ID new = SST.nextID sm /\ SST.FilePath new = SST.nextID sm
        /\ Compactor.compact sm
           = (Ok tt,
              SST.mkSSTManager (new :: kept)
                (unlink (<[SST.nextID sm :=
                             concat (map SST.encode
                                       (sort_by key_less merged))]>
                           (SST.dataDir sm)) gone)
                (int64 (SST.nextID sm + 1)))).
Proof.
  intros [Hnd Hids] Hgt Hm kept gone.
  assert (Hsplit : SST.sstables sm = kept ++ gone)
    by (symmetry; apply take_drop).
  unfold Compactor.compact, SST.GetAllSSTables. cbn zeta.
  destruct (Nat.leb_spec (length (SST.sstables sm)) 4); [lia|].
  rewrite Hm. fold gone. split.
  - intros ->. rewrite Flush_nil. f_equal.
    destruct sm as [tables dir next]. cbn [SST.sstables] in *.
    cbn [SST.dataDir SST.nextID]. rewrite Hsplit at 1.
    apply Remove_tail. rewrite <- Hsplit. exact Hnd.
  - intros Hne. destruct (Flush_cons merged sm Hne) as (new & Hid & Hpath & ->).
    exists new. split; [exact Hid|]. split; [exact Hpath|]. f_equal.
    rewrite Hsplit at 1.
    change (new :: kept ++ gone) with ((new :: kept) ++ gone).
    apply Remove_tail. cbn [app map]. rewrite <- Hsplit.
    apply NoDup_cons. split; [|exact Hnd].
    rewrite Hid. intros Hin. apply list_elem_of_In, in_map_iff in Hin
      as (s & Hs & Hin).
    rewrite Forall_forall in Hids. apply list_elem_of_In, Hids in Hin. lia.
Qed.

(** C7, as amended.  A compaction cycle is a no-op when the segment count
    is at most 4.  Otherwise it merges exactly the 4 oldest segments: the
    merged output holds live records only, each with the highest timestamp
    among the records of its key in the four segments, at most one for a
    key, and one for every key whose newest record is not a tombstone.  The
    4 source segments are removed, files included, and the other segments
    are left as they were.  When the merged output is not empty, one new
    segment holding exactly these records is written and registered, and the
    segment count decreases by 3; when every covered key ends in a
    tombstone, the output is empty, no segment is written and the count
    decreases by 4. *)
Theorem compaction_cycle (sm : SST.SSTManager) (ess : list (list Entry)) :
  SSTManager_wf sm ->
  let n := length (SST.sstables sm) in
  let kept := take (n - 4) (SST.sstables sm) in
  let gone := drop (n - 4) (SST.sstables sm) in
  let sm' := (Compactor.compact sm).2 in
  ((n <= 4)%nat -> Compactor.compact sm = (Ok tt, sm))
  /\ ((4 < n)%nat ->
      Forall2 (fun s es => Compactor.readAllEntries (SST.dataDir sm) s = Ok es)
              gone ess ->
      exists merged,
        Compactor.mergeSSTs (SST.dataDir sm) gone = Ok merged
        /\ length gone = 4%nat
        /\ (forall e, In e merged ->
              Deleted e = false /\ newest_of (concat ess) e)
        /\ NoDup (map Key merged)
        /\ (forall e, In e (concat ess) ->
              (exists e', In e' merged /\ Key e' = Key e)
              \/ (exists t, newest_of (concat ess) t /\ Key t = Key e
                    /\ Deleted t = true))
        /\ (Compactor.compact sm).1 = Ok tt
        /\ (forall s, In s gone -> SST.dataDir sm' !! SST.FilePath s = None)
        /\ (forall s, In s kept ->
              SST.dataDir sm' !! SST.FilePath s
              = SST.dataDir sm !! SST.FilePath s)
        /\ (merged = [] ->
            SST.sstables sm' = kept /\ SST.nextID sm' = SST.nextID sm
            /\ length (SST.sstables sm') = (n - 4)%nat)
        /\ (merged <> [] ->
            exists new written,
              SST.sstables sm' = new :: kept
              /\ SST.ID new = SST.nextID sm
              /\ length (SST.sstables sm') = (n - 3)%nat
              /\ Compactor.readAllEntries (SST.dataDir sm') new = Ok written
              /\ written ≡ₚ merged)).
Proof.
  intros Hwf n kept gone sm'. split; [apply compact_small|].
  intros Hgt Hread.
  destruct (mergeSSTs_read _ _ _ Hread)
    as (merged & Hm & Hlive & Hkeys & Hcov & Hmwf).
  destruct (compact_large sm merged Hwf Hgt Hm) as [Hnil Hcons].
  fold n kept gone in Hnil, Hcons.
  destruct Hwf as [Hnd Hids]. rewrite Forall_forall in Hids.
  assert (Hsplit : SST.sstables sm = kept ++ gone)
    by (symmetry; apply take_drop).
  assert (Hlk : length kept = (n - 4)%nat)
    by (subst kept; rewrite length_take; fold n; lia).
  assert (Hin_gone : forall s, In s gone -> In s (SST.sstables sm))
    by (intros s Hs; rewrite Hsplit; apply in_app_iff; auto).
  assert (Hin_kept : forall s, In s kept -> In s (SST.sstables sm))
    by (intros s Hs; rewrite Hsplit; apply in_app_iff; auto).
  assert (Hpath : forall s, In s (SST.sstables sm) ->
                            SST.FilePath s = SST.ID s
                            /\ SST.FilePath s <> SST.nextID sm).
  { intros s Hs. apply list_elem_of_In, Hids in Hs. lia. }
  assert (Hkept_gone : forall s, In s kept ->
                                 ~ In (SST.FilePath s) (map SST.FilePath gone)).
  { intros s Hs Hin. apply in_map_iff in Hin as (g & Hg & Hin).
    rewrite Hsplit, map_app in Hnd.
    apply NoDup_app in Hnd as (_ & Hdisj & _).
    apply (Hdisj (SST.ID s)).
    - apply list_elem_of_In, in_map, Hs.
    - apply list_elem_of_In, in_map_iff. exists g. split; [|exact Hin].
      destruct (Hpath g (Hin_gone g Hin)) as [<- _].
      destruct (Hpath s (Hin_kept s Hs)) as [<- _]. exact Hg. }
  exists merged. split; [exact Hm|].
  split; [subst gone; rewrite length_drop; fold n; lia|].
  split; [exact Hlive|]. split; [exact Hkeys|]. split; [exact Hcov|].
  destruct merged as [|e0 merged0].
  - specialize (Hnil eq_refl). subst sm'. rewrite Hnil. cbn [fst snd].
    cbn [SST.dataDir SST.sstables SST.nextID].
    split; [reflexivity|]. split; [apply unlink_lookup_removed|].
    split; [intros s Hs; apply unlink_lookup_kept, Hkept_gone, Hs|].
    split; [auto|]. intros Hne. congruence.
  - destruct (Hcons ltac:(discriminate)) as (new & Hid & Hnp & Hc).
    subst sm'. rewrite Hc. cbn [fst snd].
    cbn [SST.dataDir SST.sstables SST.nextID].
    split; [reflexivity|]. split; [apply unlink_lookup_removed|]. split.
    { intros s Hs. rewrite unlink_lookup_kept by apply Hkept_gone, Hs.
      apply lookup_insert_ne.
      destruct (Hpath s (Hin_kept s Hs)) as [_ Hne]. congruence. }
    split; [discriminate|]. intros _.
    exists new, (sort_by key_less (e0 :: merged0)).
    split; [reflexivity|]. split; [exact Hid|].
    split; [cbn [length]; rewrite Hlk; lia|].
    split; [|apply sort_by_Permutation].
    apply readAllEntries_encoded.
    + rewrite sort_by_Permutation. exact Hmwf.
    + rewrite Hnp, unlink_lookup_kept; [apply lookup_insert_eq|].
      intros Hin. apply in_map_iff in Hin as (g & Hg & Hin).
      destruct (Hpath g (Hin_gone g Hin)) as [_ Hne]. congruence.
Qed.

Lemma registry_five_wf : SSTManager_wf (registry five_cohorts).
Proof. apply registry_wf. cbn. lia. Qed.

Lemma Forall2_read (dir : gmap Z (list byte)) (tables : list SST.SSTable) :
  forall ess : list (list Entry),
    map (Compactor.readAllEntries dir) tables = map Ok ess ->
    Forall2 (fun s es => Compactor.readAllEntries dir s = Ok es) tables ess.
Proof.
  induction tables as [|s tables IH]; intros [|es ess] H; try discriminate H.
  - constructor.
  - cbn [map] in H. injection H as Hs Hrest.
    constructor; [exact Hs|apply IH, Hrest].
Qed.

(* the theorem on a registry of five segments *)
Lemma compaction_cycle_witness :
  SSTManager_wf (registry five_cohorts)
  /\ (4 < length (SST.sstables (registry five_cohorts)))%nat
  /\ Forall2 (fun s es =>
                Compactor.readAllEntries
                  (SST.dataDir (registry five_cohorts)) s = Ok es)
       (drop (5 - 4) (SST.sstables (registry five_cohorts)))
       [ [mkEntry "e" (bytes "y") 40 false];
         [mkEntry "d" [] 30 true];
         [mkEntry "k" (bytes "new") 20 false];
         [mkEntry "d" (bytes "x") 11 false;
          mkEntry "k" (bytes "old") 10 false] ]
  /\ exists merged,
       Compactor.mergeSSTs (SST.dataDir (registry five_cohorts))
         (drop (5 - 4) (SST.sstables (registry five_cohorts))) = Ok merged
       /\ forall e, In e merged -> Deleted e = false.
Proof.
  pose proof registry_five_wf as Hwf.
  assert (Hn : (4 < length (SST.sstables (registry five_cohorts)))%nat)
    by (vm_compute; lia).
  assert (Hread :
    Forall2 (fun s es =>
               Compactor.readAllEntries
                 (SST.dataDir (registry five_cohorts)) s = Ok es)
      (drop (5 - 4) (SST.sstables (registry five_cohorts)))
      [ [mkEntry "e" (bytes "y") 40 false];
        [mkEntry "d" [] 30 true];
        [mkEntry "k" (bytes "new") 20 false];
        [mkEntry "d" (bytes "x") 11 false;
         mkEntry "k" (bytes "old") 10 false] ]).
  { apply Forall2_read. vm_compute. reflexivity. }
  split; [exact Hwf|]. split; [exact Hn|]. split; [exact Hread|].
  destruct (proj2 (compaction_cycle (registry five_cohorts) _ Hwf) Hn Hread)
    as (merged & Hm & _ & Hlive & _).
  exists merged. split; [exact Hm|]. intros e He. exact (proj1 (Hlive e He)).
Defined.

(** C7 fails on the code.  After [write a|1], [delete a] and four
    graceful restarts, four segments hold nothing but the tombstone of a;
    [write b|2] and one more restart add a fifth segment.  The compaction
    cycle merges the four oldest: every record is a tombstone, the merged
    output is empty, Flush writes no segment for an empty batch, and the
    four sources are removed.  No new segment exists (the next id is still
    6, the only file left is segment 5) and the segment count went from 5
    to 1: it decreased by 4, not by 3. *)
Lemma compaction_of_tombstones_writes_no_segment :
  let before :=
    (run_steps sample_clock tombstone_segments_scenario
       (fresh default_config)).2 in
  let after := (run_steps sample_clock [CompactionTick] before).2 in
  map SST.ID (SST.sstables (Engine.sstManager before)) = [5; 4; 3; 2; 1]
  /\ SST.nextID (Engine.sstManager before) = 6
  /\ (Compactor.compact (Engine.sstManager before)).1 = Ok tt
  /\ map SST.ID (SST.sstables (Engine.sstManager after)) = [5]
  /\ SST.nextID (Engine.sstManager after) = 6
  /\ map fst (map_to_list (SST.dataDir (Engine.sstManager after))) = [5]
  /\ length (SST.sstables (Engine.sstManager after))
     <> (length (SST.sstables (Engine.sstManager before)) - 3)%nat.
Proof. vm_compute. repeat split. discriminate. Qed.

(** the merged segment is registered as the newest one: after the cycle
    it is consulted before the segment that was written after its sources,
    and read k answers the value that write had replaced *)
Lemma compaction_shadows_newer_segment :
  let before :=
    (run_steps sample_clock overwrite_scenario (fresh tiny_config)).2 in
  (run_steps sample_clock
     [Client (Server.CmdRead "k"); CompactionTick;
      Client (Server.CmdRead "k")] before).1
  = ["new"; "old"].
Proof. vm_compute. reflexivity. Qed.

(** * Further properties of the engine *)

(** ** Keys and prefixes *)

Lemma has_prefix_cons (a b : ascii) (p k : string) :
  MemTable.has_prefix (String a p) (String b k)
  = Ascii.eqb b a && MemTable.has_prefix p k.
Proof.
  unfold MemTable.has_prefix. cbn [String.length substring String.eqb].
  change (S (String.length p) <=? S (String.length k))%nat
    with (String.length p <=? String.length k)%nat.
  destruct (Ascii.eqb b a); [reflexivity|]. now rewrite andb_false_r.
Qed.

(** X1.  The prefix test of PrefixScan holds exactly for the keys that
    start with the prefix; a prefix longer than the key never matches, the
    empty prefix matches every key. *)
Theorem has_prefix_iff_starts_with (prefix k : string) :
  (MemTable.has_prefix prefix k = true <-> exists rest, k = prefix +:+ rest)
  /\ MemTable.has_prefix "" k = true
  /\ ((String.length k < String.length prefix)%nat ->
      MemTable.has_prefix prefix k = false).
Proof.
  split; [|split].
  - revert k. induction prefix as [|a p IH]; intros k.
    + split; [intros _; exists k; reflexivity|].
      intros _. unfold MemTable.has_prefix. cbn.
      destruct k; reflexivity.
    + destruct k as [|b k].
      * split; [discriminate|]. intros [rest H]. discriminate H.
      * rewrite has_prefix_cons, andb_true_iff, IH. split.
        -- intros [Hab [rest ->]]. apply Ascii.eqb_eq in Hab as ->.
           exists rest. reflexivity.
        -- intros [rest H]. cbn in H. injection H as -> ->.
           split; [apply Ascii.eqb_refl|]. exists rest. reflexivity.
  - unfold MemTable.has_prefix. cbn. destruct k; reflexivity.
  - intros Hlen. unfold MemTable.has_prefix.
    destruct (Nat.leb_spec (String.length prefix) (String.length k));
      [lia|reflexivity].
Qed.

(* the theorem on a key shorter than the prefix *)
Lemma has_prefix_iff_starts_with_witness :
  (String.length "us" < String.length "user:")%nat
  /\ MemTable.has_prefix "user:" "us" = false
  /\ (MemTable.has_prefix "user:" "user:a" = true
      <-> exists rest, "user:a" = "user:" +:+ rest).
Proof.
  assert (H : (String.length "us" < String.length "user:")%nat)
    by (cbn; lia).
  pose proof (has_prefix_iff_starts_with "user:" "us") as (_ & _ & Hshort).
  pose proof (has_prefix_iff_starts_with "user:" "user:a") as (Hiff & _).
  exact (conj H (conj (Hshort H) Hiff)).
Defined.

(** X2.  isValidKey accepts exactly the non-empty keys all of whose bytes
    are ASCII letters, digits, or one of [. - : _]: iterating over the runes
    of the key accepts nothing that a byte-wise check would refuse, so every
    key with a byte of 0x80 or more (any non-ASCII character, any invalid
    UTF-8) is rejected. *)
Theorem isValidKey_iff_class_bytes (key : string) :
  (Protocol.isValidKey key = true
   <-> key <> ""
       /\ Forall (fun b => (97 <= b <= 122) \/ (65 <= b <= 90)
                           \/ (48 <= b <= 57)
                           \/ b = 46 \/ b = 45 \/ b = 58 \/ b = 95)
                 (Protocol.bytes_of key))
  /\ (Exists (fun b => 128 <= b) (Protocol.bytes_of key) ->
      Protocol.isValidKey key = false).
Proof.
  assert (Hclass : forall b, Protocol.in_class b = true <->
            (97 <= b <= 122) \/ (65 <= b <= 90) \/ (48 <= b <= 57)
            \/ b = 46 \/ b = 45 \/ b = 58 \/ b = 95).
  { intros b. unfold Protocol.in_class.
    rewrite !orb_true_iff, !andb_true_iff, !Z.leb_le, !Z.eqb_eq. tauto. }
  rewrite isValidKey_bytes. split.
  - rewrite andb_true_iff, negb_true_iff, Nat.eqb_neq, forallb_forall,
            Forall_forall.
    split.
    + intros [Hne Hall]. split.
      * intros ->. apply Hne. reflexivity.
      * intros b Hb. apply Hclass, Hall, list_elem_of_In, Hb.
    + intros [Hne Hall]. split.
      * destruct key; [congruence|]. cbn. lia.
      * intros b Hb. apply Hclass, Hall, list_elem_of_In, Hb.
  - intros Hex. apply andb_false_iff. right.
    apply not_true_iff_false. rewrite forallb_forall. intros Hall.
    apply Exists_exists in Hex as (b & Hb & Hge).
    apply list_elem_of_In, Hall, Hclass in Hb. lia.
Qed.

(* the theorem on the two bytes of a Latin small e with acute accent *)
Lemma isValidKey_iff_class_bytes_witness :
  Exists (fun b => 128 <= b)
         (Protocol.bytes_of (String (ascii_of_nat 195)
                               (String (ascii_of_nat 169) "")))
  /\ Protocol.isValidKey (String (ascii_of_nat 195)
                            (String (ascii_of_nat 169) "")) = false.
Proof.
  assert (H : Exists (fun b => 128 <= b)
                (Protocol.bytes_of (String (ascii_of_nat 195)
                                      (String (ascii_of_nat 169) ""))))
    by (apply Exists_cons_hd; vm_compute; discriminate).
  exact (conj H (proj2 (isValidKey_iff_class_bytes _) H)).
Defined.

(** ** The memtable *)

Lemma footprint_empty : footprint ∅ = 0.
Proof. unfold footprint. apply map_fold_empty. Qed.

Lemma footprint_insert (data : gmap string Entry) (k : string)
    (entry : Entry) :
  data !! k = None ->
  footprint (<[k := entry]> data)
  = footprint data + (len_string (Key entry) + len_bytes (Value entry)).
Proof.
  intros Hk. unfold footprint.
  rewrite map_fold_insert_L; [reflexivity| |exact Hk].
  intros; lia.
Qed.

Lemma footprint_delete (data : gmap string Entry) (k : string)
    (entry : Entry) :
  data !! k = Some entry ->
  footprint data
  = footprint (delete k data)
    + (len_string (Key entry) + len_bytes (Value entry)).
Proof.
  intros Hk. rewrite <- (insert_delete_id data k entry Hk) at 1.
  apply footprint_insert, lookup_delete_eq.
Qed.

Lemma footprint_overwrite (data : gmap string Entry) (k : string)
    (entry : Entry) :
  footprint (<[k := entry]> data)
  = footprint (delete k data)
    + (len_string (Key entry) + len_bytes (Value entry)).
Proof.
  rewrite <- insert_delete_eq. apply footprint_insert, lookup_delete_eq.
Qed.

Lemma len_string_nonneg (s : string) : 0 <= len_string s.
Proof. unfold len_string. lia. Qed.

Lemma len_bytes_nonneg (v : list byte) : 0 <= len_bytes v.
Proof. unfold len_bytes. lia. Qed.

Lemma footprint_nonneg (data : gmap string Entry) : 0 <= footprint data.
Proof.
  unfold footprint. apply (map_fold_weak_ind (fun acc _ => 0 <= acc)).
  - lia.
  - intros k entry m acc _ IH.
    pose proof (len_string_nonneg (Key entry)).
    pose proof (len_bytes_nonneg (Value entry)). lia.
Qed.

(** X3.  The size a memtable reports is the exact number of key and value
    bytes of its entries.  Put keeps this (an overwritten entry is taken
    off before the new one is added), and Delete keeps the size as it is:
    a tombstone goes on counting the value it hides, so deleting never
    moves a memtable away from its limit. *)
Theorem MemTable_size_is_footprint (now : Z) (key : string)
    (value : list byte) (m : MemTable.MemTable) :
  MemTable_wf m ->
  footprint (MemTable.data m) + (len_string key + len_bytes value) < 2 ^ 63 ->
  MemTable_wf (MemTable.Put now key value m)
  /\ MemTable.Size (MemTable.Put now key value m)
     = footprint (delete key (MemTable.data m))
       + (len_string key + len_bytes value)
  /\ MemTable_wf (MemTable.Delete now key m).2
  /\ MemTable.Size (MemTable.Delete now key m).2 = MemTable.Size m
  /\ MemTable.IsFull (MemTable.Delete now key m).2 = MemTable.IsFull m.
Proof.
  intros (Hkeys & Hsize & Hmax) Hroom.
  pose proof (footprint_nonneg (MemTable.data m)) as H0.
  pose proof (footprint_nonneg (delete key (MemTable.data m))) as H0'.
  pose proof (len_string_nonneg key) as Hk0.
  pose proof (len_bytes_nonneg value) as Hv0.
  assert (Hput : MemTable.size (MemTable.Put now key value m)
                 = footprint (delete key (MemTable.data m))
                   + (len_string key + len_bytes value)).
  { unfold MemTable.Put. cbn [MemTable.size].
    destruct (MemTable.data m !! key) as [old|] eqn:Hold.
    - pose proof (footprint_delete _ _ _ Hold) as Hdel.
      pose proof (len_string_nonneg (Key old)).
      pose proof (len_bytes_nonneg (Value old)).
      rewrite Hsize.
      rewrite (int64_small (len_string (Key old) + len_bytes (Value old)))
        by lia.
      rewrite (int64_small (len_string key + len_bytes value)) by lia.
      rewrite (int64_small (footprint (MemTable.data m) - _)) by lia.
      rewrite int64_small by lia. lia.
    - rewrite (delete_id _ _ Hold).
      rewrite (int64_small (len_string key + len_bytes value)) by lia.
      rewrite Hsize. rewrite int64_small by lia. reflexivity. }
  split; [|split; [exact Hput|]].
  - split; [|split].
    + intros k entry. unfold MemTable.Put. cbn [MemTable.data].
      destruct (decide (key = k)) as [->|Hne].
      * rewrite lookup_insert_eq. intros [= <-]. reflexivity.
      * rewrite lookup_insert_ne by exact Hne. apply Hkeys.
    + rewrite Hput. unfold MemTable.Put. cbn [MemTable.data].
      rewrite footprint_overwrite. reflexivity.
    + unfold MemTable.Put. cbn [MemTable.data].
      rewrite footprint_overwrite. cbn [Key Value].
      destruct (MemTable.data m !! key) as [old|] eqn:Hold.
      * pose proof (footprint_delete _ _ _ Hold).
        pose proof (len_string_nonneg (Key old)).
        pose proof (len_bytes_nonneg (Value old)). lia.
      * rewrite (delete_id _ _ Hold). lia.
  - unfold MemTable.Delete, MemTable.Size, MemTable.IsFull.
    destruct (MemTable.data m !! key) as [entry|] eqn:He;
      [destruct (Deleted entry) eqn:Hd|]; cbn [snd MemTable.size
                                               MemTable.maxSize];
      try (repeat split; try apply Hkeys; assumption).
    assert (Hfp : footprint
                    (<[key := mkEntry (Key entry) (Value entry) now true]>
                       (MemTable.data m))
                  = footprint (MemTable.data m)).
    { rewrite footprint_overwrite. cbn [Key Value].
      symmetry. apply footprint_delete, He. }
    repeat split.
    + intros k entry'. cbn [MemTable.data].
      destruct (decide (key = k)) as [->|Hne].
      * rewrite lookup_insert_eq. intros [= <-]. cbn. apply Hkeys, He.
      * rewrite lookup_insert_ne by exact Hne. apply Hkeys.
    + cbn [MemTable.data MemTable.size]. rewrite Hfp. exact Hsize.
    + cbn [MemTable.data]. rewrite Hfp. exact Hmax.
Qed.

(* the theorem on a memtable that holds one record *)
Lemma MemTable_size_is_footprint_witness :
  MemTable_wf (MemTable.Put 1 "a" (bytes "xy") (MemTable.NewMemTable 64))
  /\ MemTable.Size
       (MemTable.Put 2 "a" (bytes "z")
          (MemTable.Put 1 "a" (bytes "xy") (MemTable.NewMemTable 64)))
     = footprint
         (delete "a"
            (MemTable.data
               (MemTable.Put 1 "a" (bytes "xy") (MemTable.NewMemTable 64))))
       + (len_string "a" + len_bytes (bytes "z")).
Proof.
  assert (Hwf : MemTable_wf
                  (MemTable.Put 1 "a" (bytes "xy") (MemTable.NewMemTable 64))).
  { split; [|split].
    - intros k entry. unfold MemTable.Put. cbn [MemTable.data MemTable.NewMemTable].
      destruct (decide ("a" = k)) as [<-|Hne].
      + rewrite lookup_insert_eq. intros [= <-]. reflexivity.
      + rewrite lookup_insert_ne by exact Hne. rewrite lookup_empty.
        discriminate.
    - vm_compute. reflexivity.
    - vm_compute. reflexivity. }
  split; [exact Hwf|].
  refine (proj1 (proj2 (MemTable_size_is_footprint 2 "a" (bytes "z") _ Hwf _))).
  vm_compute. reflexivity.
Defined.

Lemma MemTable_Keys_In (key : string) (m : MemTable.MemTable) :
  In key (MemTable.Keys m) <-> exists value, MemTable.Get key m = Some value.
Proof.
  unfold MemTable.Keys, MemTable.Get.
  rewrite <- list_elem_of_In, list_elem_of_fmap. split.
  - intros ([k entry] & -> & Hin).
    apply list_elem_of_filter in Hin as [Hd Hin].
    apply elem_of_map_to_list in Hin. cbn in *.
    rewrite Hin, Hd. eauto.
  - intros [value Hget].
    destruct (MemTable.data m !! key) as [entry|] eqn:He; [|discriminate].
    destruct (Deleted entry) eqn:Hd; [discriminate|].
    exists (key, entry). split; [reflexivity|].
    apply list_elem_of_filter. split; [exact Hd|].
    apply elem_of_map_to_list, He.
Qed.

(** X4.  Keys lists every key exactly once, and lists exactly the keys Get
    finds: a key is listed if and only if the memtable holds it and it is
    not deleted. *)
Theorem MemTable_Keys_are_the_live_keys (m : MemTable.MemTable) :
  NoDup (MemTable.Keys m)
  /\ forall key, In key (MemTable.Keys m)
                 <-> exists value, MemTable.Get key m = Some value.
Proof.
  split; [|intros key; apply MemTable_Keys_In].
  unfold MemTable.Keys.
  change (NoDup (fst <$> filter (fun kv : string * Entry =>
                                   Deleted kv.2 = false)
                           (map_to_list (MemTable.data m)))).
  apply NoDup_fmap_2_strong.
  - intros [k1 e1] [k2 e2] H1 H2 Heq. cbn in Heq. subst k2.
    apply list_elem_of_filter in H1 as [_ H1].
    apply list_elem_of_filter in H2 as [_ H2].
    apply elem_of_map_to_list in H1, H2. congruence.
  - apply NoDup_filter, NoDup_map_to_list.
Qed.

(** X5.  The memtable is a map with tombstones.  A Put is read back by Get
    and leaves every other key as it was; Delete answers true exactly when
    Get finds the key, after which Get finds it no more, a second Delete
    answers false, and every other key is as it was. *)
Theorem MemTable_Put_Get_Delete (now now' : Z) (key : string)
    (value : list byte) (m : MemTable.MemTable) :
  MemTable.Get key (MemTable.Put now key value m) = Some value
  /\ (forall other, other <> key ->
        MemTable.Get other (MemTable.Put now key value m)
        = MemTable.Get other m)
  /\ ((MemTable.Delete now key m).1 = true
      <-> exists found, MemTable.Get key m = Some found)
  /\ MemTable.Get key (MemTable.Delete now key m).2 = None
  /\ (MemTable.Delete now' key (MemTable.Delete now key m).2).1 = false
  /\ (forall other, other <> key ->
        MemTable.Get other (MemTable.Delete now key m).2
        = MemTable.Get other m).
Proof.
  unfold MemTable.Get, MemTable.Put, MemTable.Delete.
  split; [|split; [|split; [|split; [|split]]]].
  - cbn [MemTable.data]. rewrite lookup_insert_eq. reflexivity.
  - intros other Hne. cbn [MemTable.data].
    rewrite lookup_insert_ne by congruence. reflexivity.
  - destruct (MemTable.data m !! key) as [entry|];
      [destruct (Deleted entry)|]; cbn [fst]; split;
      try discriminate; try (intros [? ?]; discriminate); eauto.
  - destruct (MemTable.data m !! key) as [entry|] eqn:He;
      [destruct (Deleted entry) eqn:Hd|]; cbn [snd MemTable.data].
    + rewrite He, Hd. reflexivity.
    + rewrite lookup_insert_eq. reflexivity.
    + rewrite He. reflexivity.
  - destruct (MemTable.data m !! key) as [entry|] eqn:He;
      [destruct (Deleted entry) eqn:Hd|]; cbn [snd MemTable.data].
    + rewrite He, Hd. reflexivity.
    + rewrite lookup_insert_eq. reflexivity.
    + rewrite He. reflexivity.
  - intros other Hne.
    destruct (MemTable.data m !! key) as [entry|] eqn:He;
      [destruct (Deleted entry) eqn:Hd|]; cbn [snd MemTable.data];
      try reflexivity.
    rewrite lookup_insert_ne by congruence. reflexivity.
Qed.

(** ** The engine over its memtables *)

Lemma Get_immutables_app (tables : list MemTable.MemTable)
    (m : MemTable.MemTable) (key : string) :
  Engine.Get_immutables (tables ++ [m]) key
  = match Engine.Get_immutables tables key with
    | Some value => Some value
    | None => MemTable.Get key m
    end.
Proof.
  induction tables as [|mt tables IH]; cbn.
  - destruct (MemTable.Get key m); reflexivity.
  - destruct (MemTable.Get key mt); [reflexivity|exact IH].
Qed.

(* the answer of Get, from the three layers *)
Lemma Get_answer (key : string) (e : Engine.Engine) :
  (Engine.Get key e).1
  = match MemTable.Get key (Engine.memtable e) with
    | Some value => Ok (Some value)
    | None =>
        match Engine.Get_immutables (Engine.immutableMemtables e) key with
        | Some value => Ok (Some value)
        | None =>
            match SST.Get key (Engine.sstManager e) with
            | Err err => Err (Wrapf "SST lookup failed" err)
            | Ok r => Ok r
            end
        end
    end.
Proof.
  unfold Engine.Get. destruct e as [m imm sm w cfg ch st t]. cbn.
  destruct (MemTable.Get key m); [reflexivity|].
  destruct (Engine.Get_immutables imm key); [reflexivity|].
  destruct (SST.Get key sm); reflexivity.
Qed.

Lemma MemTable_Get_New (key : string) (maxSize : Z) :
  MemTable.Get key (MemTable.NewMemTable maxSize) = None.
Proof. unfold MemTable.Get. cbn. rewrite lookup_empty. reflexivity. Qed.

Lemma MemTable_Get_Put (now : Z) (key other : string) (value : list byte)
    (m : MemTable.MemTable) :
  MemTable.Get other (MemTable.Put now key value m)
  = if decide (key = other) then Some value else MemTable.Get other m.
Proof.
  unfold MemTable.Get, MemTable.Put. cbn [MemTable.data].
  destruct (decide (key = other)) as [->|Hne].
  - rewrite lookup_insert_eq. reflexivity.
  - rewrite lookup_insert_ne by exact Hne. reflexivity.
Qed.

(* the layers of the engine after an accepted Put *)
Lemma Put_layers (clock : nat -> Z) (key : string) (value : list byte)
    (e : Engine.Engine) :
  len_string key <= 100 * 1024 ->
  let m' := MemTable.Put (clock (S (Engine.ticks e))) key value
              (Engine.memtable e) in
  let e' := (Engine.Put clock key value e).2 in
  (Engine.Put clock key value e).1 = Ok tt
  /\ Engine.sstManager e' = Engine.sstManager e
  /\ Engine.memtable e'
     = (if MemTable.IsFull m'
        then MemTable.NewMemTable (Engine.MemTableMaxSize (Engine.config e))
        else m')
  /\ Engine.immutableMemtables e'
     = (if MemTable.IsFull m' then Engine.immutableMemtables e ++ [m']
        else Engine.immutableMemtables e).
Proof.
  intros Hlen m' e'. subst e'. unfold Engine.Put.
  destruct (Z.gtb_spec (len_string key) (100 * 1024)) as [Hgt|_]; [lia|].
  fold m'. cbn [fst snd].
  destruct (MemTable.IsFull m'); cbn; repeat split; reflexivity.
Qed.

(** X6.  What Get answers for a key right after an accepted Put of it: the
    value just written, except when the Put filled the memtable (which
    rotates it behind the immutable memtables) while an immutable memtable
    holds the key; Get walks the immutable memtables oldest first and then
    answers the older value. *)
Theorem Get_after_Put (clock : nat -> Z) (key : string) (value : list byte)
    (e : Engine.Engine) :
  len_string key <= 100 * 1024 ->
  let m' := MemTable.Put (clock (S (Engine.ticks e))) key value
              (Engine.memtable e) in
  let e' := (Engine.Put clock key value e).2 in
  (Engine.Put clock key value e).1 = Ok tt
  /\ (Engine.Get key e').1
     = Ok (Some (if MemTable.IsFull m'
                 then default value
                        (Engine.Get_immutables
                           (Engine.immutableMemtables e) key)
                 else value))
  /\ (MemTable.IsFull m' = false
      \/ Engine.Get_immutables (Engine.immutableMemtables e) key = None ->
      (Engine.Get key e').1 = Ok (Some value)).
Proof.
  intros Hlen m' e'.
  destruct (Put_layers clock key value e Hlen) as (Hok & Hsm & Hm & Himm).
  fold m' e' in Hm, Himm, Hsm.
  assert (Hget : (Engine.Get key e').1
     = Ok (Some (if MemTable.IsFull m'
                 then default value
                        (Engine.Get_immutables
                           (Engine.immutableMemtables e) key)
                 else value))).
  { rewrite Get_answer, Hm, Himm.
    destruct (MemTable.IsFull m').
    - rewrite MemTable_Get_New, Get_immutables_app.
      destruct (Engine.Get_immutables (Engine.immutableMemtables e) key);
        [reflexivity|].
      subst m'. rewrite MemTable_Get_Put.
      destruct (decide (key = key)); [reflexivity|congruence].
    - subst m'. rewrite MemTable_Get_Put.
      destruct (decide (key = key)); [reflexivity|congruence]. }
  split; [exact Hok|split; [exact Hget|]].
  intros [Hfull|Hnone]; rewrite Hget.
  - rewrite Hfull. reflexivity.
  - rewrite Hnone. destruct (MemTable.IsFull m'); reflexivity.
Qed.

(* the theorem on the first write of an engine with a memtable of four
   bytes, which the write fills *)
Lemma Get_after_Put_witness :
  len_string "k" <= 100 * 1024
  /\ MemTable.IsFull
       (MemTable.Put (sample_clock 1) "k" (bytes "abc")
          (Engine.memtable (fresh tiny_config))) = true
  /\ (Engine.Get "k"
        (Engine.Put sample_clock "k" (bytes "abc") (fresh tiny_config)).2).1
     = Ok (Some (bytes "abc")).
Proof.
  assert (H : len_string "k" <= 100 * 1024) by (vm_compute; discriminate).
  split; [exact H|]. split; [vm_compute; reflexivity|].
  refine (proj2 (proj2 (Get_after_Put sample_clock "k" (bytes "abc")
                          (fresh tiny_config) H)) _).
  right. vm_compute. reflexivity.
Defined.

(** X7.  An accepted Put leaves the answer of Get for every other key as
    it was, provided the Put does not fill the memtable, or the other key
    is not held both by the active memtable and by an immutable one (the
    rotation moves the active memtable behind the immutable ones, where
    Get reaches it last). *)
Theorem Get_other_key_after_Put (clock : nat -> Z) (key other : string)
    (value : list byte) (e : Engine.Engine) :
  len_string key <= 100 * 1024 ->
  other <> key ->
  MemTable.IsFull (MemTable.Put (clock (S (Engine.ticks e))) key value
                     (Engine.memtable e)) = false
  \/ Engine.Get_immutables (Engine.immutableMemtables e) other = None
  \/ MemTable.Get other (Engine.memtable e) = None ->
  (Engine.Get other (Engine.Put clock key value e).2).1
  = (Engine.Get other e).1.
Proof.
  intros Hlen Hne Hcase.
  destruct (Put_layers clock key value e Hlen) as (_ & Hsm & Hm & Himm).
  rewrite !Get_answer, Hm, Himm, Hsm.
  destruct (MemTable.IsFull _) eqn:Hfull.
  - rewrite MemTable_Get_New, Get_immutables_app, MemTable_Get_Put.
    destruct (decide (key = other)) as [Heq|_]; [congruence|].
    destruct Hcase as [Hcase|[Hcase|Hcase]]; [discriminate| |].
    + rewrite Hcase.
      destruct (MemTable.Get other (Engine.memtable e)); reflexivity.
    + rewrite Hcase.
      destruct (Engine.Get_immutables (Engine.immutableMemtables e) other);
        reflexivity.
  - rewrite MemTable_Get_Put.
    destruct (decide (key = other)) as [Heq|_]; [congruence|reflexivity].
Qed.

(* the theorem on two writes of different keys *)
Lemma Get_other_key_after_Put_witness :
  len_string "b" <= 100 * 1024 /\ "a" <> "b"
  /\ (Engine.Get "a"
        (Engine.Put sample_clock "b" (bytes "2")
           (Engine.Put sample_clock "a" (bytes "1")
              (fresh default_config)).2).2).1
     = Ok (Some (bytes "1")).
Proof.
  assert (H : len_string "b" <= 100 * 1024) by (vm_compute; discriminate).
  assert (Hne : "a" <> "b") by discriminate.
  split; [exact H|split; [exact Hne|]].
  rewrite (Get_other_key_after_Put sample_clock "b" "a" (bytes "2")
             (Engine.Put sample_clock "a" (bytes "1")
                (fresh default_config)).2 H Hne).
  - vm_compute. reflexivity.
  - left. vm_compute. reflexivity.
Defined.

Lemma MemTable_Get_Delete (now : Z) (key other : string)
    (m : MemTable.MemTable) :
  MemTable.Get other (MemTable.Delete now key m).2
  = if decide (key = other) then None else MemTable.Get other m.
Proof.
  unfold MemTable.Get, MemTable.Delete.
  destruct (MemTable.data m !! key) as [entry|] eqn:He;
    [destruct (Deleted entry) eqn:Hd|]; cbn [snd MemTable.data];
    destruct (decide (key = other)) as [<-|Hne];
    rewrite ?He, ?Hd, ?lookup_insert_eq; try reflexivity.
  rewrite lookup_insert_ne by exact Hne. reflexivity.
Qed.

(* the layers of the engine after a Delete that found the key *)
Lemma Delete_layers (clock : nat -> Z) (key : string) (e : Engine.Engine)
    (found : list byte) :
  (Engine.Get key e).1 = Ok (Some found) ->
  let dm := MemTable.Delete (clock (S (Engine.ticks e))) key
              (Engine.memtable e) in
  let e' := (Engine.Delete clock key e).2 in
  (Engine.Delete clock key e).1 = Ok dm.1
  /\ Engine.sstManager e' = Engine.sstManager e
  /\ Engine.memtable e'
     = (if MemTable.IsFull dm.2
        then MemTable.NewMemTable (Engine.MemTableMaxSize (Engine.config e))
        else dm.2)
  /\ Engine.immutableMemtables e'
     = (if MemTable.IsFull dm.2 then Engine.immutableMemtables e ++ [dm.2]
        else Engine.immutableMemtables e).
Proof.
  intros Hget dm e'. subst e'. unfold Engine.Delete.
  pose proof (Get_state key e) as Hst.
  destruct (Engine.Get key e) as [r e1]. cbn [fst snd] in Hget, Hst.
  subst r e1. cbn [Engine.set_stats Engine.memtable Engine.ticks
                   Engine.immutableMemtables Engine.sstManager Engine.config].
  fold dm. destruct dm as [deleted m]. cbn [fst snd].
  destruct (MemTable.IsFull m); cbn; repeat split; reflexivity.
Qed.

(** X8.  After a Delete that answered true, Get skips the tombstone left
    in the memtable and answers from the layers below it: the immutable
    memtables, then the segments.  When those do not hold the key, the key
    is gone: Get finds nothing and a second Delete answers false. *)
Theorem Get_after_Delete (clock : nat -> Z) (key : string)
    (e : Engine.Engine) :
  (Engine.Delete clock key e).1 = Ok true ->
  let e' := (Engine.Delete clock key e).2 in
  (Engine.Get key e').1
  = match Engine.Get_immutables (Engine.immutableMemtables e) key with
    | Some older => Ok (Some older)
    | None =>
        match SST.Get key (Engine.sstManager e) with
        | Err err => Err (Wrapf "SST lookup failed" err)
        | Ok r => Ok r
        end
    end
  /\ (Engine.Get_immutables (Engine.immutableMemtables e) key = None ->
      SST.Get key (Engine.sstManager e) = Ok None ->
      (Engine.Get key e').1 = Ok None
      /\ (Engine.Delete clock key e').1 = Ok false).
Proof.
  intros Htrue e'.
  assert (Hfound : exists found, (Engine.Get key e).1 = Ok (Some found)).
  { unfold Engine.Delete in Htrue.
    destruct (Engine.Get key e) as [[[found|]|err] e1]; cbn in Htrue;
      try discriminate; eauto. }
  destruct Hfound as [found Hfound].
  destruct (Delete_layers clock key e found Hfound) as (_ & Hsm & Hm & Himm).
  fold e' in Hsm, Hm, Himm.
  assert (Hget : (Engine.Get key e').1
    = match Engine.Get_immutables (Engine.immutableMemtables e) key with
      | Some older => Ok (Some older)
      | None =>
          match SST.Get key (Engine.sstManager e) with
          | Err err => Err (Wrapf "SST lookup failed" err)
          | Ok r => Ok r
          end
      end).
  { rewrite Get_answer, Hm, Himm, Hsm.
    destruct (MemTable.IsFull _).
    - rewrite MemTable_Get_New, Get_immutables_app, MemTable_Get_Delete.
      destruct (decide (key = key)); [|congruence].
      destruct (Engine.Get_immutables (Engine.immutableMemtables e) key);
        reflexivity.
    - rewrite MemTable_Get_Delete.
      destruct (decide (key = key)); [reflexivity|congruence]. }
  split; [exact Hget|].
  intros Himm0 Hsst. rewrite Himm0, Hsst in Hget. split; [exact Hget|].
  unfold Engine.Delete.
  destruct (Engine.Get key e') as [r e1]. cbn [fst] in Hget. subst r.
  reflexivity.
Qed.

(* the theorem on a key written once and deleted *)
Lemma Get_after_Delete_witness :
  (Engine.Delete sample_clock "k"
     (Engine.Put sample_clock "k" (bytes "v") (fresh default_config)).2).1
  = Ok true
  /\ (Engine.Get "k"
        (Engine.Delete sample_clock "k"
           (Engine.Put sample_clock "k" (bytes "v")
              (fresh default_config)).2).2).1
     = Ok None.
Proof.
  assert (H : (Engine.Delete sample_clock "k"
                 (Engine.Put sample_clock "k" (bytes "v")
                    (fresh default_config)).2).1 = Ok true)
    by (vm_compute; reflexivity).
  split; [exact H|].
  refine (proj1 (proj2 (Get_after_Delete sample_clock "k" _ H) _ _));
    vm_compute; reflexivity.
Defined.

Lemma In_fst_map_to_list {A} (m : gmap string A) (key : string) :
  In key (map fst (map_to_list m)) <-> is_Some (m !! key).
Proof.
  rewrite <- list_elem_of_In.
  change (key ∈ fst <$> map_to_list m <-> is_Some (m !! key)).
  rewrite list_elem_of_fmap. split.
  - intros ([k a] & -> & Hin). apply elem_of_map_to_list in Hin. eauto.
  - intros [a Ha]. exists (key, a). split; [reflexivity|].
    apply elem_of_map_to_list, Ha.
Qed.

Lemma In_fst_map_to_list_Z {A} (m : gmap Z A) (id : Z) :
  In id (map fst (map_to_list m)) <-> is_Some (m !! id).
Proof.
  rewrite <- list_elem_of_In.
  change (id ∈ fst <$> map_to_list m <-> is_Some (m !! id)).
  rewrite list_elem_of_fmap. split.
  - intros ([k a] & -> & Hin). apply elem_of_map_to_list in Hin. eauto.
  - intros [a Ha]. exists (id, a). split; [reflexivity|].
    apply elem_of_map_to_list, Ha.
Qed.

Lemma foldl_insert_true_lookup (keys : list string) :
  forall (keySet : gmap string bool) (key : string),
    is_Some (foldl (fun acc k => <[k := true]> acc) keySet keys !! key)
    <-> In key keys \/ is_Some (keySet !! key).
Proof.
  induction keys as [|k keys IH]; intros keySet key; cbn [foldl In].
  - tauto.
  - rewrite IH. destruct (decide (k = key)) as [->|Hne].
    + rewrite lookup_insert_eq. split; [intros _; left; left; reflexivity|].
      intros _. right. eauto.
    + rewrite lookup_insert_ne by exact Hne. tauto.
Qed.

(** X9.  Keys lists each key once, and lists exactly the keys that some
    memtable, active or immutable, holds undeleted.  The segments are not
    consulted (a key that lives only in a segment is not listed), and a
    key deleted in one memtable is still listed when another memtable
    holds it. *)
Theorem Keys_are_the_memtable_keys (e : Engine.Engine) :
  NoDup (Engine.Keys e)
  /\ (forall key,
        In key (Engine.Keys e)
        <-> exists m value,
              In m (Engine.memtable e :: Engine.immutableMemtables e)
              /\ MemTable.Get key m = Some value)
  /\ forall sm, Engine.Keys (Engine.set_sstManager e sm) = Engine.Keys e.
Proof.
  split; [|split].
  - unfold Engine.Keys. apply NoDup_fst_map_to_list.
  - intros key. unfold Engine.Keys.
    rewrite In_fst_map_to_list, foldl_insert_true_lookup, lookup_empty.
    rewrite in_app_iff, in_concat. split.
    + intros [[Hin|(keys & Hks & Hin)]|[? ?]]; [| |discriminate].
      * apply MemTable_Keys_In in Hin as [value Hv].
        exists (Engine.memtable e), value. split; [left; reflexivity|exact Hv].
      * apply in_map_iff in Hks as (m & <- & Hm).
        apply MemTable_Keys_In in Hin as [value Hv].
        exists m, value. split; [right; exact Hm|exact Hv].
    + intros (m & value & [<-|Hm] & Hv); left.
      * left. apply MemTable_Keys_In. eauto.
      * right. exists (MemTable.Keys m). split; [apply in_map, Hm|].
        apply MemTable_Keys_In. eauto.
  - intros sm. destruct e. reflexivity.
Qed.

Lemma collect_lookup_inv (values : list (list byte)) :
  forall (valueMap : gmap string (list byte)) (s : string) (v : list byte),
    collect valueMap values !! s = Some v ->
    In v values \/ valueMap !! s = Some v.
Proof.
  induction values as [|x values IH]; intros valueMap s v H; cbn in *.
  - right. exact H.
  - apply IH in H as [H|H]; [left; right; exact H|].
    destruct (decide (string_of_list_byte x = s)) as [<-|Hne].
    + rewrite lookup_insert_eq in H. injection H as ->. left. left.
      reflexivity.
    + rewrite lookup_insert_ne in H by exact Hne. right. exact H.
Qed.

Lemma MemTable_PrefixScan_iff (prefix : string) (m : MemTable.MemTable)
    (v : list byte) :
  In v (MemTable.PrefixScan prefix m)
  <-> exists key, MemTable.has_prefix prefix key = true
                  /\ MemTable.Get key m = Some v.
Proof.
  unfold MemTable.PrefixScan, MemTable.Get.
  rewrite <- list_elem_of_In.
  change (v ∈ (fun kv : string * Entry => Value kv.2) <$>
                filter (fun kv : string * Entry =>
                          negb (Deleted kv.2)
                          && MemTable.has_prefix prefix kv.1 = true)
                       (map_to_list (MemTable.data m))
          <-> exists key,
                MemTable.has_prefix prefix key = true
                /\ match MemTable.data m !! key with
                   | Some entry =>
                       if Deleted entry then None else Some (Value entry)
                   | None => None
                   end = Some v).
  rewrite list_elem_of_fmap. split.
  - intros ([k entry] & -> & Hin).
    apply list_elem_of_filter in Hin as [Hc Hin].
    apply elem_of_map_to_list in Hin. cbn in *.
    apply andb_true_iff in Hc as [Hd Hp]. apply negb_true_iff in Hd.
    exists k. rewrite Hin, Hd. split; [exact Hp|reflexivity].
  - intros (key & Hp & Hget).
    destruct (MemTable.data m !! key) as [entry|] eqn:He; [|discriminate].
    destruct (Deleted entry) eqn:Hd; [discriminate|].
    injection Hget as <-.
    exists (key, entry). split; [reflexivity|].
    apply list_elem_of_filter. split.
    + cbn. rewrite Hd, Hp. reflexivity.
    + apply elem_of_map_to_list, He.
Qed.

(** X10.  PrefixScan returns exactly the values that some memtable, active
    or immutable, binds to an undeleted key starting with the prefix, each
    value once.  The segments are not consulted, and a value hidden by a
    newer write or delete of its key in another memtable is still
    returned. *)
Theorem PrefixScan_returns_the_memtable_values (prefix : string)
    (e : Engine.Engine) :
  NoDup (Engine.PrefixScan prefix e)
  /\ (forall v,
        In v (Engine.PrefixScan prefix e)
        <-> exists m key,
              In m (Engine.memtable e :: Engine.immutableMemtables e)
              /\ MemTable.has_prefix prefix key = true
              /\ MemTable.Get key m = Some v)
  /\ forall sm,
       Engine.PrefixScan prefix (Engine.set_sstManager e sm)
       = Engine.PrefixScan prefix e.
Proof.
  split; [apply PrefixScan_NoDup|split].
  - intros v. split.
    + unfold Engine.PrefixScan. intros Hin.
      apply in_map_iff in Hin as ([s v'] & Heq & Hin). cbn in Heq. subst v'.
      apply list_elem_of_In, elem_of_map_to_list in Hin.
      apply (collect_lookup_inv _ ∅) in Hin as [Hin|Hin];
        [|rewrite lookup_empty in Hin; discriminate].
      apply in_app_iff in Hin as [Hin|Hin].
      * apply MemTable_PrefixScan_iff in Hin as (key & Hp & Hget).
        exists (Engine.memtable e), key.
        split; [left; reflexivity|split; assumption].
      * apply in_concat in Hin as (vs & Hvs & Hin).
        apply in_map_iff in Hvs as (m & <- & Hm).
        apply MemTable_PrefixScan_iff in Hin as (key & Hp & Hget).
        exists m, key. split; [right; exact Hm|split; assumption].
    + intros (m & key & Hm & Hp & Hget). unfold MemTable.Get in Hget.
      destruct (MemTable.data m !! key) as [entry|] eqn:He; [|discriminate].
      destruct (Deleted entry) eqn:Hd; [discriminate|].
      injection Hget as <-.
      exact (PrefixScan_In prefix key e m entry Hm He Hd Hp).
  - intros sm. destruct e. reflexivity.
Qed.

(** ** The write-ahead log *)

Lemma foldl_Append_contents (es : list WAL.WALEntry) :
  forall w : WAL.WAL,
    WAL.contents (foldl (fun w entry => WAL.Append entry w) w es)
    = WAL.contents w ++ concat (map WAL.encode es).
Proof.
  induction es as [|entry es IH]; intros w; cbn [foldl map concat].
  - symmetry. apply app_nil_r.
  - rewrite IH, Append_contents, <- app_assoc. reflexivity.
Qed.

Lemma Replay_file (w : WAL.WAL) :
  WAL.Replay w = WAL.Replay (WAL.NewWAL (WAL.file w)).
Proof. reflexivity. Qed.

(** X11.  Appending records and syncing is undone by Replay: on a log that
    holds the records [logged], written out or still buffered, appending
    [es] and calling Sync leaves a file from which Replay returns
    [logged ++ es], in this order, whatever the writer flushed on the
    way. *)
Theorem Append_Sync_Replay (w : WAL.WAL) (logged es : list WAL.WALEntry) :
  WAL.contents w = concat (map WAL.encode logged) ->
  Forall WALEntry_wf logged -> Forall WALEntry_wf es ->
  WAL.Replay (WAL.Sync (foldl (fun w entry => WAL.Append entry w) w es))
  = Ok (logged ++ es).
Proof.
  intros Hw Hlogged Hes.
  rewrite Replay_file. unfold WAL.Sync.
  change (WAL.file (WAL.Flush ?x)) with (WAL.contents x).
  rewrite foldl_Append_contents, Hw, <- concat_app, <- map_app.
  apply Replay_whole_records, Forall_app. split; assumption.
Qed.

(* the theorem on the two sample records and an empty log *)
Lemma Append_Sync_Replay_witness :
  WAL.contents (WAL.NewWAL []) = concat (map WAL.encode [])
  /\ Forall WALEntry_wf [rec_a; rec_b]
  /\ WAL.Replay (WAL.Sync (WAL.Append rec_b (WAL.Append rec_a (WAL.NewWAL []))))
     = Ok [rec_a; rec_b].
Proof.
  assert (H0 : WAL.contents (WAL.NewWAL []) = concat (map WAL.encode []))
    by reflexivity.
  assert (Hwf : Forall WALEntry_wf [rec_a; rec_b])
    by (repeat constructor; vm_compute; easy).
  split; [exact H0|split; [exact Hwf|]].
  exact (Append_Sync_Replay (WAL.NewWAL []) [] [rec_a; rec_b] H0
           (Forall_nil_2 _) Hwf).
Defined.

Lemma len_bytes_app (a b : list byte) :
  len_bytes (a ++ b) = len_bytes a + len_bytes b.
Proof. unfold len_bytes. rewrite length_app. lia. Qed.

(* a write that fits the room left in the buffer *)
Lemma Write_buffered (p : list byte) (w : WAL.WAL) :
  len_bytes (WAL.writer w) + len_bytes p <= WAL.bufSize w ->
  WAL.Write p w
  = WAL.mkWAL (WAL.file w) (WAL.writer w ++ p) (WAL.bufSize w).
Proof.
  intros H. unfold WAL.Write, WAL.Available.
  destruct (Z.leb_spec (len_bytes p) (WAL.bufSize w - len_bytes (WAL.writer w)));
    [reflexivity|lia].
Qed.

Lemma WriteByte_buffered (c : byte) (w : WAL.WAL) :
  len_bytes (WAL.writer w) + 1 <= WAL.bufSize w ->
  WAL.WriteByte c w
  = WAL.mkWAL (WAL.file w) (WAL.writer w ++ [c]) (WAL.bufSize w).
Proof.
  intros H. unfold WAL.WriteByte, WAL.Available.
  destruct (Z.leb_spec (WAL.bufSize w - len_bytes (WAL.writer w)) 0);
    [lia|reflexivity].
Qed.

(* an Append whose record fits the room left in the buffer *)
Lemma Append_buffered (entry : WAL.WALEntry) (w : WAL.WAL) :
  len_bytes (WAL.writer w) + len_bytes (WAL.encode entry) <= WAL.bufSize w ->
  WAL.Append entry w
  = let w1 := WAL.mkWAL (WAL.file w) (WAL.writer w ++ WAL.encode entry)
                        (WAL.bufSize w) in
    if len_bytes (WAL.writer w1) >=? WAL.bufSize w1 - 4096
    then WAL.Flush w1 else w1.
Proof.
  intros Hfit. unfold WAL.Append.
  unfold WAL.encode in Hfit |- *.
  change ([WAL.OpType entry] ++ ?x) with (WAL.OpType entry :: x) in Hfit.
  assert (Hone : forall (c : byte) l, len_bytes (c :: l) = 1 + len_bytes l).
  { intros c l. unfold len_bytes. cbn [length]. lia. }
  rewrite Hone, !len_bytes_app in Hfit.
  pose proof (len_bytes_nonneg (IO.Write_int64 (WAL.Timestamp entry))).
  pose proof (len_bytes_nonneg
                (IO.Write_uint32 (uint32 (len_string (WAL.Key entry))))).
  pose proof (len_bytes_nonneg (list_byte_of_string (WAL.Key entry))).
  pose proof (len_bytes_nonneg
                (IO.Write_uint32 (uint32 (len_bytes (WAL.Value entry))))).
  pose proof (len_bytes_nonneg (WAL.Value entry)).
  pose proof (len_bytes_nonneg (WAL.writer w)).
  assert (Hc : len_bytes [WAL.OpType entry] = 1) by reflexivity.
  rewrite WriteByte_buffered by lia.
  rewrite (Write_buffered (IO.Write_int64 _) (WAL.mkWAL _ _ _))
    by (cbn [WAL.writer WAL.bufSize]; rewrite !len_bytes_app; lia).
  cbn [WAL.writer WAL.bufSize WAL.file].
  rewrite (Write_buffered (IO.Write_uint32 (uint32 (len_string _)))
             (WAL.mkWAL _ _ _))
    by (cbn [WAL.writer WAL.bufSize]; rewrite !len_bytes_app; lia).
  cbn [WAL.writer WAL.bufSize WAL.file].
  rewrite (Write_buffered (list_byte_of_string _) (WAL.mkWAL _ _ _))
    by (cbn [WAL.writer WAL.bufSize]; rewrite !len_bytes_app; lia).
  cbn [WAL.writer WAL.bufSize WAL.file].
  rewrite (Write_buffered (IO.Write_uint32 (uint32 (len_bytes _)))
             (WAL.mkWAL _ _ _))
    by (cbn [WAL.writer WAL.bufSize]; rewrite !len_bytes_app; lia).
  cbn [WAL.writer WAL.bufSize WAL.file].
  rewrite (Write_buffered (WAL.Value entry) (WAL.mkWAL _ _ _))
    by (cbn [WAL.writer WAL.bufSize]; rewrite !len_bytes_app; lia).
  cbn [WAL.writer WAL.bufSize WAL.file]. cbn zeta.
  rewrite <- !app_assoc. reflexivity.
Qed.

(** X12.  Group commit.  With less than bufSize - 4096 bytes buffered, a
    record of at most 4096 bytes is never split between the file and the
    buffer.  While the buffered bytes stay below bufSize - 4096 the record
    is only buffered: the file is untouched and Replay does not return the
    record until a Sync.  When they reach that mark the whole buffer, the
    record included, is written to the file.  Either way less than
    bufSize - 4096 bytes are buffered afterwards. *)
Theorem Append_group_commit (entry : WAL.WALEntry) (w : WAL.WAL) :
  4096 < WAL.bufSize w ->
  len_bytes (WAL.writer w) < WAL.bufSize w - 4096 ->
  len_bytes (WAL.encode entry) <= 4096 ->
  let w' := WAL.Append entry w in
  WAL.bufSize w' = WAL.bufSize w
  /\ len_bytes (WAL.writer w') < WAL.bufSize w' - 4096
  /\ (len_bytes (WAL.writer w) + len_bytes (WAL.encode entry)
        < WAL.bufSize w - 4096 ->
      WAL.file w' = WAL.file w
      /\ WAL.writer w' = WAL.writer w ++ WAL.encode entry
      /\ WAL.Replay w' = WAL.Replay w)
  /\ (WAL.bufSize w - 4096
        <= len_bytes (WAL.writer w) + len_bytes (WAL.encode entry) ->
      WAL.file w' = WAL.file w ++ WAL.writer w ++ WAL.encode entry
      /\ WAL.writer w' = []).
Proof.
  intros Hbuf Hinv Hsmall w'. subst w'.
  rewrite Append_buffered by lia. cbn zeta.
  cbn [WAL.writer WAL.bufSize]. rewrite len_bytes_app.
  destruct (Z.geb_spec (len_bytes (WAL.writer w)
                        + len_bytes (WAL.encode entry))
                       (WAL.bufSize w - 4096)) as [Hfull|Hroom].
  - unfold WAL.Flush. cbn [WAL.writer WAL.bufSize WAL.file].
    split; [reflexivity|].
    split; [change (len_bytes []) with 0; lia|].
    split; [intros; lia|]. intros _. split; reflexivity.
  - cbn [WAL.writer WAL.bufSize WAL.file]. rewrite len_bytes_app.
    split; [reflexivity|]. split; [lia|].
    split; [|intros; lia]. intros _. repeat split; reflexivity.
Qed.

(* the theorem on the first record of a new log *)
Lemma Append_group_commit_witness :
  4096 < WAL.bufSize (WAL.NewWAL [])
  /\ len_bytes (WAL.encode rec_a) <= 4096
  /\ WAL.file (WAL.Append rec_a (WAL.NewWAL [])) = []
  /\ WAL.Replay (WAL.Append rec_a (WAL.NewWAL [])) = Ok []
  /\ WAL.Replay (WAL.Sync (WAL.Append rec_a (WAL.NewWAL []))) = Ok [rec_a].
Proof.
  assert (H1 : 4096 < WAL.bufSize (WAL.NewWAL []))
    by (vm_compute; reflexivity).
  assert (H2 : len_bytes (WAL.writer (WAL.NewWAL []))
               < WAL.bufSize (WAL.NewWAL []) - 4096)
    by (vm_compute; reflexivity).
  assert (H3 : len_bytes (WAL.encode rec_a) <= 4096)
    by (vm_compute; discriminate).
  assert (H4 : len_bytes (WAL.writer (WAL.NewWAL []))
               + len_bytes (WAL.encode rec_a)
               < WAL.bufSize (WAL.NewWAL []) - 4096)
    by (vm_compute; reflexivity).
  destruct (Append_group_commit rec_a (WAL.NewWAL []) H1 H2 H3)
    as (_ & _ & Hbuffered & _).
  destruct (Hbuffered H4) as (Hfile & _ & Hreplay).
  split; [exact H1|split; [exact H3|split; [exact Hfile|split]]].
  - rewrite Hreplay. vm_compute. reflexivity.
  - vm_compute. reflexivity.
Defined.

(** ** The order of keys *)

Lemma Ascii_compare_N (a b : ascii) :
  Ascii.compare a b = N.compare (N_of_ascii a) (N_of_ascii b).
Proof. reflexivity. Qed.

(* the two orders the code compares keys with are one order: < on
   strings is the comparison of their bytes, first difference first *)
Lemma ltb_Lt (a : string) :
  forall b, String.ltb a b = true <-> String.compare a b = Lt.
Proof.
  induction a as [|x a IH]; intros [|y b]; cbn; try (split; congruence).
  destruct (Ascii.eqb_spec x y) as [->|Hne].
  - rewrite Ascii_compare_N, N.compare_refl. apply IH.
  - unfold String.Ascii.ltb, N.ltb. rewrite Ascii_compare_N.
    destruct (N.compare (N_of_ascii x) (N_of_ascii y)) eqn:Hc;
      try (split; congruence).
    exfalso. apply Hne, Ascii.compare_eq_iff. rewrite Ascii_compare_N.
    exact Hc.
Qed.

Lemma ltb_trans (a b c : string) :
  String.ltb a b = true -> String.ltb b c = true -> String.ltb a c = true.
Proof. apply String.ltb_trans. Qed.

Lemma ltb_irrefl (a : string) : String.ltb a a = false.
Proof. apply String.ltb_antirefl. Qed.

Lemma ltb_asym (a b : string) :
  String.ltb a b = true -> String.ltb b a = false.
Proof.
  intros Hab. destruct (String.ltb b a) eqn:Hba; [|reflexivity].
  rewrite <- (ltb_irrefl a). symmetry. eapply ltb_trans; eassumption.
Qed.

Lemma ltb_total (a b : string) :
  String.ltb a b = false -> a = b \/ String.ltb b a = true.
Proof.
  intros Hab. destruct (String.ltb b a) eqn:Hba; [right; reflexivity|].
  left. apply String.ltb_total; assumption.
Qed.

Lemma ltb_leb_trans (a b c : string) :
  String.ltb a b = true -> String.leb b c = true -> String.ltb a c = true.
Proof.
  intros Hab Hbc. unfold String.leb in Hbc.
  destruct (String.compare b c) eqn:Hc; [| |discriminate].
  - apply String.compare_eq_iff in Hc as <-. exact Hab.
  - eapply ltb_trans; [exact Hab|]. apply ltb_Lt, Hc.
Qed.

Lemma ltb_neq (a b : string) : String.ltb a b = true -> a <> b.
Proof. intros H ->. rewrite ltb_irrefl in H. discriminate. Qed.

(** ** Sorted records *)

Lemma insert_by_ascending (x : Entry) (l : list Entry) :
  ascending l -> ~ In (Key x) (map Key l) ->
  ascending (insert_by key_less x l).
Proof.
  induction l as [|y l IH]; intros Hasc Hnew; cbn [insert_by].
  - cbn. split; [constructor|exact I].
  - destruct Hasc as [Hy Hasc]. unfold key_less at 1.
    destruct (String.ltb (Key y) (Key x)) eqn:Hyx.
    + cbn [ascending]. split.
      * rewrite insert_by_Permutation. constructor; assumption.
      * apply IH; [exact Hasc|]. intros Hin. apply Hnew. right. exact Hin.
    + apply ltb_total in Hyx as [Heq|Hxy].
      { exfalso. apply Hnew. left. exact Heq. }
      cbn [ascending]. split; [|split; assumption].
      constructor; [exact Hxy|].
      eapply Forall_impl; [exact Hy|].
      intros e He. cbn in He. eapply ltb_trans; eassumption.
Qed.

Lemma sort_by_ascending (l : list Entry) :
  NoDup (map Key l) -> ascending (sort_by key_less l).
Proof.
  induction l as [|x l IH]; intros Hnd; [exact I|].
  apply NoDup_cons in Hnd as [Hx Hnd].
  unfold sort_by. cbn [foldr]. apply insert_by_ascending.
  - apply IH, Hnd.
  - intros Hin. apply Hx, list_elem_of_In.
    apply in_map_iff in Hin as (e & He & Hin). apply in_map_iff.
    exists e. split; [exact He|].
    eapply Permutation_in; [apply (sort_by_Permutation key_less l)|exact Hin].
Qed.

Lemma ascending_app (l1 l2 : list Entry) :
  ascending (l1 ++ l2)
  <-> ascending l1 /\ ascending l2
      /\ forall a b, In a l1 -> In b l2 -> String.ltb (Key a) (Key b) = true.
Proof.
  induction l1 as [|x l1 IH]; cbn [app ascending].
  - split; [intros H; repeat split; [exact H|intros a b []]|tauto].
  - rewrite IH, Forall_app, !Forall_forall. split.
    + intros ((H1 & H2) & Ha1 & Ha2 & Hc). repeat split; try assumption.
      intros a b [<-|Ha] Hb; [apply H2, list_elem_of_In, Hb|apply Hc; assumption].
    + intros ((H1 & Ha1) & Ha2 & Hc). repeat split; try assumption.
      * intros b Hb. apply Hc; [left; reflexivity|apply list_elem_of_In, Hb].
      * intros a b Ha Hb. apply Hc; [right; exact Ha|exact Hb].
Qed.

Lemma segment_lookup_In (es : list Entry) (e : Entry) :
  ascending es -> In e es ->
  segment_lookup (Key e) es = if Deleted e then None else Some (Value e).
Proof.
  unfold segment_lookup.
  induction es as [|x es IH]; intros Hasc Hin; [destruct Hin|].
  destruct Hasc as [Hx Hasc]. cbn [find].
  destruct (String.eqb_spec (Key x) (Key e)) as [Heq|Hne].
  - destruct Hin as [->|Hin]; [reflexivity|].
    rewrite Forall_forall in Hx. apply list_elem_of_In, Hx in Hin.
    rewrite Heq, ltb_irrefl in Hin. discriminate.
  - destruct Hin as [->|Hin]; [congruence|]. apply IH; assumption.
Qed.

Lemma segment_lookup_absent (key : string) (es : list Entry) :
  ~ In key (map Key es) -> segment_lookup key es = None.
Proof.
  unfold segment_lookup. induction es as [|x es IH]; intros Hnot;
    [reflexivity|].
  cbn [find]. destruct (String.eqb_spec (Key x) key) as [Heq|Hne].
  - exfalso. apply Hnot. left. exact Heq.
  - apply IH. intros Hin. apply Hnot. right. exact Hin.
Qed.

(* records whose keys differ from the key looked up are skipped *)
Lemma segment_lookup_skip (key : string) (pre suf : list Entry) :
  Forall (fun e => Key e <> key) pre ->
  segment_lookup key (pre ++ suf) = segment_lookup key suf.
Proof.
  unfold segment_lookup. induction pre as [|x pre IH]; intros Hpre;
    [reflexivity|].
  apply Forall_cons in Hpre as [Hx Hpre]. cbn [app find].
  destruct (String.eqb_spec (Key x) key) as [Heq|_]; [congruence|].
  apply IH, Hpre.
Qed.

(** ** The scan of a segment *)

Lemma getFromSST_loop_scan (key : string) (es : list Entry) :
  ascending es -> Forall Entry_wf es ->
  forall fuel, (length es < fuel)%nat ->
    SST.getFromSST_loop fuel (concat (map SST.encode es)) key
    = Ok (segment_lookup key es).
Proof.
  induction es as [|e es IH]; intros Hasc Hwf fuel Hfuel.
  - destruct fuel as [|fuel]; [cbn in Hfuel; lia|]. reflexivity.
  - destruct fuel as [|fuel]; [cbn in Hfuel; lia|].
    destruct Hasc as [He Hasc].
    apply Forall_cons in Hwf as [Hwfe Hwf].
    cbn [map concat SST.getFromSST_loop].
    destruct (SST_read_record e (concat (map SST.encode es)) Hwfe)
      as [H1 H2].
    rewrite H1, H2. unfold segment_lookup. cbn [find].
    destruct (String.eqb_spec (Key e) key) as [Heq|Hne];
      [destruct (Deleted e); reflexivity|].
    destruct (String.ltb key (Key e)) eqn:Hlt.
    + fold (segment_lookup key es). rewrite segment_lookup_absent;
        [reflexivity|].
      intros Hin. apply in_map_iff in Hin as (e' & <- & Hin).
      rewrite Forall_forall in He. apply list_elem_of_In, He in Hin.
      pose proof (ltb_trans _ _ _ Hlt Hin) as Hbad.
      rewrite ltb_irrefl in Hbad. discriminate.
    + apply IH; [exact Hasc|exact Hwf|cbn in Hfuel; lia].
Qed.

Lemma startOffset_entry (index : gmap string Z) (key : string) :
  SST.startOffset index key = 0
  \/ exists k, index !! k = Some (SST.startOffset index key)
               /\ String.leb k key = true.
Proof.
  unfold SST.startOffset.
  apply (map_fold_weak_ind
           (fun acc (m : gmap string Z) =>
              acc = 0 \/ exists k, m !! k = Some acc
                                   /\ String.leb k key = true)).
  - left. reflexivity.
  - intros k off m acc Hk IH.
    assert (Hkeep : acc = 0 \/ exists k0, <[k := off]> m !! k0 = Some acc
                                          /\ String.leb k0 key = true).
    { destruct IH as [IH|(k0 & Hk0 & Hle)]; [left; exact IH|right].
      exists k0. split; [|exact Hle].
      rewrite lookup_insert_ne; [exact Hk0|]. congruence. }
    destruct (String.leb k key) eqn:Hle; [|exact Hkeep].
    destruct (off >? acc); [|exact Hkeep].
    right. exists k. split; [apply lookup_insert_eq|exact Hle].
Qed.

Lemma length_concat_encode_app (pre suf : list Entry) :
  concat (map SST.encode (pre ++ suf))
  = concat (map SST.encode pre) ++ concat (map SST.encode suf).
Proof. rewrite map_app, concat_app. reflexivity. Qed.

(* getFromSST on a file of ascending records under a sparse index *)
Lemma getFromSST_lookup (dir : gmap Z (list byte)) (sst : SST.SSTable)
    (es : list Entry) (key : string) :
  dir !! SST.FilePath sst = Some (concat (map SST.encode es)) ->
  index_of es (SST.Index sst) ->
  ascending es -> Forall Entry_wf es ->
  SST.getFromSST dir sst key = Ok (segment_lookup key es).
Proof.
  intros Hfile Hindex Hasc Hwf. unfold SST.getFromSST. rewrite Hfile.
  destruct (startOffset_entry (SST.Index sst) key) as [->|(k & Hk & Hle)].
  - change (Z.to_nat 0) with 0%nat. rewrite drop_0.
    apply getFromSST_loop_scan; try assumption.
    pose proof (SST_file_length es). lia.
  - destruct (Hindex _ _ Hk) as (pre & e & suf & -> & <- & ->).
    unfold len_bytes. rewrite Nat2Z.id, length_concat_encode_app.
    rewrite drop_app_length.
    apply ascending_app in Hasc as (_ & Hsuf & Hcross).
    apply Forall_app in Hwf as [_ Hwf].
    rewrite getFromSST_loop_scan;
      [|exact Hsuf|exact Hwf|pose proof (SST_file_length (e :: suf)); lia].
    rewrite segment_lookup_skip; [reflexivity|].
    apply Forall_forall. intros x Hx. apply list_elem_of_In in Hx.
    apply ltb_neq. eapply ltb_leb_trans; [|exact Hle].
    apply Hcross; [exact Hx|left; reflexivity].
Qed.

(** ** Flushing a segment *)

Lemma SST_encode_len (e : Entry) :
  len_bytes (SST.encode e) = 17 + len_string (Key e) + len_bytes (Value e).
Proof.
  unfold len_bytes, len_string, SST.encode, IO.Write_int64, IO.Write_uint32.
  rewrite !length_app, !length_le_split, length_list_byte_of_string.
  cbn [length]. lia.
Qed.

Lemma len_file_snoc (pre : list Entry) (e : Entry) :
  len_bytes (concat (map SST.encode (pre ++ [e])))
  = len_bytes (concat (map SST.encode pre)) + len_bytes (SST.encode e).
Proof.
  rewrite length_concat_encode_app, len_bytes_app. cbn [map concat].
  rewrite app_nil_r. reflexivity.
Qed.

Lemma len_file_app_le (pre suf : list Entry) :
  len_bytes (concat (map SST.encode pre))
  <= len_bytes (concat (map SST.encode (pre ++ suf))).
Proof.
  rewrite length_concat_encode_app, len_bytes_app.
  pose proof (len_bytes_nonneg (concat (map SST.encode suf))). lia.
Qed.

Lemma len_file_Permutation (l l' : list Entry) :
  l ≡ₚ l' ->
  len_bytes (concat (map SST.encode l))
  = len_bytes (concat (map SST.encode l')).
Proof.
  induction 1 as [|x l l' _ IH|x y l|l l' l'' _ IH1 _ IH2];
    cbn [map concat]; rewrite ?len_bytes_app; lia.
Qed.

(* the offset Flush reaches and the index it builds over the records it
   writes after [pre] *)
Lemma Flush_loop_index (entries : list Entry) :
  forall (i : nat) (offset : Z) (index : gmap string Z) (pre : list Entry),
    Forall Entry_wf entries ->
    offset = len_bytes (concat (map SST.encode pre)) ->
    len_bytes (concat (map SST.encode (pre ++ entries))) < 2 ^ 63 ->
    index_of (pre ++ entries) index ->
    index_of (pre ++ entries) (SST.Flush_loop i offset index entries).2
    /\ (SST.Flush_loop i offset index entries).1.2
       = len_bytes (concat (map SST.encode (pre ++ entries))).
Proof.
  induction entries as [|e rest IH]; intros i offset index pre Hwf Hoff Hlen Hidx.
  - cbn [SST.Flush_loop fst snd]. rewrite app_nil_r in *.
    split; [exact Hidx|exact Hoff].
  - apply Forall_cons in Hwf as [(Hts & Hk & Hv) Hwf].
    cbn [SST.Flush_loop].
    set (offset' := int64 (int64 (int64 (int64 (int64 (int64 (offset + 8) + 1)
                                                 + 4)
                                          + uint32 (len_string (Key e)))
                                   + 4)
                            + uint32 (len_bytes (Value e)))).
    set (index' := if (i mod 10 =? 0)%nat then <[Key e := offset]> index
                   else index).
    assert (Hpre : pre ++ e :: rest = (pre ++ [e]) ++ rest)
      by (rewrite <- app_assoc; reflexivity).
    pose proof (len_file_app_le (pre ++ [e]) rest) as Hle.
    rewrite <- Hpre in Hle. rewrite len_file_snoc, SST_encode_len in Hle.
    pose proof (len_bytes_nonneg (concat (map SST.encode pre))) as H0.
    pose proof (len_string_nonneg (Key e)) as Hk0.
    pose proof (len_bytes_nonneg (Value e)) as Hv0.
    assert (Hoff' : offset' = len_bytes (concat (map SST.encode (pre ++ [e])))).
    { subst offset'. rewrite len_file_snoc, SST_encode_len.
      rewrite !uint32_small by lia.
      rewrite (int64_small (offset + 8)) by lia.
      rewrite (int64_small (offset + 8 + 1)) by lia.
      rewrite (int64_small (offset + 8 + 1 + 4)) by lia.
      rewrite (int64_small (offset + 8 + 1 + 4 + _)) by lia.
      rewrite (int64_small (offset + 8 + 1 + 4 + _ + 4)) by lia.
      rewrite int64_small by lia. lia. }
    assert (Hidx' : index_of ((pre ++ [e]) ++ rest) index').
    { rewrite <- Hpre. subst index'.
      destruct (i mod 10 =? 0)%nat; [|exact Hidx].
      intros k off. destruct (decide (Key e = k)) as [<-|Hne].
      - rewrite lookup_insert_eq. intros [= <-].
        exists pre, e, rest. repeat split. exact Hoff.
      - rewrite lookup_insert_ne by exact Hne. apply Hidx. }
    rewrite Hpre in Hlen |- *.
    destruct (IH (S i) offset' index' (pre ++ [e]) Hwf Hoff' Hlen Hidx')
      as [IH1 IH2].
    destruct (SST.Flush_loop (S i) offset' index' rest) as [[bs off] idx].
    cbn [fst snd] in *. split; assumption.
Qed.

(* the first and the last of ascending records bound the keys *)
Lemma ascending_head (e : Entry) (es : list Entry) (x : Entry) :
  ascending (e :: es) -> In x (e :: es) ->
  String.ltb (Key x) (Key e) = false.
Proof.
  intros [He _] [<-|Hin]; [apply ltb_irrefl|].
  rewrite Forall_forall in He. apply ltb_asym, He, list_elem_of_In, Hin.
Qed.

Lemma ascending_last (es : list Entry) (l x : Entry) :
  ascending es -> last es = Some l -> In x es ->
  String.ltb (Key l) (Key x) = false.
Proof.
  intros Hasc Hlast Hin. apply last_Some in Hlast as [es' ->].
  apply ascending_app in Hasc as (_ & _ & Hcross).
  apply in_app_iff in Hin as [Hin|[<-|[]]]; [|apply ltb_irrefl].
  apply ltb_asym, Hcross; [exact Hin|left; reflexivity].
Qed.

Lemma segment_lookup_Some (key : string) (es : list Entry) (v : list byte) :
  segment_lookup key es = Some v ->
  exists e, In e es /\ Key e = key /\ Deleted e = false /\ Value e = v.
Proof.
  unfold segment_lookup.
  destruct (find _ es) as [e|] eqn:Hfind; [|discriminate].
  apply find_some in Hfind as [Hin Heq]. apply String.eqb_eq in Heq.
  destruct (Deleted e) eqn:Hd; [discriminate|]. intros [= <-]. eauto.
Qed.

(* what Flush registers for a slice of records with pairwise distinct
   keys: the file holds them in ascending order, the index points at
   records of the file, MinKey and MaxKey are the first and the last key *)
Lemma Flush_segment (entries : list Entry) (sm : SST.SSTManager) :
  entries <> [] -> NoDup (map Key entries) ->
  Forall Entry_wf entries ->
  len_bytes (concat (map SST.encode entries)) < 2 ^ 63 ->
  let sorted := sort_by key_less entries in
  let file := concat (map SST.encode sorted) in
  exists sst,
    SST.Flush entries sm
    = SST.mkSSTManager (sst :: SST.sstables sm)
        (<[SST.nextID sm := file]> (SST.dataDir sm))
        (int64 (SST.nextID sm + 1))
    /\ SST.ID sst = SST.nextID sm /\ SST.FilePath sst = SST.nextID sm
    /\ index_of sorted (SST.Index sst)
    /\ SST.MinKey sst = default "" (Key <$> head sorted)
    /\ SST.MaxKey sst = default "" (Key <$> last sorted)
    /\ SST.Size sst = len_bytes file
    /\ ascending sorted /\ Forall Entry_wf sorted /\ sorted ≡ₚ entries.
Proof.
  intros Hne Hnd Hwf Hlen sorted file.
  assert (Hperm : sorted ≡ₚ entries) by apply sort_by_Permutation.
  assert (Hwf' : Forall Entry_wf sorted) by (rewrite Hperm; exact Hwf).
  assert (Hlen' : len_bytes (concat (map SST.encode ([] ++ sorted))) < 2 ^ 63)
    by (cbn [app]; rewrite (len_file_Permutation _ _ Hperm); exact Hlen).
  assert (Hidx0 : index_of ([] ++ sorted) ∅).
  { intros k off H. rewrite lookup_empty in H. discriminate. }
  destruct (Flush_loop_index sorted 0 0 ∅ [] Hwf' eq_refl Hlen' Hidx0)
    as [Hidx Hoff].
  pose proof (Flush_loop_bytes sorted 0%nat 0 ∅) as Hbytes.
  unfold SST.Flush. destruct entries as [|e0 entries0]; [congruence|].
  fold sorted.
  destruct (SST.Flush_loop 0 0 ∅ sorted) as [[bs off] idx].
  cbn [fst snd app] in *. subst bs off.
  eexists. split; [reflexivity|]. cbn [SST.ID SST.FilePath SST.Index
                                       SST.MinKey SST.MaxKey SST.Size].
  repeat split; try assumption; try reflexivity.
  apply sort_by_ascending, Hnd.
Qed.

(* segments written earlier are read from the same files after a Flush *)
Lemma getFromSST_other_file (dir : gmap Z (list byte)) (id : Z)
    (f : list byte) (s : SST.SSTable) (key : string) :
  SST.FilePath s <> id ->
  SST.getFromSST (<[id := f]> dir) s key = SST.getFromSST dir s key.
Proof.
  intros Hne. unfold SST.getFromSST.
  rewrite lookup_insert_ne by congruence. reflexivity.
Qed.

Lemma Get_loop_other_file (dir : gmap Z (list byte)) (id : Z)
    (f : list byte) (tables : list SST.SSTable) (key : string) :
  Forall (fun s => SST.FilePath s <> id) tables ->
  SST.Get_loop (<[id := f]> dir) tables key = SST.Get_loop dir tables key.
Proof.
  induction 1 as [|s tables Hs _ IH]; [reflexivity|].
  cbn [SST.Get_loop]. rewrite IH, getFromSST_other_file by exact Hs.
  reflexivity.
Qed.

Lemma SSTManager_wf_files (sm : SST.SSTManager) :
  SSTManager_wf sm ->
  Forall (fun s => SST.FilePath s <> SST.nextID sm) (SST.sstables sm).
Proof.
  intros [_ Hall]. eapply Forall_impl; [exact Hall|].
  intros s [Hlt Hpath]. cbn in *. lia.
Qed.

(* Get over the registry after a Flush: the new segment answers for the
   keys it holds undeleted, the older segments for all other keys *)
Lemma Flush_Get (entries : list Entry) (sm : SST.SSTManager) (key : string) :
  entries <> [] -> NoDup (map Key entries) ->
  Forall Entry_wf entries ->
  len_bytes (concat (map SST.encode entries)) < 2 ^ 63 ->
  SSTManager_wf sm ->
  SST.Get key (SST.Flush entries sm)
  = match segment_lookup key (sort_by key_less entries) with
    | Some value => Ok (Some value)
    | None => SST.Get key sm
    end.
Proof.
  intros Hne Hnd Hwf Hlen Hsm.
  destruct (Flush_segment entries sm Hne Hnd Hwf Hlen)
    as (sst & -> & Hid & Hpath & Hidx & Hmin & Hmax & _ & Hasc & Hwf' & Hperm).
  unfold SST.Get. cbn [SST.dataDir SST.sstables SST.Get_loop].
  rewrite (Get_loop_other_file _ _ _ _ key (SSTManager_wf_files sm Hsm)).
  set (sorted := sort_by key_less entries) in *.
  destruct (String.ltb key (SST.MinKey sst) || String.ltb (SST.MaxKey sst) key)
    eqn:Hrange.
  - destruct (segment_lookup key sorted) as [v|] eqn:Hlook; [|reflexivity].
    exfalso. apply segment_lookup_Some in Hlook as (e & Hin & <- & _ & _).
    apply orb_true_iff in Hrange as [Hlow|Hhigh].
    + destruct sorted as [|h t] eqn:Hs; [destruct Hin|].
      cbn in Hmin. rewrite Hmin in Hlow.
      rewrite (ascending_head h t e Hasc Hin) in Hlow. discriminate.
    + destruct (last sorted) as [l|] eqn:Hl.
      * cbn in Hmax. rewrite Hmax in Hhigh.
        rewrite (ascending_last sorted l e Hasc Hl Hin) in Hhigh.
        discriminate.
      * apply last_None in Hl. rewrite Hl in Hin. destruct Hin.
  - rewrite (getFromSST_lookup _ sst sorted key);
      [|rewrite Hpath; apply lookup_insert_eq|exact Hidx|exact Hasc|exact Hwf'].
    destruct (segment_lookup key sorted); reflexivity.
Qed.

Lemma segment_lookup_sorted_In (entries : list Entry) (e : Entry) :
  NoDup (map Key entries) -> In e entries ->
  segment_lookup (Key e) (sort_by key_less entries)
  = if Deleted e then None else Some (Value e).
Proof.
  intros Hnd Hin. apply segment_lookup_In; [apply sort_by_ascending, Hnd|].
  eapply Permutation_in; [symmetry; apply sort_by_Permutation|exact Hin].
Qed.

Lemma segment_lookup_sorted_absent (entries : list Entry) (key : string) :
  ~ In key (map Key entries) ->
  segment_lookup key (sort_by key_less entries) = None.
Proof.
  intros Hnot. apply segment_lookup_absent. intros Hin. apply Hnot.
  eapply Permutation_in; [|exact Hin].
  apply Permutation_map, sort_by_Permutation.
Qed.

(** X13.  The sparse index is sound: in the segment Flush writes for
    records with pairwise distinct keys, getFromSST (which starts its scan
    at an offset taken from the index and stops at the first greater key)
    answers for every key as a scan of the whole file would: the value of
    the record of the key, nothing for a tombstone and for a key the
    segment does not hold. *)
Theorem getFromSST_after_Flush (entries : list Entry) (sm : SST.SSTManager) :
  entries <> [] -> NoDup (map Key entries) ->
  Forall Entry_wf entries ->
  len_bytes (concat (map SST.encode entries)) < 2 ^ 63 ->
  let sm' := SST.Flush entries sm in
  exists sst,
    SST.sstables sm' = sst :: SST.sstables sm
    /\ SST.ID sst = SST.nextID sm
    /\ (forall e, In e entries ->
          SST.getFromSST (SST.dataDir sm') sst (Key e)
          = Ok (if Deleted e then None else Some (Value e)))
    /\ (forall key, ~ In key (map Key entries) ->
          SST.getFromSST (SST.dataDir sm') sst key = Ok None).
Proof.
  intros Hne Hnd Hwf Hlen sm'. subst sm'.
  destruct (Flush_segment entries sm Hne Hnd Hwf Hlen)
    as (sst & -> & Hid & Hpath & Hidx & _ & _ & _ & Hasc & Hwf' & Hperm).
  exists sst. cbn [SST.sstables SST.dataDir].
  assert (Hget : forall key,
            SST.getFromSST
              (<[SST.nextID sm :=
                   concat (map SST.encode (sort_by key_less entries))]>
                 (SST.dataDir sm)) sst key
            = Ok (segment_lookup key (sort_by key_less entries))).
  { intros key. apply getFromSST_lookup; try assumption.
    rewrite Hpath. apply lookup_insert_eq. }
  split; [reflexivity|split; [exact Hid|split]].
  - intros e Hin. rewrite Hget, segment_lookup_sorted_In by assumption.
    reflexivity.
  - intros key Hnot. rewrite Hget, segment_lookup_sorted_absent by assumption.
    reflexivity.
Qed.

(* the theorem on a cohort of two records, written as the first segment *)
Lemma getFromSST_after_Flush_witness :
  [mkEntry "k" (bytes "old") 10 false; mkEntry "d" (bytes "x") 11 false] <> []
  /\ NoDup (map Key [mkEntry "k" (bytes "old") 10 false;
                          mkEntry "d" (bytes "x") 11 false])
  /\ Forall Entry_wf [mkEntry "k" (bytes "old") 10 false;
                      mkEntry "d" (bytes "x") 11 false]
  /\ exists sst,
       SST.sstables
         (SST.Flush [mkEntry "k" (bytes "old") 10 false;
                     mkEntry "d" (bytes "x") 11 false]
            (SST.mkSSTManager [] ∅ 1)) = [sst]
       /\ SST.getFromSST
            (SST.dataDir
               (SST.Flush [mkEntry "k" (bytes "old") 10 false;
                           mkEntry "d" (bytes "x") 11 false]
                  (SST.mkSSTManager [] ∅ 1))) sst "d"
          = Ok (Some (bytes "x")).
Proof.
  assert (H1 : [mkEntry "k" (bytes "old") 10 false;
                mkEntry "d" (bytes "x") 11 false] <> []) by discriminate.
  assert (H2 : NoDup (map Key [mkEntry "k" (bytes "old") 10 false;
                                    mkEntry "d" (bytes "x") 11 false])).
  { apply (bool_decide_unpack _). vm_compute. exact I. }
  assert (H3 : Forall Entry_wf [mkEntry "k" (bytes "old") 10 false;
                                mkEntry "d" (bytes "x") 11 false])
    by (repeat constructor; vm_compute; easy).
  assert (H4 : len_bytes (concat (map SST.encode
                                    [mkEntry "k" (bytes "old") 10 false;
                                     mkEntry "d" (bytes "x") 11 false]))
               < 2 ^ 63) by (vm_compute; reflexivity).
  split; [exact H1|split; [exact H2|split; [exact H3|]]].
  destruct (getFromSST_after_Flush _ (SST.mkSSTManager [] ∅ 1) H1 H2 H3 H4)
    as (sst & Htables & _ & Hget & _).
  exists sst. split; [exact Htables|].
  apply (Hget (mkEntry "d" (bytes "x") 11 false)). right. left. reflexivity.
Defined.

(** X14.  Get over the segments after a Flush of records with pairwise
    distinct keys: a key the flushed records hold undeleted is answered
    with its value from the new segment, which is asked first; every other
    key, a key the new segment holds as a tombstone included, is answered
    by the older segments as before the Flush. *)
Theorem SST_Get_after_Flush (entries : list Entry) (sm : SST.SSTManager) :
  entries <> [] -> NoDup (map Key entries) ->
  Forall Entry_wf entries ->
  len_bytes (concat (map SST.encode entries)) < 2 ^ 63 ->
  SSTManager_wf sm ->
  (forall e, In e entries -> Deleted e = false ->
     SST.Get (Key e) (SST.Flush entries sm) = Ok (Some (Value e)))
  /\ (forall e, In e entries -> Deleted e = true ->
        SST.Get (Key e) (SST.Flush entries sm) = SST.Get (Key e) sm)
  /\ (forall key, ~ In key (map Key entries) ->
        SST.Get key (SST.Flush entries sm) = SST.Get key sm).
Proof.
  intros Hne Hnd Hwf Hlen Hsm. repeat split.
  - intros e Hin Hlive.
    rewrite Flush_Get, segment_lookup_sorted_In, Hlive by assumption.
    reflexivity.
  - intros e Hin Hdead.
    rewrite Flush_Get, segment_lookup_sorted_In, Hdead by assumption.
    reflexivity.
  - intros key Hnot.
    rewrite Flush_Get, segment_lookup_sorted_absent by assumption.
    reflexivity.
Qed.

(* the theorem on a tombstone flushed over a segment that holds the key *)
Lemma SST_Get_after_Flush_witness :
  [mkEntry "d" [] 30 true] <> []
  /\ SSTManager_wf (SST.Flush [mkEntry "d" (bytes "x") 11 false]
                      (SST.mkSSTManager [] ∅ 1))
  /\ SST.Get "d"
       (SST.Flush [mkEntry "d" [] 30 true]
          (SST.Flush [mkEntry "d" (bytes "x") 11 false]
             (SST.mkSSTManager [] ∅ 1)))
     = Ok (Some (bytes "x")).
Proof.
  assert (H1 : [mkEntry "d" [] 30 true] <> []) by discriminate.
  assert (H2 : NoDup (map Key [mkEntry "d" [] 30 true])).
  { apply (bool_decide_unpack _). vm_compute. exact I. }
  assert (H3 : Forall Entry_wf [mkEntry "d" [] 30 true])
    by (repeat constructor; vm_compute; easy).
  assert (H4 : len_bytes (concat (map SST.encode [mkEntry "d" [] 30 true]))
               < 2 ^ 63) by (vm_compute; reflexivity).
  assert (H5 : SSTManager_wf (SST.Flush [mkEntry "d" (bytes "x") 11 false]
                                (SST.mkSSTManager [] ∅ 1))).
  { apply Flush_wf; [|vm_compute; reflexivity|vm_compute; discriminate].
    split; [constructor|constructor]. }
  split; [exact H1|split; [exact H5|]].
  destruct (SST_Get_after_Flush _ _ H1 H2 H3 H4 H5) as (_ & Hdead & _).
  pose proof (Hdead (mkEntry "d" [] 30 true) (or_introl eq_refl) eq_refl)
    as Hd.
  cbn [Key] in Hd. rewrite Hd. vm_compute. reflexivity.
Defined.

(** ** Flushing a memtable *)

Lemma Entries_keys (m : MemTable.MemTable) :
  (forall k entry, MemTable.data m !! k = Some entry -> Key entry = k) ->
  map Key (MemTable.Entries m) = map fst (map_to_list (MemTable.data m)).
Proof.
  intros Hkeys. unfold MemTable.Entries. rewrite map_map.
  apply map_ext_in. intros [k entry] Hin.
  apply list_elem_of_In, elem_of_map_to_list in Hin. cbn.
  apply Hkeys, Hin.
Qed.

Lemma Entries_In (m : MemTable.MemTable) (entry : Entry) :
  In entry (MemTable.Entries m)
  <-> exists k, MemTable.data m !! k = Some entry.
Proof.
  unfold MemTable.Entries. rewrite in_map_iff. split.
  - intros ([k x] & <- & Hin).
    apply list_elem_of_In, elem_of_map_to_list in Hin. eauto.
  - intros [k Hk]. exists (k, entry). split; [reflexivity|].
    apply list_elem_of_In, elem_of_map_to_list, Hk.
Qed.

(* the records of a memtable, sorted for the segment, answer as the
   memtable does *)
Lemma segment_lookup_Entries (m : MemTable.MemTable) (key : string) :
  (forall k entry, MemTable.data m !! k = Some entry -> Key entry = k) ->
  NoDup (map Key (MemTable.Entries m))
  /\ segment_lookup key (sort_by key_less (MemTable.Entries m))
     = MemTable.Get key m.
Proof.
  intros Hkeys.
  assert (Hnd : NoDup (map Key (MemTable.Entries m))).
  { rewrite Entries_keys by exact Hkeys. apply NoDup_fst_map_to_list. }
  split; [exact Hnd|]. unfold MemTable.Get.
  destruct (MemTable.data m !! key) as [entry|] eqn:He.
  - rewrite <- (Hkeys _ _ He).
    apply segment_lookup_sorted_In; [exact Hnd|].
    apply Entries_In. eauto.
  - apply segment_lookup_sorted_absent.
    rewrite Entries_keys by exact Hkeys.
    rewrite In_fst_map_to_list, He. intros [? ?]. discriminate.
Qed.

Lemma Entries_nil (m : MemTable.MemTable) (key : string) :
  MemTable.Entries m = [] -> MemTable.Get key m = None.
Proof.
  unfold MemTable.Entries, MemTable.Get. intros H.
  apply map_eq_nil, map_to_list_empty_iff in H. rewrite H, lookup_empty.
  reflexivity.
Qed.

(** X15.  A flush does not change what Get answers.  When the flusher
    writes the oldest immutable memtable to a segment, Get answers for a
    key as before, provided the key is not held undeleted both by the
    flushed memtable and by a newer immutable one while the active
    memtable lacks it (before the flush the oldest immutable memtable is
    asked before the newer ones, after it the newer ones come first). *)
Theorem Get_after_flush (key : string) (e : Engine.Engine)
    (mt : MemTable.MemTable) (rest : list MemTable.MemTable) :
  Engine.immutableMemtables e = mt :: rest ->
  (forall k entry, MemTable.data mt !! k = Some entry -> Key entry = k) ->
  Forall Entry_wf (MemTable.Entries mt) ->
  len_bytes (concat (map SST.encode (MemTable.Entries mt))) < 2 ^ 63 ->
  SSTManager_wf (Engine.sstManager e) ->
  (exists value, MemTable.Get key (Engine.memtable e) = Some value)
  \/ Engine.Get_immutables rest key = None
  \/ MemTable.Get key mt = None ->
  Engine.immutableMemtables (Engine.flush e) = rest
  /\ Engine.memtable (Engine.flush e) = Engine.memtable e
  /\ (Engine.Get key (Engine.flush e)).1 = (Engine.Get key e).1.
Proof.
  intros Himm Hkeys Hwf Hlen Hsm Hcase.
  assert (Hflush :
    Engine.immutableMemtables (Engine.flush e) = rest
    /\ Engine.memtable (Engine.flush e) = Engine.memtable e
    /\ Engine.sstManager (Engine.flush e)
       = SST.Flush (MemTable.Entries mt) (Engine.sstManager e)).
  { unfold Engine.flush. rewrite Himm. repeat split. }
  destruct Hflush as (Hrest & Hm & Hsst).
  split; [exact Hrest|split; [exact Hm|]].
  rewrite !Get_answer, Hrest, Hm, Hsst, Himm. cbn [Engine.Get_immutables].
  assert (Hget : SST.Get key (SST.Flush (MemTable.Entries mt)
                                (Engine.sstManager e))
                 = match MemTable.Get key mt with
                   | Some value => Ok (Some value)
                   | None => SST.Get key (Engine.sstManager e)
                   end).
  { destruct (MemTable.Entries mt) as [|x xs] eqn:Hes.
    - rewrite Flush_nil, (Entries_nil mt key Hes). reflexivity.
    - rewrite <- Hes in *.
      destruct (segment_lookup_Entries mt key Hkeys) as [Hnd Hlook].
      rewrite Flush_Get; try assumption; [|rewrite Hes; discriminate].
      rewrite Hlook. reflexivity. }
  rewrite Hget.
  destruct (MemTable.Get key (Engine.memtable e)) as [v|]; [reflexivity|].
  destruct Hcase as [[v Hv]|[Hnone|Hnone]]; [discriminate| |].
  - rewrite Hnone.
    destruct (MemTable.Get key mt) as [v|]; [reflexivity|].
    destruct (SST.Get key (Engine.sstManager e)); reflexivity.
  - rewrite Hnone.
    destruct (Engine.Get_immutables rest key); reflexivity.
Qed.

(* the theorem on the engine left by a write that fills a memtable of
   four bytes *)
Lemma Get_after_flush_witness :
  Engine.immutableMemtables
    (Engine.Put sample_clock "k" (bytes "abc") (fresh tiny_config)).2
  = [MemTable.Put (sample_clock 1) "k" (bytes "abc") (MemTable.NewMemTable 4)]
  /\ SSTManager_wf
       (Engine.sstManager
          (Engine.Put sample_clock "k" (bytes "abc") (fresh tiny_config)).2)
  /\ (Engine.Get "k"
        (Engine.flush
           (Engine.Put sample_clock "k" (bytes "abc")
              (fresh tiny_config)).2)).1
     = Ok (Some (bytes "abc")).
Proof.
  set (mt := MemTable.Put (sample_clock 1) "k" (bytes "abc")
               (MemTable.NewMemTable 4)).
  set (e := (Engine.Put sample_clock "k" (bytes "abc")
               (fresh tiny_config)).2).
  assert (H1 : Engine.immutableMemtables e = [mt])
    by (vm_compute; reflexivity).
  assert (H2 : forall k entry,
             MemTable.data mt !! k = Some entry -> Key entry = k).
  { intros k entry. subst mt. unfold MemTable.Put.
    cbn [MemTable.data MemTable.NewMemTable].
    destruct (decide ("k" = k)) as [<-|Hne].
    - rewrite lookup_insert_eq. intros [= <-]. reflexivity.
    - rewrite lookup_insert_ne by exact Hne. rewrite lookup_empty.
      discriminate. }
  assert (Hes : MemTable.Entries mt = [mkEntry "k" (bytes "abc") 1001 false])
    by (vm_compute; reflexivity).
  assert (H3 : Forall Entry_wf (MemTable.Entries mt))
    by (rewrite Hes; repeat constructor; vm_compute; easy).
  assert (H4 : len_bytes (concat (map SST.encode (MemTable.Entries mt)))
               < 2 ^ 63) by (rewrite Hes; vm_compute; reflexivity).
  assert (H5 : SSTManager_wf (Engine.sstManager e)).
  { change (Engine.sstManager e) with (SST.mkSSTManager [] ∅ 1).
    split; constructor. }
  assert (H6 : (exists value,
                  MemTable.Get "k" (Engine.memtable e) = Some value)
               \/ Engine.Get_immutables [] "k" = None
               \/ MemTable.Get "k" mt = None)
    by (right; left; reflexivity).
  split; [exact H1|split; [exact H5|]].
  destruct (Get_after_flush "k" e mt [] H1 H2 H3 H4 H5 H6) as (_ & _ & Hget).
  rewrite Hget. vm_compute. reflexivity.
Defined.

(** ** Loading a segment *)

(* the fields loadSSTable reads after the timestamp of a record *)
Lemma loadSSTable_read_record (e : Entry) (rest : list byte) :
  Entry_wf e ->
  (let* _ := IO.ReadByte in
   let* keyLen := IO.Read_uint32 in
   let* keyBytes := IO.ReadFull (Z.to_nat keyLen) in
   let* valueLen := IO.Read_uint32 in
   let* _ := IO.Discard (Z.to_nat valueLen) in
   IO.ret (keyLen, keyBytes, valueLen))
    ([if Deleted e then Byte.x01 else Byte.x00]
     ++ IO.Write_uint32 (uint32 (len_string (Key e)))
     ++ list_byte_of_string (Key e)
     ++ IO.Write_uint32 (uint32 (len_bytes (Value e)))
     ++ Value e ++ rest)
  = Ok ((uint32 (len_string (Key e)), list_byte_of_string (Key e),
         uint32 (len_bytes (Value e))), rest).
Proof.
  intros (Hts & Hk & Hv). unfold IO.bind. cbn [app IO.ReadByte].
  rewrite Read_uint32_app.
  rewrite ReadFull_app
    by (rewrite key_length_nat by exact Hk;
        apply length_list_byte_of_string).
  rewrite Read_uint32_app.
  rewrite value_length_nat by exact Hv.
  unfold IO.Discard, IO.ret.
  destruct (Nat.eqb_spec (length (Value e)) 0) as [H0|Hpos].
  - destruct (Value e); [reflexivity|discriminate H0].
  - rewrite length_app.
    destruct (Nat.ltb_spec (length (Value e) + length rest) (length (Value e)));
      [lia|].
    rewrite drop_app_length. reflexivity.
Qed.

Lemma last_cons_default (e : Entry) (rest : list Entry) (lastKey : string) :
  default lastKey (Key <$> last (e :: rest))
  = default (Key e) (Key <$> last rest).
Proof.
  destruct rest as [|x rest]; [reflexivity|].
  change (last (e :: x :: rest)) with (last (x :: rest)).
  destruct (last (x :: rest)) as [l|] eqn:Hl; [reflexivity|].
  apply last_None in Hl. discriminate.
Qed.

(* loadSSTable reads the records Flush wrote and rebuilds the index Flush
   built, entry by entry *)
Lemma loadSSTable_loop_Flush_loop (entries : list Entry) :
  forall (fuel : nat) (offset : Z) (firstKey lastKey : string) (i : nat)
         (index : gmap string Z),
    Forall Entry_wf entries -> (length entries < fuel)%nat ->
    SST.loadSSTable_loop fuel (concat (map SST.encode entries)) offset
      firstKey lastKey i index
    = Ok (if (i =? 0)%nat then default firstKey (Key <$> head entries)
          else firstKey,
          default lastKey (Key <$> last entries),
          (SST.Flush_loop i offset index entries).2).
Proof.
  induction entries as [|e rest IH];
    intros fuel offset firstKey lastKey i index Hwf Hfuel;
    (destruct fuel as [|fuel]; [cbn in Hfuel; lia|]).
  - cbn. destruct (i =? 0)%nat; reflexivity.
  - apply Forall_cons in Hwf as [Hwfe Hwf].
    cbn [map concat SST.loadSSTable_loop].
    destruct (SST_read_record e (concat (map SST.encode rest)) Hwfe)
      as [H1 _].
    rewrite H1, (loadSSTable_read_record e _ Hwfe).
    rewrite string_of_list_byte_of_string.
    rewrite IH by (try exact Hwf; cbn in Hfuel; lia).
    rewrite last_cons_default. cbn [SST.Flush_loop head fmap option_fmap
                                    option_map default].
    destruct (SST.Flush_loop (S i) _ _ rest) as [[bs off] idx] eqn:Hloop.
    cbn [snd]. destruct (i =? 0)%nat; reflexivity.
Qed.

(* the descriptor Flush registers is the one loadSSTable builds from the
   file Flush wrote *)
Lemma Flush_loadSSTable (entries : list Entry) (sm : SST.SSTManager) :
  entries <> [] -> Forall Entry_wf entries ->
  len_bytes (concat (map SST.encode entries)) < 2 ^ 63 ->
  exists sst file,
    SST.Flush entries sm
    = SST.mkSSTManager (sst :: SST.sstables sm)
        (<[SST.nextID sm := file]> (SST.dataDir sm))
        (int64 (SST.nextID sm + 1))
    /\ SST.ID sst = SST.nextID sm
    /\ SST.loadSSTable (<[SST.nextID sm := file]> (SST.dataDir sm))
         (SST.nextID sm) = Ok sst.
Proof.
  intros Hne Hwf Hlen.
  set (sorted := sort_by key_less entries).
  assert (Hperm : sorted ≡ₚ entries) by apply sort_by_Permutation.
  assert (Hwf' : Forall Entry_wf sorted) by (rewrite Hperm; exact Hwf).
  assert (Hlen' : len_bytes (concat (map SST.encode ([] ++ sorted))) < 2 ^ 63)
    by (cbn [app]; rewrite (len_file_Permutation _ _ Hperm); exact Hlen).
  assert (Hidx0 : index_of ([] ++ sorted) ∅).
  { intros k off H. rewrite lookup_empty in H. discriminate. }
  destruct (Flush_loop_index sorted 0 0 ∅ [] Hwf' eq_refl Hlen' Hidx0)
    as [_ Hoff].
  pose proof (Flush_loop_bytes sorted 0%nat 0 ∅) as Hbytes.
  pose proof (loadSSTable_loop_Flush_loop sorted
                (S (length (concat (map SST.encode sorted)))) 0 "" "" 0 ∅
                Hwf') as Hload.
  unfold SST.Flush. destruct entries as [|e0 entries0]; [congruence|].
  fold sorted.
  destruct (SST.Flush_loop 0 0 ∅ sorted) as [[bs off] idx].
  cbn [fst snd app] in *. subst bs off.
  eexists. eexists. split; [reflexivity|]. split; [reflexivity|].
  unfold SST.loadSSTable. rewrite lookup_insert_eq.
  rewrite Hload by (pose proof (SST_file_length sorted); lia).
  cbn [Nat.eqb]. reflexivity.
Qed.

(** X16.  A segment is loaded as it was flushed: on the data directory a
    Flush leaves, loadSSTable of the new file returns the very descriptor
    Flush registered (the same id, sparse index, first and last key, and
    size), so a restart resumes with the metadata the running engine
    had. *)
Theorem loadSSTable_after_Flush (entries : list Entry) (sm : SST.SSTManager) :
  entries <> [] -> NoDup (map Key entries) -> Forall Entry_wf entries ->
  len_bytes (concat (map SST.encode entries)) < 2 ^ 63 ->
  exists sst,
    SST.sstables (SST.Flush entries sm) = sst :: SST.sstables sm
    /\ SST.loadSSTable (SST.dataDir (SST.Flush entries sm)) (SST.nextID sm)
       = Ok sst.
Proof.
  intros Hne _ Hwf Hlen.
  destruct (Flush_loadSSTable entries sm Hne Hwf Hlen)
    as (sst & file & -> & _ & Hload).
  exists sst. split; [reflexivity|exact Hload].
Qed.

(* the theorem on a cohort of two records *)
Lemma loadSSTable_after_Flush_witness :
  [mkEntry "k" (bytes "old") 10 false; mkEntry "d" (bytes "x") 11 false] <> []
  /\ NoDup (map Key [mkEntry "k" (bytes "old") 10 false;
                     mkEntry "d" (bytes "x") 11 false])
  /\ Forall Entry_wf [mkEntry "k" (bytes "old") 10 false;
                      mkEntry "d" (bytes "x") 11 false]
  /\ exists sst,
       SST.sstables
         (SST.Flush [mkEntry "k" (bytes "old") 10 false;
                     mkEntry "d" (bytes "x") 11 false]
            (SST.mkSSTManager [] ∅ 1)) = [sst]
       /\ SST.loadSSTable
            (SST.dataDir
               (SST.Flush [mkEntry "k" (bytes "old") 10 false;
                           mkEntry "d" (bytes "x") 11 false]
                  (SST.mkSSTManager [] ∅ 1))) 1
          = Ok sst.
Proof.
  assert (H1 : [mkEntry "k" (bytes "old") 10 false;
                mkEntry "d" (bytes "x") 11 false] <> []) by discriminate.
  assert (H2 : NoDup (map Key [mkEntry "k" (bytes "old") 10 false;
                               mkEntry "d" (bytes "x") 11 false])).
  { apply (bool_decide_unpack _). vm_compute. exact I. }
  assert (H3 : Forall Entry_wf [mkEntry "k" (bytes "old") 10 false;
                                mkEntry "d" (bytes "x") 11 false])
    by (repeat constructor; vm_compute; easy).
  assert (H4 : len_bytes (concat (map SST.encode
                                    [mkEntry "k" (bytes "old") 10 false;
                                     mkEntry "d" (bytes "x") 11 false]))
               < 2 ^ 63) by (vm_compute; reflexivity).
  split; [exact H1|split; [exact H2|split; [exact H3|]]].
  exact (loadSSTable_after_Flush _ (SST.mkSSTManager [] ∅ 1) H1 H2 H3 H4).
Defined.

(** ** Recovery from the log *)

Lemma same_records_refl (m : MemTable.MemTable) : same_records m m.
Proof. repeat split. Qed.

Lemma same_records_lookup (m1 m2 : MemTable.MemTable) (k : string) :
  same_records m1 m2 ->
  match MemTable.data m1 !! k, MemTable.data m2 !! k with
  | Some e1, Some e2 =>
      Key e1 = Key e2 /\ Value e1 = Value e2 /\ Deleted e1 = Deleted e2
  | None, None => True
  | _, _ => False
  end.
Proof.
  intros (H & _ & _). specialize (H k).
  destruct (MemTable.data m1 !! k), (MemTable.data m2 !! k); cbn in H;
    try discriminate; [|exact I].
  injection H as -> -> ->. repeat split.
Qed.

Lemma same_records_Get (m1 m2 : MemTable.MemTable) (k : string) :
  same_records m1 m2 -> MemTable.Get k m1 = MemTable.Get k m2.
Proof.
  intros H. pose proof (same_records_lookup m1 m2 k H) as Hk.
  unfold MemTable.Get.
  destruct (MemTable.data m1 !! k), (MemTable.data m2 !! k);
    try contradiction; [|reflexivity].
  destruct Hk as (_ & -> & ->). reflexivity.
Qed.

Lemma same_records_Put (n1 n2 : Z) (key : string) (value : list byte)
    (m1 m2 : MemTable.MemTable) :
  same_records m1 m2 ->
  same_records (MemTable.Put n1 key value m1) (MemTable.Put n2 key value m2).
Proof.
  intros H. pose proof (same_records_lookup m1 m2 key H) as Hk.
  destruct H as (Hdata & Hsize & Hmax).
  unfold MemTable.Put. split; [|split]; cbn [MemTable.data MemTable.size
                                             MemTable.maxSize].
  - intros k. destruct (decide (key = k)) as [->|Hne].
    + rewrite !lookup_insert_eq. reflexivity.
    + rewrite !lookup_insert_ne by exact Hne. apply Hdata.
  - destruct (MemTable.data m1 !! key), (MemTable.data m2 !! key);
      try contradiction.
    + destruct Hk as (-> & -> & _). rewrite Hsize. reflexivity.
    + rewrite Hsize. reflexivity.
  - exact Hmax.
Qed.

Lemma same_records_Delete (n1 n2 : Z) (key : string)
    (m1 m2 : MemTable.MemTable) :
  same_records m1 m2 ->
  (MemTable.Delete n1 key m1).1 = (MemTable.Delete n2 key m2).1
  /\ same_records (MemTable.Delete n1 key m1).2 (MemTable.Delete n2 key m2).2.
Proof.
  intros H. pose proof (same_records_lookup m1 m2 key H) as Hk.
  unfold MemTable.Delete.
  destruct (MemTable.data m1 !! key) as [e1|],
           (MemTable.data m2 !! key) as [e2|]; try contradiction;
    [|split; [reflexivity|exact H]].
  destruct Hk as (Hkey & Hval & Hdel). rewrite Hdel.
  destruct (Deleted e2); cbn [fst snd]; [split; [reflexivity|exact H]|].
  split; [reflexivity|].
  destruct H as (Hdata & Hsize & Hmax).
  split; [|split; assumption]. cbn [MemTable.data].
  intros k. destruct (decide (key = k)) as [->|Hne].
  - rewrite !lookup_insert_eq. cbn. rewrite Hkey, Hval. reflexivity.
  - rewrite !lookup_insert_ne by exact Hne. apply Hdata.
Qed.

Lemma recover_loop_snoc (clock : nat -> Z) (es : list WAL.WALEntry)
    (x : WAL.WALEntry) :
  forall (m : MemTable.MemTable) (t : nat),
    Engine.recover_loop clock (es ++ [x]) m t
    = Engine.recover_loop clock [x]
        (Engine.recover_loop clock es m t).1
        (Engine.recover_loop clock es m t).2.
Proof.
  induction es as [|entry es IH]; intros m t; [reflexivity|].
  cbn [app Engine.recover_loop].
  destruct (Byte.eqb (WAL.OpType entry) WAL.OpTypePut); [apply IH|].
  destruct (Byte.eqb (WAL.OpType entry) WAL.OpTypeDelete); [|apply IH].
  destruct (MemTable.Delete (clock t) (WAL.Key entry) m) as [deleted m'].
  apply IH.
Qed.

(* the state a command of a client leaves *)
Lemma executeCommand_state (clock : nat -> Z) (cmd : Server.Command)
    (e : Engine.Engine) :
  (Server.executeCommand clock cmd e).2
  = match cmd with
    | Server.CmdRead key => (Engine.Get key e).2
    | Server.CmdWrite key value => (Engine.Put clock key value e).2
    | Server.CmdDelete key => (Engine.Delete clock key e).2
    | _ => e
    end.
Proof.
  destruct cmd as [key|key value|key| | |prefix]; cbn [Server.executeCommand];
    try reflexivity.
  - destruct (Engine.Get key e) as [[[v|]|err] e1]; reflexivity.
  - destruct (Engine.Put clock key value e) as [[u|err] e1]; reflexivity.
  - destruct (Engine.Delete clock key e) as [[[|]|err] e1]; reflexivity.
Qed.

Lemma run_steps_Client (clock : nat -> Z) (cmd : Server.Command)
    (rest : list Step) (e : Engine.Engine) :
  (run_steps clock (Client cmd :: rest) e).2
  = (run_steps clock rest (Server.executeCommand clock cmd e).2).2.
Proof.
  cbn [run_steps].
  destruct (Server.executeCommand clock cmd e) as [response e1].
  cbn [snd]. destruct (run_steps clock rest e1) as [responses e2].
  reflexivity.
Qed.

(* the state a Put leaves *)
Lemma Put_state (clock : nat -> Z) (key : string) (value : list byte)
    (e : Engine.Engine) :
  len_string key <= 100 * 1024 ->
  let m' := MemTable.Put (clock (S (Engine.ticks e))) key value
              (Engine.memtable e) in
  let e' := (Engine.Put clock key value e).2 in
  Engine.config e' = Engine.config e
  /\ Engine.ticks e' = S (S (Engine.ticks e))
  /\ Engine.wal e'
     = WAL.Append (WAL.mkWALEntry WAL.OpTypePut key value
                     (clock (Engine.ticks e))) (Engine.wal e).
Proof.
  intros Hlen m' e'. subst e'. unfold Engine.Put.
  destruct (Z.gtb_spec (len_string key) (100 * 1024)) as [Hgt|_]; [lia|].
  fold m'. cbn [snd]. destruct (MemTable.IsFull m'); cbn; repeat split.
Qed.

(* the state a Delete leaves *)
Lemma Delete_state (clock : nat -> Z) (key : string) (e : Engine.Engine) :
  let e' := (Engine.Delete clock key e).2 in
  let dm := MemTable.Delete (clock (S (Engine.ticks e))) key
              (Engine.memtable e) in
  match (Engine.Get key e).1 with
  | Ok (Some _) =>
      Engine.config e' = Engine.config e
      /\ Engine.sstManager e' = Engine.sstManager e
      /\ Engine.ticks e'
         = (if dm.1 then S (S (Engine.ticks e)) else S (Engine.ticks e))
      /\ Engine.wal e'
         = WAL.Append (WAL.mkWALEntry WAL.OpTypeDelete key []
                         (clock (Engine.ticks e))) (Engine.wal e)
      /\ Engine.memtable e'
         = (if MemTable.IsFull dm.2
            then MemTable.NewMemTable
                   (Engine.MemTableMaxSize (Engine.config e))
            else dm.2)
      /\ Engine.immutableMemtables e'
         = (if MemTable.IsFull dm.2
            then Engine.immutableMemtables e ++ [dm.2]
            else Engine.immutableMemtables e)
  | _ => e' = (Engine.Get key e).2
  end.
Proof.
  intros e' dm. subst e'. unfold Engine.Delete.
  pose proof (Get_state key e) as Hst.
  destruct (Engine.Get key e) as [r e1]. cbn [fst snd] in Hst |- *.
  subst e1. destruct r as [[found|]|err]; [|reflexivity|reflexivity].
  cbn [Engine.set_stats Engine.memtable Engine.ticks Engine.wal
       Engine.immutableMemtables Engine.sstManager Engine.config].
  fold dm. destruct dm as [deleted m]. cbn [fst snd].
  destruct (MemTable.IsFull m); cbn; repeat split.
Qed.

(* a command of a client never shortens the list of immutable memtables *)
Lemma executeCommand_immutables (clock : nat -> Z) (cmd : Server.Command)
    (e : Engine.Engine) :
  (length (Engine.immutableMemtables e)
   <= length (Engine.immutableMemtables
                (Server.executeCommand clock cmd e).2))%nat.
Proof.
  rewrite executeCommand_state.
  destruct cmd as [key|key value|key| | |prefix]; try reflexivity.
  - rewrite Get_state. reflexivity.
  - destruct (Z.leb_spec (len_string key) (100 * 1024)) as [Hle|Hgt].
    + destruct (Put_layers clock key value e Hle) as (_ & _ & _ & ->).
      destruct (MemTable.IsFull _); [rewrite length_app; lia|reflexivity].
    + rewrite Put_rejected by lia. reflexivity.
  - pose proof (Delete_state clock key e) as H. cbn zeta in H.
    destruct ((Engine.Get key e).1) as [[found|]|err].
    + destruct H as (_ & _ & _ & _ & _ & ->).
      destruct (MemTable.IsFull _); [rewrite length_app; lia|reflexivity].
    + rewrite H, Get_state. reflexivity.
    + rewrite H, Get_state. reflexivity.
Qed.

Lemma run_steps_immutables (clock : nat -> Z) (steps : list Step) :
  forall e : Engine.Engine,
    Forall client_step steps ->
    (length (Engine.immutableMemtables e)
     <= length (Engine.immutableMemtables (run_steps clock steps e).2))%nat.
Proof.
  induction steps as [|s steps IH]; intros e Hsteps; [reflexivity|].
  apply Forall_cons in Hsteps as [Hs Hsteps].
  destruct s as [cmd| | |]; try contradiction.
  rewrite run_steps_Client.
  etransitivity; [apply executeCommand_immutables|apply IH, Hsteps].
Qed.

Lemma logged_stats (cfg : Engine.Config) (e : Engine.Engine)
    (es : list WAL.WALEntry) (s : Engine.Stats) :
  logged cfg e es -> logged cfg (Engine.set_stats e s) es.
Proof. destruct e. exact (fun H => H). Qed.

Lemma logged_Get (cfg : Engine.Config) (e : Engine.Engine)
    (es : list WAL.WALEntry) (key : string) :
  logged cfg e es ->
  (Engine.Get key e).1 = Ok (MemTable.Get key (Engine.memtable e)).
Proof.
  intros (Himm & Hsm & _). rewrite Get_answer, Himm, Hsm.
  destruct (MemTable.Get key (Engine.memtable e)); reflexivity.
Qed.

(* a command of a client that rotates nothing keeps the log and the
   memtable in step *)
Lemma executeCommand_logged (clock : nat -> Z) (cfg : Engine.Config)
    (cmd : Server.Command) (e : Engine.Engine) (es : list WAL.WALEntry) :
  (forall n, (n <= S (Engine.ticks e))%nat -> - 2 ^ 63 <= clock n < 2 ^ 63) ->
  client_step (Client cmd) ->
  logged cfg e es ->
  Engine.immutableMemtables (Server.executeCommand clock cmd e).2 = [] ->
  (exists es', logged cfg (Server.executeCommand clock cmd e).2 es')
  /\ (Engine.ticks (Server.executeCommand clock cmd e).2
      <= 2 + Engine.ticks e)%nat.
Proof.
  intros Hclock Hcmd Hlog. rewrite executeCommand_state.
  destruct cmd as [key|key value|key| | |prefix];
    try (intros _; split; [exists es; exact Hlog|lia]).
  - (* read *)
    intros _. rewrite Get_state.
    split; [exists es; apply logged_stats, Hlog|].
    destruct e; cbn; lia.
  - (* write *)
    destruct (Z.leb_spec (len_string key) (100 * 1024)) as [Hle|Hgt];
      [|rewrite Put_rejected by lia; intros _; cbn [snd];
        split; [exists es; exact Hlog|lia]].
    intros Himm'.
    destruct (Put_layers clock key value e Hle) as (_ & Hsm' & Hm' & Himm1).
    destruct (Put_state clock key value e Hle) as (Hcfg' & Hticks' & Hwal').
    destruct Hlog as (Himm & Hsm & Hcfg & Hwal & Hwf & Hkeys & Hrec).
    rewrite Himm1 in Himm'.
    destruct (MemTable.IsFull _) eqn:Hfull.
    { rewrite Himm in Himm'. discriminate. }
    split; [|rewrite Hticks'; lia].
    exists (es ++ [WAL.mkWALEntry WAL.OpTypePut key value
                     (clock (Engine.ticks e))]).
    split; [rewrite Himm1; exact Himm'|]. split; [rewrite Hsm'; exact Hsm|].
    split; [rewrite Hcfg'; exact Hcfg|].
    split; [rewrite Hwal', Append_contents, Hwal, map_app, concat_app;
            cbn [map concat]; rewrite app_nil_r; reflexivity|].
    split.
    { apply Forall_app. split; [exact Hwf|]. constructor; [|constructor].
      cbn in Hcmd. split; [apply Hclock; lia|].
      split; cbn [WAL.Key WAL.Value]; [|exact Hcmd].
      change (2 ^ 32) with 4294967296. lia. }
    split.
    { intros k. rewrite Hm'. unfold MemTable.Put. cbn [MemTable.data].
      destruct (decide (key = k)) as [<-|Hne].
      - intros _. change (2 ^ 32) with 4294967296. lia.
      - rewrite lookup_insert_ne by exact Hne. apply Hkeys. }
    intros clock' t. rewrite recover_loop_snoc, Hm'.
    specialize (Hrec clock' t).
    destruct (Engine.recover_loop clock' es _ t) as [m1 t1].
    cbn [fst snd] in *. cbn [Engine.recover_loop WAL.OpType WAL.Key WAL.Value].
    change (Byte.eqb WAL.OpTypePut WAL.OpTypePut) with true. cbn [fst].
    apply same_records_Put, Hrec.
  - (* delete *)
    intros Himm'.
    pose proof (Delete_state clock key e) as Hst. cbn zeta in Hst.
    rewrite (logged_Get cfg e es key Hlog) in Hst.
    destruct (MemTable.Get key (Engine.memtable e)) as [found|] eqn:Hget.
    2:{ rewrite Hst, Get_state.
        split; [exists es; apply logged_stats, Hlog|].
        destruct e; cbn; lia. }
    destruct Hst as (Hcfg' & Hsm' & Hticks' & Hwal' & Hm' & Himm1).
    pose proof Hlog as (Himm & Hsm & Hcfg & Hwal & Hwf & Hkeys & Hrec).
    rewrite Himm1 in Himm'.
    destruct (MemTable.IsFull _) eqn:Hfull.
    { rewrite Himm in Himm'. discriminate. }
    split; [|rewrite Hticks'; destruct (MemTable.Delete _ _ _).1; lia].
    exists (es ++ [WAL.mkWALEntry WAL.OpTypeDelete key []
                     (clock (Engine.ticks e))]).
    split; [rewrite Himm1; exact Himm'|]. split; [rewrite Hsm'; exact Hsm|].
    split; [rewrite Hcfg'; exact Hcfg|].
    split; [rewrite Hwal', Append_contents, Hwal, map_app, concat_app;
            cbn [map concat]; rewrite app_nil_r; reflexivity|].
    assert (Hheld : is_Some (MemTable.data (Engine.memtable e) !! key)).
    { unfold MemTable.Get in Hget.
      destruct (MemTable.data (Engine.memtable e) !! key); [eauto|].
      discriminate. }
    split.
    { apply Forall_app. split; [exact Hwf|]. constructor; [|constructor].
      split; [apply Hclock; lia|].
      split; cbn [WAL.Key WAL.Value]; [apply Hkeys, Hheld|].
      vm_compute. reflexivity. }
    split.
    { intros k. rewrite Hm'. unfold MemTable.Delete.
      destruct Hheld as [entry Hentry]. rewrite Hentry.
      destruct (Deleted entry); cbn [snd MemTable.data]; [apply Hkeys|].
      destruct (decide (key = k)) as [<-|Hne].
      - intros _. apply Hkeys. eauto.
      - rewrite lookup_insert_ne by exact Hne. apply Hkeys. }
    intros clock' t. rewrite recover_loop_snoc, Hm'.
    specialize (Hrec clock' t).
    destruct (Engine.recover_loop clock' es _ t) as [m1 t1].
    cbn [fst snd] in *. cbn [Engine.recover_loop WAL.OpType WAL.Key WAL.Value].
    change (Byte.eqb WAL.OpTypeDelete WAL.OpTypePut) with false.
    change (Byte.eqb WAL.OpTypeDelete WAL.OpTypeDelete) with true.
    cbn match.
    destruct (same_records_Delete (clock' t1)
                (clock (S (Engine.ticks e))) key m1 (Engine.memtable e) Hrec)
      as [_ Hsame].
    destruct (MemTable.Delete (clock' t1) key m1) as [deleted m1'].
    cbn [fst snd] in *. exact Hsame.
Qed.

Lemma run_steps_logged (clock : nat -> Z) (cfg : Engine.Config) (N : nat)
    (steps : list Step) :
  (forall n, (n < N)%nat -> - 2 ^ 63 <= clock n < 2 ^ 63) ->
  forall (e : Engine.Engine) (es : list WAL.WALEntry),
    Forall client_step steps ->
    logged cfg e es ->
    (Engine.ticks e + 2 * length steps <= N)%nat ->
    Engine.immutableMemtables (run_steps clock steps e).2 = [] ->
    exists es', logged cfg (run_steps clock steps e).2 es'.
Proof.
  intros Hclock. induction steps as [|s steps IH];
    intros e es Hsteps Hlog Hticks Hfinal; [exists es; exact Hlog|].
  apply Forall_cons in Hsteps as [Hs Hsteps].
  destruct s as [cmd| | |]; try contradiction.
  rewrite run_steps_Client in Hfinal |- *. cbn [length] in Hticks.
  assert (Himm : Engine.immutableMemtables
                   (Server.executeCommand clock cmd e).2 = []).
  { pose proof (run_steps_immutables clock steps
                  (Server.executeCommand clock cmd e).2 Hsteps) as Hle.
    rewrite Hfinal in Hle.
    destruct (Engine.immutableMemtables
                (Server.executeCommand clock cmd e).2) as [|mt l];
      [reflexivity|cbn in Hle; lia]. }
  destruct (executeCommand_logged clock cfg cmd e es) as [[es1 Hlog1] Ht1];
    try assumption.
  { intros n Hn. apply Hclock. lia. }
  apply (IH _ es1); try assumption. lia.
Qed.

Lemma logged_fresh (cfg : Engine.Config) : logged cfg (fresh cfg) [].
Proof.
  repeat split; try reflexivity; try constructor.
  intros k [entry H]. cbn in H. rewrite lookup_empty in H. discriminate.
Qed.

(** X17.  A restart recovers the memtable from the synced log.  After any
    run of client commands on a new engine during which no memtable filled
    up, opening an engine on the data directory, with the log synced,
    succeeds, and replaying the log rebuilds the memtable record for
    record, timestamps apart (recover stamps the records with the time of
    the replay): the same keys, values, tombstones and size, so that Get
    answers for every key as before the restart. *)
Theorem restart_recovers_the_memtable (clock clock' : nat -> Z)
    (cfg : Engine.Config) (steps : list Step) :
  (forall n, (n < 2 * length steps)%nat -> - 2 ^ 63 <= clock n < 2 ^ 63) ->
  Forall client_step steps ->
  let e := (run_steps clock steps (fresh cfg)).2 in
  Engine.immutableMemtables e = [] ->
  exists e',
    Engine.NewEngine clock' cfg
      (Engine.mkDisk (WAL.file (WAL.Sync (Engine.wal e)))
                     (SST.dataDir (Engine.sstManager e))) = Ok e'
    /\ same_records (Engine.memtable e') (Engine.memtable e)
    /\ MemTable.Size (Engine.memtable e') = MemTable.Size (Engine.memtable e)
    /\ forall key, (Engine.Get key e').1 = (Engine.Get key e).1.
Proof.
  intros Hclock Hsteps e Hfinal.
  destruct (run_steps_logged clock cfg (2 * length steps) steps Hclock
              (fresh cfg) [] Hsteps (logged_fresh cfg)) as [es Hlog];
    [cbn; lia|exact Hfinal|].
  fold e in Hlog.
  pose proof Hlog as (Himm & Hsm & Hcfg & Hwal & Hwf & Hkeys & Hrec).
  assert (Hreplay : WAL.Replay
                      (WAL.NewWAL (WAL.file (WAL.Sync (Engine.wal e))))
                    = Ok es).
  { unfold WAL.Sync.
    change (WAL.file (WAL.Flush ?x)) with (WAL.contents x).
    rewrite Hwal. apply Replay_whole_records, Hwf. }
  specialize (Hrec clock' 0%nat).
  unfold Engine.NewEngine. cbn [Engine.wal_log Engine.sst_files].
  rewrite Hsm. cbn [SST.dataDir].
  change (SST.NewSSTManager ∅) with (Ok (SST.mkSSTManager [] ∅ 1)).
  unfold Engine.recover. cbn [Engine.wal Engine.memtable Engine.ticks].
  rewrite Hreplay.
  destruct (Engine.recover_loop clock' es _ 0) as [m t] eqn:Hloop.
  cbn [fst] in Hrec.
  eexists. split; [reflexivity|].
  cbn [Engine.set_ticks Engine.set_memtable Engine.memtable].
  split; [exact Hrec|]. split; [apply Hrec|].
  intros key. rewrite !Get_answer, Himm, Hsm.
  unfold Engine.set_ticks, Engine.set_memtable.
  cbn [Engine.memtable Engine.immutableMemtables Engine.sstManager].
  rewrite (same_records_Get _ _ key Hrec). reflexivity.
Qed.

(* the theorem on two writes and a delete *)
Lemma restart_recovers_the_memtable_witness :
  Forall client_step
    [Client (Server.CmdWrite "a" (bytes "1"));
     Client (Server.CmdWrite "b" (bytes "2"));
     Client (Server.CmdDelete "a")]
  /\ Engine.immutableMemtables
       (run_steps sample_clock
          [Client (Server.CmdWrite "a" (bytes "1"));
           Client (Server.CmdWrite "b" (bytes "2"));
           Client (Server.CmdDelete "a")] (fresh default_config)).2 = []
  /\ exists e',
       Engine.NewEngine (fun n => 5000 + Z.of_nat n) default_config
         (Engine.mkDisk
            (WAL.file
               (WAL.Sync
                  (Engine.wal
                     (run_steps sample_clock
                        [Client (Server.CmdWrite "a" (bytes "1"));
                         Client (Server.CmdWrite "b" (bytes "2"));
                         Client (Server.CmdDelete "a")]
                        (fresh default_config)).2)))
            (SST.dataDir
               (Engine.sstManager
                  (run_steps sample_clock
                     [Client (Server.CmdWrite "a" (bytes "1"));
                      Client (Server.CmdWrite "b" (bytes "2"));
                      Client (Server.CmdDelete "a")]
                     (fresh default_config)).2))) = Ok e'
       /\ (Engine.Get "a" e').1 = Ok None
       /\ (Engine.Get "b" e').1 = Ok (Some (bytes "2")).
Proof.
  set (steps := [Client (Server.CmdWrite "a" (bytes "1"));
                 Client (Server.CmdWrite "b" (bytes "2"));
                 Client (Server.CmdDelete "a")]).
  assert (H1 : forall n, (n < 2 * length steps)%nat ->
                         - 2 ^ 63 <= sample_clock n < 2 ^ 63).
  { intros n Hn. unfold sample_clock. cbn in Hn.
    change (2 ^ 63) with 9223372036854775808. lia. }
  assert (H2 : Forall client_step steps).
  { repeat constructor; vm_compute; reflexivity. }
  assert (H3 : Engine.immutableMemtables
                 (run_steps sample_clock steps (fresh default_config)).2 = [])
    by (vm_compute; reflexivity).
  split; [exact H2|split; [exact H3|]].
  destruct (restart_recovers_the_memtable sample_clock
              (fun n => 5000 + Z.of_nat n) default_config steps H1 H2 H3)
    as (e' & Hnew & _ & _ & Hget).
  exists e'. split; [exact Hnew|].
  rewrite !Hget. split; vm_compute; reflexivity.
Defined.

(** ** Reading a segment back *)

(** X18.  A flushed segment is read back whole.  For records with
    pairwise distinct keys, readAllEntries on the segment Flush wrote
    returns every record as it was flushed (key, value, timestamp and
    tombstone flag), each once, in ascending order of the keys. *)
Theorem readAllEntries_after_Flush (entries : list Entry)
    (sm : SST.SSTManager) :
  entries <> [] -> NoDup (map Key entries) -> Forall Entry_wf entries ->
  len_bytes (concat (map SST.encode entries)) < 2 ^ 63 ->
  exists sst written,
    SST.sstables (SST.Flush entries sm) = sst :: SST.sstables sm
    /\ Compactor.readAllEntries (SST.dataDir (SST.Flush entries sm)) sst
       = Ok written
    /\ written ≡ₚ entries
    /\ ascending written
    /\ SST.MinKey sst = default "" (Key <$> head written)
    /\ SST.MaxKey sst = default "" (Key <$> last written)
    /\ SST.Size sst = len_bytes (concat (map SST.encode written)).
Proof.
  intros Hne Hnd Hwf Hlen.
  destruct (Flush_segment entries sm Hne Hnd Hwf Hlen)
    as (sst & -> & Hid & Hpath & Hidx & Hmin & Hmax & Hsize & Hasc & Hwf'
        & Hperm).
  exists sst, (sort_by key_less entries). cbn [SST.sstables SST.dataDir].
  split; [reflexivity|]. split; [|repeat split; assumption].
  apply readAllEntries_encoded; [exact Hwf'|].
  rewrite Hpath. apply lookup_insert_eq.
Qed.

(* the theorem on a cohort of two records *)
Lemma readAllEntries_after_Flush_witness :
  [mkEntry "k" (bytes "old") 10 false; mkEntry "d" (bytes "x") 11 false] <> []
  /\ exists sst,
       SST.sstables
         (SST.Flush [mkEntry "k" (bytes "old") 10 false;
                     mkEntry "d" (bytes "x") 11 false]
            (SST.mkSSTManager [] ∅ 1)) = [sst]
       /\ Compactor.readAllEntries
            (SST.dataDir
               (SST.Flush [mkEntry "k" (bytes "old") 10 false;
                           mkEntry "d" (bytes "x") 11 false]
                  (SST.mkSSTManager [] ∅ 1))) sst
          = Ok [mkEntry "d" (bytes "x") 11 false;
                mkEntry "k" (bytes "old") 10 false].
Proof.
  assert (H1 : [mkEntry "k" (bytes "old") 10 false;
                mkEntry "d" (bytes "x") 11 false] <> []) by discriminate.
  assert (H2 : NoDup (map Key [mkEntry "k" (bytes "old") 10 false;
                               mkEntry "d" (bytes "x") 11 false])).
  { apply (bool_decide_unpack _). vm_compute. exact I. }
  assert (H3 : Forall Entry_wf [mkEntry "k" (bytes "old") 10 false;
                                mkEntry "d" (bytes "x") 11 false])
    by (repeat constructor; vm_compute; easy).
  assert (H4 : len_bytes (concat (map SST.encode
                                    [mkEntry "k" (bytes "old") 10 false;
                                     mkEntry "d" (bytes "x") 11 false]))
               < 2 ^ 63) by (vm_compute; reflexivity).
  split; [exact H1|].
  destruct (readAllEntries_after_Flush _ (SST.mkSSTManager [] ∅ 1)
              H1 H2 H3 H4) as (sst & written & Htables & Hread & _).
  exists sst. split; [exact Htables|].
  rewrite Hread. f_equal.
  injection Htables as <-. vm_compute in Hread. injection Hread as <-.
  reflexivity.
Defined.

(** ** A segment file cut short *)

(* a record cut short stops loadSSTable with an error *)
Lemma loadSSTable_loop_torn (e : Entry) (n fuel : nat) (offset : Z)
    (firstKey lastKey : string) (i : nat) (index : gmap string Z) :
  Entry_wf e -> (0 < n < length (SST.encode e))%nat ->
  exists err,
    SST.loadSSTable_loop (S fuel) (take n (SST.encode e)) offset
      firstKey lastKey i index = Err err.
Proof.
  intros (Hts & Hk & Hv) Hn.
  assert (Hlen : length (SST.encode e)
                 = (17 + String.length (Key e) + length (Value e))%nat).
  { pose proof (SST_encode_len e) as H. unfold len_bytes, len_string in H.
    lia. }
  rewrite Hlen in Hn.
  cbn [SST.loadSSTable_loop]. unfold SST.encode.
  rewrite Read_int64_take by exact Hts.
  destruct (Nat.ltb_spec n 8) as [H8|H8].
  { destruct (Nat.eqb_spec n 0); [lia|]. eauto. }
  unfold IO.bind. cbn [app].
  destruct (n - 8)%nat as [|k] eqn:Hk8; [cbn; eauto|].
  cbn [take IO.ReadByte]. change (firstn k) with (@take byte k).
  rewrite Read_uint32_take.
  destruct (Nat.ltb_spec k 4) as [H4|H4]; [eauto|].
  rewrite (ReadFull_take _ _ _ (k - 4))
    by (rewrite key_length_nat by exact Hk;
        apply length_list_byte_of_string).
  rewrite key_length_nat by exact Hk.
  destruct (Nat.ltb_spec (k - 4) (String.length (Key e))); [eauto|].
  rewrite Read_uint32_take.
  destruct (Nat.ltb_spec (k - 4 - String.length (Key e)) 4); [eauto|].
  rewrite value_length_nat by exact Hv.
  unfold IO.Discard.
  destruct (Nat.eqb_spec (length (Value e)) 0) as [Hv0|Hv0]; [lia|].
  rewrite length_take.
  destruct (Nat.ltb_spec
              (Nat.min (k - 4 - String.length (Key e) - 4)
                       (length (Value e)))
              (length (Value e))); [eauto|lia].
Qed.

(* whole records in front of the rest of a file are read one by one *)
Lemma loadSSTable_loop_records (es : list Entry) (r : list byte) :
  Forall Entry_wf es ->
  forall (fuel : nat) (offset : Z) (firstKey lastKey : string) (i : nat)
         (index : gmap string Z),
  exists offset' firstKey' lastKey' index',
    SST.loadSSTable_loop (length es + fuel)
      (concat (map SST.encode es) ++ r) offset firstKey lastKey i index
    = SST.loadSSTable_loop fuel r offset' firstKey' lastKey'
        (i + length es) index'.
Proof.
  induction 1 as [|e es Hwfe _ IH]; intros fuel offset firstKey lastKey i index.
  - cbn [length map concat app Nat.add]. rewrite Nat.add_0_r. eauto.
  - cbn [length map concat Nat.add SST.loadSSTable_loop].
    rewrite <- app_assoc.
    destruct (SST_read_record e (concat (map SST.encode es) ++ r) Hwfe)
      as [H1 _].
    rewrite H1, (loadSSTable_read_record e _ Hwfe).
    replace (i + S (length es))%nat with (S i + length es)%nat by lia.
    apply IH.
Qed.

Lemma loadExisting_loop_torn (dir : gmap Z (list byte)) (id : Z) (ids : list Z) :
  (exists err, SST.loadSSTable dir id = Err err) -> In id ids ->
  forall (tables : list SST.SSTable) (next : Z),
  exists err, SST.loadExisting_loop dir ids tables next = Err err.
Proof.
  intros [err Herr] Hin. induction ids as [|x ids IH]; [destruct Hin|].
  intros tables next. cbn [SST.loadExisting_loop].
  destruct (SST.loadSSTable dir x) as [sst|err'] eqn:Hload; [|eauto].
  destruct Hin as [->|Hin]; [congruence|]. apply IH, Hin.
Qed.

(** X19.  A segment file that ends inside a record stops the start-up.
    If some file of the data directory holds whole records followed by a
    record cut short (after at least one of its bytes), loadSSTable fails
    on it, NewSSTManager fails with it, and NewEngine returns that error
    wrapped as a failure to create the SST manager: the engine does not
    start on the remaining segments. *)
Theorem torn_segment_stops_NewEngine (clock : nat -> Z) (cfg : Engine.Config)
    (log : list byte) (dir : gmap Z (list byte)) (id : Z)
    (es : list Entry) (e : Entry) (n : nat) :
  Forall Entry_wf es -> Entry_wf e ->
  (0 < n < length (SST.encode e))%nat ->
  dir !! id = Some (concat (map SST.encode es) ++ take n (SST.encode e)) ->
  (exists err, SST.loadSSTable dir id = Err err)
  /\ (exists err,
        SST.NewSSTManager dir = Err err
        /\ Engine.NewEngine clock cfg (Engine.mkDisk log dir)
           = Err (Wrapf "failed to create SST manager" err)).
Proof.
  intros Hwf Hwfe Hn Hfile.
  assert (Hload : exists err, SST.loadSSTable dir id = Err err).
  { unfold SST.loadSSTable. rewrite Hfile.
    set (f := concat (map SST.encode es) ++ take n (SST.encode e)).
    assert (Hfuel : S (length f)
                    = (length es + S (length f - length es))%nat).
    { subst f. rewrite length_app. pose proof (SST_file_length es). lia. }
    rewrite Hfuel. subst f.
    destruct (loadSSTable_loop_records es (take n (SST.encode e)) Hwf
                (S (length (concat (map SST.encode es)
                            ++ take n (SST.encode e)) - length es))
                0 "" "" 0%nat ∅)
      as (offset' & firstKey' & lastKey' & index' & ->).
    destruct (loadSSTable_loop_torn e n
                (length (concat (map SST.encode es) ++ take n (SST.encode e))
                 - length es) offset' firstKey' lastKey'
                (0 + length es) index' Hwfe Hn) as [err ->].
    eauto. }
  split; [exact Hload|].
  assert (Hin : In id (sort_by Z.ltb (map fst (map_to_list dir)))).
  { eapply Permutation_in; [symmetry; apply sort_by_Permutation|].
    apply In_fst_map_to_list_Z. eauto. }
  destruct (loadExisting_loop_torn dir id _ Hload Hin [] 1) as [err Herr].
  exists err. unfold Engine.NewEngine, SST.NewSSTManager.
  cbn [Engine.sst_files]. rewrite Herr. split; reflexivity.
Qed.

(* the theorem on a directory whose only segment was cut after five bytes *)
Lemma torn_segment_stops_NewEngine_witness :
  Entry_wf (mkEntry "d" (bytes "x") 11 false)
  /\ (0 < 5 < length (SST.encode (mkEntry "d" (bytes "x") 11 false)))%nat
  /\ is_Ok (Engine.NewEngine sample_clock default_config
              (Engine.mkDisk []
                 {[ 1 := take 5 (SST.encode
                                   (mkEntry "d" (bytes "x") 11 false)) ]}))
     = false.
Proof.
  assert (H1 : Entry_wf (mkEntry "d" (bytes "x") 11 false))
    by (vm_compute; easy).
  assert (H2 : (0 < 5 < length (SST.encode
                                  (mkEntry "d" (bytes "x") 11 false)))%nat)
    by (vm_compute; lia).
  split; [exact H1|split; [exact H2|]].
  destruct (torn_segment_stops_NewEngine sample_clock default_config []
              {[ 1 := take 5 (SST.encode
                                (mkEntry "d" (bytes "x") 11 false)) ]}
              1 [] (mkEntry "d" (bytes "x") 11 false) 5
              (Forall_nil_2 _) H1 H2 (lookup_singleton_eq _ _))
    as (_ & err & _ & ->).
  reflexivity.
Defined.

(** ** The log after a flush *)

(** X20.  The flusher empties the log when it has written the last
    immutable memtable, and with it the records of the active memtable.
    A write accepted while one immutable memtable waits for the flusher is
    read back while the engine runs, but after that flush the log holds
    nothing: an engine opened on the data directory, the log synced,
    starts with an empty memtable and answers for every key from the
    segments alone. *)
Theorem flush_drops_the_log_of_the_active_memtable (clock clock' : nat -> Z)
    (key : string) (value : list byte) (e : Engine.Engine)
    (mt : MemTable.MemTable) (e3 : Engine.Engine) :
  Engine.immutableMemtables e = [mt] ->
  len_string key <= 100 * 1024 ->
  MemTable.IsFull (MemTable.Put (clock (S (Engine.ticks e))) key value
                     (Engine.memtable e)) = false ->
  let e1 := (Engine.Put clock key value e).2 in
  let e2 := Engine.flush e1 in
  Engine.NewEngine clock' (Engine.config e)
    (Engine.mkDisk (WAL.file (WAL.Sync (Engine.wal e2)))
                   (SST.dataDir (Engine.sstManager e2))) = Ok e3 ->
  (Engine.Put clock key value e).1 = Ok tt
  /\ (Engine.Get key e2).1 = Ok (Some value)
  /\ WAL.contents (Engine.wal e2) = []
  /\ MemTable.data (Engine.memtable e3) = ∅
  /\ Engine.immutableMemtables e3 = []
  /\ forall k,
       (Engine.Get k e3).1
       = match SST.Get k (Engine.sstManager e3) with
         | Err err => Err (Wrapf "SST lookup failed" err)
         | Ok r => Ok r
         end.
Proof.
  intros Himm Hlen Hroom e1 e2 Hnew.
  destruct (Put_layers clock key value e Hlen) as (Hok & Hsm1 & Hm1 & Himm1).
  fold e1 in Hsm1, Hm1, Himm1. rewrite Hroom in Hm1, Himm1.
  rewrite Himm in Himm1.
  assert (Hflush : Engine.memtable e2 = Engine.memtable e1
                   /\ Engine.immutableMemtables e2 = []
                   /\ Engine.wal e2 = WAL.Truncate (Engine.wal e1)).
  { subst e2. unfold Engine.flush. rewrite Himm1. repeat split. }
  destruct Hflush as (Hm2 & Himm2 & Hwal2).
  split; [exact Hok|]. split.
  { rewrite Get_answer, Hm2, Hm1, MemTable_Get_Put.
    destruct (decide (key = key)); [reflexivity|congruence]. }
  split; [rewrite Hwal2; reflexivity|].
  unfold Engine.NewEngine in Hnew. cbn [Engine.wal_log Engine.sst_files] in Hnew.
  destruct (SST.NewSSTManager _) as [sm|err]; [|discriminate].
  unfold Engine.recover in Hnew.
  cbn [Engine.wal Engine.memtable Engine.ticks] in Hnew.
  rewrite Hwal2 in Hnew.
  change (WAL.Replay (WAL.NewWAL (WAL.file (WAL.Sync (WAL.Truncate ?w)))))
    with (@Ok (list WAL.WALEntry) []) in Hnew.
  cbn [Engine.recover_loop] in Hnew. injection Hnew as <-.
  split; [reflexivity|]. split; [reflexivity|].
  intros k. rewrite Get_answer.
  unfold Engine.set_ticks, Engine.set_memtable.
  cbn [Engine.memtable Engine.immutableMemtables Engine.sstManager
       Engine.Get_immutables].
  rewrite MemTable_Get_New. reflexivity.
Qed.

(* the theorem on a memtable of four bytes: the write of k fills it, the
   write of z is in the active memtable when the flusher runs *)
Lemma flush_drops_the_log_of_the_active_memtable_witness :
  exists e3,
    Engine.NewEngine sample_clock tiny_config
      (Engine.mkDisk
         (WAL.file
            (WAL.Sync
               (Engine.wal
                  (Engine.flush
                     (Engine.Put sample_clock "z" (bytes "zz")
                        (Engine.Put sample_clock "k" (bytes "abc")
                           (fresh tiny_config)).2).2))))
         (SST.dataDir
            (Engine.sstManager
               (Engine.flush
                  (Engine.Put sample_clock "z" (bytes "zz")
                     (Engine.Put sample_clock "k" (bytes "abc")
                        (fresh tiny_config)).2).2)))) = Ok e3
    /\ (Engine.Get "z"
          (Engine.flush
             (Engine.Put sample_clock "z" (bytes "zz")
                (Engine.Put sample_clock "k" (bytes "abc")
                   (fresh tiny_config)).2).2)).1 = Ok (Some (bytes "zz"))
    /\ MemTable.data (Engine.memtable e3) = ∅
    /\ (Engine.Get "z" e3).1 = Ok None.
Proof.
  set (e := (Engine.Put sample_clock "k" (bytes "abc")
               (fresh tiny_config)).2).
  set (mt := MemTable.Put (sample_clock 1) "k" (bytes "abc")
               (MemTable.NewMemTable 4)).
  assert (H1 : Engine.immutableMemtables e = [mt])
    by (vm_compute; reflexivity).
  assert (H2 : len_string "z" <= 100 * 1024) by (vm_compute; discriminate).
  assert (H3 : MemTable.IsFull
                 (MemTable.Put (sample_clock (S (Engine.ticks e))) "z"
                    (bytes "zz") (Engine.memtable e)) = false)
    by (vm_compute; reflexivity).
  assert (Hcfg : Engine.config e = tiny_config) by (vm_compute; reflexivity).
  destruct (Engine.NewEngine sample_clock tiny_config
              (Engine.mkDisk
                 (WAL.file
                    (WAL.Sync
                       (Engine.wal
                          (Engine.flush
                             (Engine.Put sample_clock "z" (bytes "zz") e).2))))
                 (SST.dataDir
                    (Engine.sstManager
                       (Engine.flush
                          (Engine.Put sample_clock "z" (bytes "zz") e).2)))))
    as [e3|err] eqn:Hnew; [|vm_compute in Hnew; discriminate].
  exists e3. split; [reflexivity|].
  pose proof Hnew as Hnew'. rewrite <- Hcfg in Hnew'.
  destruct (flush_drops_the_log_of_the_active_memtable sample_clock
              sample_clock "z" (bytes "zz") e mt e3 H1 H2 H3 Hnew')
    as (_ & Hget & _ & Hdata & _ & _).
  split; [exact Hget|]. split; [exact Hdata|].
  vm_compute in Hnew. injection Hnew as <-. vm_compute. reflexivity.
Defined.

(** ** Opening the registry of segments *)

Section SortByKey.

Context {A : Type} (key : A -> Z).

Lemma insert_by_In (less : A -> A -> bool) (x y : A) (l : list A) :
  In y (insert_by less x l) <-> y = x \/ In y l.
Proof.
  split.
  - intros H. eapply Permutation_in in H; [|apply insert_by_Permutation].
    destruct H as [->|H]; [left; reflexivity|right; exact H].
  - intros H. eapply Permutation_in;
      [symmetry; apply (insert_by_Permutation less x l)|].
    destruct H as [->|H]; [left; reflexivity|right; exact H].
Qed.

Lemma insert_by_sorted_by_key (x : A) (l : list A) :
  sorted_by_key key l -> ~ In (key x) (map key l) ->
  sorted_by_key key (insert_by (fun a b => key a <? key b) x l).
Proof.
  induction l as [|y l IH]; intros Hs Hnew; cbn [insert_by].
  - cbn. split; [constructor|exact I].
  - destruct Hs as [Hy Hs].
    destruct (Z.ltb_spec (key y) (key x)) as [Hlt|Hge].
    + cbn [sorted_by_key]. split.
      * apply Forall_forall. intros z Hz.
        apply list_elem_of_In, insert_by_In in Hz as [->|Hz]; [exact Hlt|].
        rewrite Forall_forall in Hy. apply Hy, list_elem_of_In, Hz.
      * apply IH; [exact Hs|]. intros Hin. apply Hnew. right. exact Hin.
    + assert (Hne : key x <> key y).
      { intros Heq. apply Hnew. left. symmetry. exact Heq. }
      cbn [sorted_by_key]. split; [|split; assumption].
      constructor; [lia|].
      eapply Forall_impl; [exact Hy|]. cbn. intros z Hz. lia.
Qed.

Lemma sort_by_sorted_by_key (l : list A) :
  NoDup (map key l) ->
  sorted_by_key key (sort_by (fun a b => key a <? key b) l).
Proof.
  induction l as [|x l IH]; intros Hnd; [exact I|].
  apply NoDup_cons in Hnd as [Hx Hnd].
  unfold sort_by. cbn [foldr]. apply insert_by_sorted_by_key.
  - apply IH, Hnd.
  - intros Hin. apply Hx, list_elem_of_In.
    apply in_map_iff in Hin as (z & Hz & Hin). apply in_map_iff.
    exists z. split; [exact Hz|].
    eapply Permutation_in;
      [apply (sort_by_Permutation (fun a b => key a <? key b) l)|exact Hin].
Qed.

(* two slices in strictly ascending order with the same elements are one
   slice *)
Lemma sorted_by_key_unique (l1 : list A) :
  forall l2 : list A,
    sorted_by_key key l1 -> sorted_by_key key l2 ->
    (forall x, In x l1 <-> In x l2) -> l1 = l2.
Proof.
  induction l1 as [|x l1 IH]; intros [|y l2] H1 H2 Hin.
  - reflexivity.
  - exfalso. apply (Hin y). left. reflexivity.
  - exfalso. apply (Hin x). left. reflexivity.
  - destruct H1 as [Hx H1], H2 as [Hy H2].
    rewrite Forall_forall in Hx, Hy.
    assert (Hxy : x = y).
    { destruct (proj1 (Hin x) (or_introl eq_refl)) as [Heq|Hxl2];
        [symmetry; exact Heq|].
      destruct (proj2 (Hin y) (or_introl eq_refl)) as [Heq|Hyl1];
        [exact Heq|].
      apply list_elem_of_In, Hy in Hxl2. apply list_elem_of_In, Hx in Hyl1.
      lia. }
    subst y. f_equal. apply IH; [exact H1|exact H2|].
    intros z. split; intros Hz.
    + destruct (proj1 (Hin z) (or_intror Hz)) as [<-|Hz2]; [|exact Hz2].
      apply list_elem_of_In, Hx in Hz. lia.
    + destruct (proj2 (Hin z) (or_intror Hz)) as [<-|Hz1]; [|exact Hz1].
      apply list_elem_of_In, Hy in Hz. lia.
Qed.

Lemma sort_by_key_unique (l l' : list A) :
  NoDup (map key l) -> sorted_by_key key l' ->
  (forall x, In x l <-> In x l') ->
  sort_by (fun a b => key a <? key b) l = l'.
Proof.
  intros Hnd Hs Hin. apply sorted_by_key_unique.
  - apply sort_by_sorted_by_key, Hnd.
  - exact Hs.
  - intros x. rewrite <- Hin. split; apply Permutation_in.
    + apply sort_by_Permutation.
    + symmetry. apply sort_by_Permutation.
Qed.

Lemma sorted_by_key_NoDup (l : list A) :
  sorted_by_key key l -> NoDup (map key l).
Proof.
  induction l as [|x l IH]; intros Hs; [constructor|].
  destruct Hs as [Hx Hs]. cbn [map]. apply NoDup_cons. split; [|apply IH, Hs].
  intros Hin. apply list_elem_of_In, in_map_iff in Hin as (y & Hy & Hin).
  rewrite Forall_forall in Hx. apply list_elem_of_In, Hx in Hin. lia.
Qed.

Lemma sorted_by_key_NoDup_opp (l : list A) :
  sorted_by_key key l -> NoDup (map (fun x => - key x) l).
Proof.
  induction l as [|x l IH]; intros Hs; [constructor|].
  destruct Hs as [Hx Hs]. cbn [map]. apply NoDup_cons. split; [|apply IH, Hs].
  intros Hin. apply list_elem_of_In, in_map_iff in Hin as (y & Hy & Hin).
  rewrite Forall_forall in Hx. apply list_elem_of_In, Hx in Hin. lia.
Qed.

Lemma sorted_by_key_snoc (l : list A) (x : A) :
  sorted_by_key key (l ++ [x])
  <-> sorted_by_key key l /\ Forall (fun y => key y < key x) l.
Proof.
  induction l as [|y l IH]; cbn [app sorted_by_key].
  - split; [intros _; split; [exact I|constructor]|].
    intros _. split; [constructor|exact I].
  - rewrite IH, Forall_app, !Forall_cons.
    split; [intros ((H1 & H2 & _) & H3 & H4)|intros ((H1 & H2) & H3 & H4)];
      repeat split; auto.
Qed.

Lemma sorted_by_key_map (l : list A) :
  sorted_by_key key l -> sorted_by_key (fun id : Z => id) (map key l).
Proof.
  induction l as [|x l IH]; intros Hs; [exact I|].
  destruct Hs as [Hx Hs]. cbn [map sorted_by_key]. split; [|apply IH, Hs].
  apply Forall_fmap. exact Hx.
Qed.

End SortByKey.

Lemma sort_by_ext {A} (less less' : A -> A -> bool) (l : list A) :
  (forall a b, less a b = less' a b) -> sort_by less l = sort_by less' l.
Proof.
  intros Hext. unfold sort_by. induction l as [|x l IH]; [reflexivity|].
  cbn [foldr]. rewrite IH. generalize (foldr (insert_by less') [] l).
  intros s. induction s as [|y s IHs]; [reflexivity|].
  cbn [insert_by]. rewrite Hext, IHs. reflexivity.
Qed.

(* the descriptors of a registry, oldest first, are in ascending order of
   their ids *)
Lemma sorted_by_key_reverse (tables : list SST.SSTable) :
  sorted_by_key (fun s => - SST.ID s) tables ->
  sorted_by_key SST.ID (reverse tables).
Proof.
  induction tables as [|s tables IH]; intros Hs; [exact I|].
  destruct Hs as [Hx Hs]. rewrite reverse_cons.
  apply sorted_by_key_snoc. split; [apply IH, Hs|].
  apply Forall_reverse. eapply Forall_impl; [exact Hx|].
  cbn. intros y Hy. lia.
Qed.

(* the loop of loadExistingSSTables over ids in ascending order *)
Lemma loadExisting_loop_ascending (dir : gmap Z (list byte))
    (tables : list SST.SSTable) :
  forall (acc : list SST.SSTable) (next : Z),
    sorted_by_key SST.ID tables ->
    Forall (fun s => SST.loadSSTable dir (SST.ID s) = Ok s) tables ->
    Forall (fun s => next <= SST.ID s /\ SST.ID s + 1 < 2 ^ 63) tables ->
    - 2 ^ 63 <= next ->
    SST.loadExisting_loop dir (map SST.ID tables) acc next
    = Ok (acc ++ tables,
          default next ((fun s => SST.ID s + 1) <$> last tables)).
Proof.
  induction tables as [|s tables IH]; intros acc next Hs Hload Hid Hnext.
  - cbn. rewrite app_nil_r. reflexivity.
  - destruct Hs as [Hx Hs].
    apply Forall_cons in Hload as [Hl Hload].
    apply Forall_cons in Hid as [[Hge Hmax] Hid].
    cbn [map SST.loadExisting_loop]. rewrite Hl.
    destruct (Z.geb_spec (SST.ID s) next) as [_|Hlt]; [|lia].
    rewrite int64_small by lia.
    rewrite IH; try assumption; try lia.
    + rewrite <- app_assoc. cbn [app]. f_equal. f_equal.
      destruct tables as [|t tables]; [reflexivity|].
      change (last (s :: t :: tables)) with (last (t :: tables)).
      destruct (last (t :: tables)) as [l|] eqn:Hlast; [reflexivity|].
      apply last_None in Hlast. discriminate.
    + rewrite Forall_forall in Hx, Hid. apply Forall_forall.
      intros t Ht. specialize (Hx t Ht). specialize (Hid t Ht). cbn in Hx.
      lia.
Qed.

(* NewSSTManager on the data directory of a registry in step with it *)
Lemma NewSSTManager_loaded (sm : SST.SSTManager) :
  SSTManager_loaded sm -> SST.NewSSTManager (SST.dataDir sm) = Ok sm.
Proof.
  intros (Hs & Hpos & Hnext & Hmax & Hdom & Hload).
  unfold SST.NewSSTManager.
  assert (Hids : sort_by Z.ltb (map fst (map_to_list (SST.dataDir sm)))
                 = map SST.ID (reverse (SST.sstables sm))).
  { apply (sort_by_key_unique (fun id : Z => id)
             (map fst (map_to_list (SST.dataDir sm)))
             (map SST.ID (reverse (SST.sstables sm)))).
    - rewrite map_id. apply NoDup_fst_map_to_list.
    - apply sorted_by_key_map, sorted_by_key_reverse, Hs.
    - intros id. rewrite In_fst_map_to_list_Z, Hdom, !in_map_iff.
      split; intros (s & Hid & Hin); exists s; (split; [exact Hid|]);
        apply list_elem_of_In; apply list_elem_of_In in Hin.
      + rewrite elem_of_reverse. exact Hin.
      + rewrite elem_of_reverse in Hin. exact Hin. }
  rewrite Hids.
  rewrite (loadExisting_loop_ascending _ _ [] 1).
  - cbn [app]. f_equal.
    assert (Hsort : sort_by (fun a b => SST.ID a >? SST.ID b)
                      (reverse (SST.sstables sm)) = SST.sstables sm).
    { rewrite (sort_by_ext _ (fun a b => - SST.ID a <? - SST.ID b))
        by (intros a b; rewrite Z.gtb_ltb;
            destruct (Z.ltb_spec (SST.ID b) (SST.ID a)),
                     (Z.ltb_spec (- SST.ID a) (- SST.ID b)); lia).
      apply (sort_by_key_unique (fun s => - SST.ID s)).
      - apply (sorted_by_key_NoDup_opp SST.ID), sorted_by_key_reverse, Hs.
      - exact Hs.
      - intros s. rewrite <- !list_elem_of_In, elem_of_reverse. reflexivity. }
    rewrite Hsort, last_reverse. clear -Hnext.
    destruct sm as [tables dir next]. cbn [SST.sstables SST.dataDir
                                           SST.nextID] in *.
    subst next. destruct tables; reflexivity.
  - apply sorted_by_key_reverse, Hs.
  - apply Forall_reverse, Hload.
  - apply Forall_reverse. rewrite Forall_forall in Hpos |- *.
    intros s Hin. split; [apply Hpos, Hin|].
    rewrite Hnext in Hmax. destruct (SST.sstables sm) as [|t tables] eqn:Ht;
      [apply elem_of_nil in Hin; destruct Hin|].
    destruct Hs as [Hx _]. rewrite Forall_forall in Hx.
    apply elem_of_cons in Hin as [->|Hin]; [lia|].
    specialize (Hx s Hin). cbn in Hx. lia.
  - change (2 ^ 63) with 9223372036854775808. lia.
Qed.

Lemma loaded_ids_below (sm : SST.SSTManager) :
  SSTManager_loaded sm ->
  1 <= SST.nextID sm
  /\ Forall (fun s => SST.ID s < SST.nextID sm) (SST.sstables sm).
Proof.
  intros (Hs & Hpos & Hnext & _). rewrite Hnext.
  destruct (SST.sstables sm) as [|t tables]; [split; [lia|constructor]|].
  destruct Hs as [Hx _]. apply Forall_cons in Hpos as [Ht _].
  split; [lia|]. constructor; [lia|].
  eapply Forall_impl; [exact Hx|]. cbn. intros y Hy. lia.
Qed.

Lemma loadSSTable_other_file (dir : gmap Z (list byte)) (id id' : Z)
    (f : list byte) :
  id' <> id ->
  SST.loadSSTable (<[id := f]> dir) id' = SST.loadSSTable dir id'.
Proof.
  intros Hne. unfold SST.loadSSTable.
  rewrite lookup_insert_ne by congruence. reflexivity.
Qed.

(* a Flush keeps the registry in step with its data directory *)
Lemma Flush_loaded (entries : list Entry) (sm : SST.SSTManager) :
  SSTManager_loaded sm -> Forall Entry_wf entries ->
  len_bytes (concat (map SST.encode entries)) < 2 ^ 63 ->
  SST.nextID sm + 1 < 2 ^ 63 ->
  SSTManager_loaded (SST.Flush entries sm)
  /\ SST.nextID (SST.Flush entries sm) <= SST.nextID sm + 1.
Proof.
  intros Hsm Hwf Hlen Hmax.
  destruct entries as [|e0 entries0] eqn:Hes;
    [rewrite Flush_nil; split; [exact Hsm|lia]|].
  rewrite <- Hes in *.
  assert (Hne : entries <> []) by (rewrite Hes; discriminate).
  destruct (Flush_loadSSTable entries sm Hne Hwf Hlen)
    as (sst & file & -> & Hid & Hload).
  destruct (loaded_ids_below sm Hsm) as [Hone Hbelow].
  destruct Hsm as (Hs & Hpos & Hnext & _ & Hdom & Hloaded).
  cbn [SST.nextID]. rewrite int64_small
    by (change (2 ^ 63) with 9223372036854775808 in *; lia).
  split; [|lia].
  split; [|split; [|split; [|split; [|split]]]];
    cbn [SST.sstables SST.dataDir SST.nextID].
  - split; [|exact Hs]. eapply Forall_impl; [exact Hbelow|].
    cbn. intros y Hy. lia.
  - constructor; [lia|exact Hpos].
  - rewrite Hid. reflexivity.
  - exact Hmax.
  - intros id. cbn [map In]. rewrite Hid.
    destruct (decide (SST.nextID sm = id)) as [->|Hne'].
    + rewrite lookup_insert_eq. split; [intros _; left; reflexivity|eauto].
    + rewrite lookup_insert_ne by exact Hne'. rewrite Hdom.
      split; [intros H; right; exact H|intros [H|H]; [congruence|exact H]].
  - constructor; [rewrite Hid; exact Hload|].
    rewrite Forall_forall in Hbelow, Hloaded |- *.
    intros s Hin. rewrite loadSSTable_other_file;
      [apply Hloaded, Hin|]. specialize (Hbelow s Hin). cbn in Hbelow. lia.
Qed.

Lemma foldl_Flush_loaded (cohorts : list (list Entry)) :
  forall sm : SST.SSTManager,
    SSTManager_loaded sm ->
    Forall (Forall Entry_wf) cohorts ->
    Forall (fun entries =>
              len_bytes (concat (map SST.encode entries)) < 2 ^ 63) cohorts ->
    SST.nextID sm + Z.of_nat (length cohorts) < 2 ^ 63 ->
    SSTManager_loaded
      (foldl (fun sm entries => SST.Flush entries sm) sm cohorts).
Proof.
  induction cohorts as [|c cohorts IH]; intros sm Hsm Hwf Hlen Hmax;
    [exact Hsm|].
  apply Forall_cons in Hwf as [Hwfc Hwf].
  apply Forall_cons in Hlen as [Hlenc Hlen].
  cbn [length] in Hmax. cbn [foldl].
  destruct (Flush_loaded c sm Hsm Hwfc Hlenc) as [Hsm' Hnext]; [lia|].
  apply IH; try assumption. lia.
Qed.

Lemma loaded_empty : SSTManager_loaded (SST.mkSSTManager [] ∅ 1).
Proof.
  split; [exact I|]. split; [constructor|]. split; [reflexivity|].
  split; [reflexivity|]. split; [|constructor].
  intros id. cbn [SST.dataDir SST.sstables map In]. rewrite lookup_empty.
  split; [intros [x H]; discriminate|intros []].
Qed.

(** X21.  A restart finds the registry of segments as the flushes left
    it.  On the data directory left by any number of flushes (of records
    with pairwise distinct keys) into a new registry, NewSSTManager loads every segment file, orders the segments
    newest first and continues the ids after the newest one: it returns
    the registry the flushes had built, descriptor for descriptor. *)
Theorem NewSSTManager_after_Flushes (cohorts : list (list Entry)) :
  Forall (fun entries => NoDup (map Key entries)) cohorts ->
  Forall (Forall Entry_wf) cohorts ->
  Forall (fun entries =>
            len_bytes (concat (map SST.encode entries)) < 2 ^ 63) cohorts ->
  Z.of_nat (length cohorts) + 1 < 2 ^ 63 ->
  SST.NewSSTManager (SST.dataDir (registry cohorts)) = Ok (registry cohorts).
Proof.
  intros _ Hwf Hlen Hmax. apply NewSSTManager_loaded.
  unfold registry. apply foldl_Flush_loaded; try assumption.
  - apply loaded_empty.
  - cbn [SST.nextID]. lia.
Qed.

(* the theorem on the five cohorts of the compaction example *)
Lemma NewSSTManager_after_Flushes_witness :
  Forall (fun entries => NoDup (map Key entries)) five_cohorts
  /\ Forall (Forall Entry_wf) five_cohorts
  /\ SST.NewSSTManager (SST.dataDir (registry five_cohorts))
     = Ok (registry five_cohorts)
  /\ map SST.ID (SST.sstables (registry five_cohorts)) = [5; 4; 3; 2; 1].
Proof.
  assert (H0 : Forall (fun entries => NoDup (map Key entries)) five_cohorts).
  { repeat constructor; apply (bool_decide_unpack _); vm_compute; exact I. }
  assert (H1 : Forall (Forall Entry_wf) five_cohorts)
    by (repeat constructor; vm_compute; easy).
  assert (H2 : Forall (fun entries =>
                         len_bytes (concat (map SST.encode entries)) < 2 ^ 63)
                 five_cohorts)
    by (repeat constructor; vm_compute; reflexivity).
  assert (H3 : Z.of_nat (length five_cohorts) + 1 < 2 ^ 63)
    by (vm_compute; reflexivity).
  split; [exact H0|split; [exact H1|]].
  split; [exact (NewSSTManager_after_Flushes five_cohorts H0 H1 H2 H3)|].
  vm_compute. reflexivity.
Defined.

(** ** Closing the engine *)

Lemma Flush_nextID (entries : list Entry) (sm : SST.SSTManager) :
  0 <= SST.nextID sm -> SST.nextID sm + 1 < 2 ^ 63 ->
  SST.nextID sm <= SST.nextID (SST.Flush entries sm) <= SST.nextID sm + 1.
Proof.
  intros H0 Hmax. unfold SST.Flush. destruct entries as [|e entries]; [lia|].
  destruct (SST.Flush_loop 0 0 ∅ _) as [[bs off] idx]. cbn [SST.nextID].
  rewrite int64_small
    by (change (2 ^ 63) with 9223372036854775808 in *; lia).
  lia.
Qed.

Lemma foldl_Flush_wf (cohorts : list (list Entry)) :
  forall sm : SST.SSTManager,
    SSTManager_wf sm -> 0 <= SST.nextID sm ->
    SST.nextID sm + Z.of_nat (length cohorts) < 2 ^ 63 ->
    let sm' := foldl (fun sm entries => SST.Flush entries sm) sm cohorts in
    SSTManager_wf sm'
    /\ SST.nextID sm <= SST.nextID sm'
       <= SST.nextID sm + Z.of_nat (length cohorts).
Proof.
  induction cohorts as [|c cohorts IH]; intros sm Hsm H0 Hmax;
    [cbn; split; [exact Hsm|lia]|].
  cbn [length] in Hmax. cbn [foldl]. cbn zeta.
  pose proof (Flush_nextID c sm H0 ltac:(lia)) as Hnext.
  destruct (IH (SST.Flush c sm)) as [Hwf Hbound];
    [apply Flush_wf; [exact Hsm|lia|exact H0]|lia|lia|].
  split; [exact Hwf|]. cbn [length]. lia.
Qed.

(** X22.  Close writes the active memtable as the newest segment.  After
    Close, every key the active memtable held undeleted is answered with
    its value by the segments, whatever the immutable memtables flushed
    before it and the older segments hold; and the log is written out in
    full, not emptied. *)
Theorem Close_flushes_the_active_memtable (key : string) (value : list byte)
    (e : Engine.Engine) :
  SSTManager_wf (Engine.sstManager e) ->
  0 <= SST.nextID (Engine.sstManager e) ->
  SST.nextID (Engine.sstManager e)
  + Z.of_nat (length (Engine.immutableMemtables e)) + 1 < 2 ^ 63 ->
  (forall k entry,
     MemTable.data (Engine.memtable e) !! k = Some entry -> Key entry = k) ->
  Forall Entry_wf (MemTable.Entries (Engine.memtable e)) ->
  len_bytes (concat (map SST.encode (MemTable.Entries (Engine.memtable e))))
  < 2 ^ 63 ->
  MemTable.Get key (Engine.memtable e) = Some value ->
  SST.Get key (Engine.sstManager (Engine.Close e)) = Ok (Some value)
  /\ WAL.file (Engine.wal (Engine.Close e)) = WAL.contents (Engine.wal e)
  /\ WAL.writer (Engine.wal (Engine.Close e)) = [].
Proof.
  intros Hsm H0 Hmax Hkeys Hwf Hlen Hget.
  unfold Engine.Close.
  set (sm1 := foldl (fun sm mt => SST.Flush (MemTable.Entries mt) sm)
                (Engine.sstManager e) (Engine.immutableMemtables e)).
  assert (Hsm1 : SSTManager_wf sm1).
  { subst sm1. rewrite <- (foldl_fmap
      (fun sm entries => SST.Flush entries sm) _ _ MemTable.Entries).
    apply foldl_Flush_wf; [exact Hsm|exact H0|].
    rewrite length_fmap. lia. }
  destruct e as [m imm sm w cfg ch st t].
  cbn [Engine.set_wal Engine.set_sstManager Engine.sstManager Engine.wal
       Engine.memtable] in *.
  split; [|split; reflexivity].
  destruct (segment_lookup_Entries m key Hkeys) as [Hnd Hlook].
  rewrite Flush_Get; try assumption.
  - rewrite Hlook, Hget. reflexivity.
  - intros Hnil. rewrite (Entries_nil m key Hnil) in Hget. discriminate.
Qed.

(* the theorem on an engine that holds one written key *)
Lemma Close_flushes_the_active_memtable_witness :
  MemTable.Get "k"
    (Engine.memtable
       (Engine.Put sample_clock "k" (bytes "v") (fresh default_config)).2)
  = Some (bytes "v")
  /\ SST.Get "k"
       (Engine.sstManager
          (Engine.Close
             (Engine.Put sample_clock "k" (bytes "v")
                (fresh default_config)).2))
     = Ok (Some (bytes "v")).
Proof.
  set (e := (Engine.Put sample_clock "k" (bytes "v")
               (fresh default_config)).2).
  assert (Hm : Engine.memtable e
               = MemTable.Put (sample_clock 1) "k" (bytes "v")
                   (MemTable.NewMemTable (64 * 1024 * 1024)))
    by (vm_compute; reflexivity).
  assert (H1 : SSTManager_wf (Engine.sstManager e)).
  { change (Engine.sstManager e) with (SST.mkSSTManager [] ∅ 1).
    split; constructor. }
  assert (H2 : 0 <= SST.nextID (Engine.sstManager e))
    by (vm_compute; discriminate).
  assert (H3 : SST.nextID (Engine.sstManager e)
               + Z.of_nat (length (Engine.immutableMemtables e)) + 1
               < 2 ^ 63) by (vm_compute; reflexivity).
  assert (H4 : forall k entry,
             MemTable.data (Engine.memtable e) !! k = Some entry ->
             Key entry = k).
  { intros k entry. rewrite Hm. unfold MemTable.Put.
    cbn [MemTable.data MemTable.NewMemTable].
    destruct (decide ("k" = k)) as [<-|Hne].
    - rewrite lookup_insert_eq. intros [= <-]. reflexivity.
    - rewrite lookup_insert_ne by exact Hne. rewrite lookup_empty.
      discriminate. }
  assert (Hes : MemTable.Entries (Engine.memtable e)
                = [mkEntry "k" (bytes "v") 1001 false])
    by (vm_compute; reflexivity).
  assert (H5 : Forall Entry_wf (MemTable.Entries (Engine.memtable e)))
    by (rewrite Hes; repeat constructor; vm_compute; easy).
  assert (H6 : len_bytes (concat (map SST.encode
                                    (MemTable.Entries (Engine.memtable e))))
               < 2 ^ 63) by (rewrite Hes; vm_compute; reflexivity).
  assert (H7 : MemTable.Get "k" (Engine.memtable e) = Some (bytes "v"))
    by (vm_compute; reflexivity).
  split; [exact H7|].
  exact (proj1 (Close_flushes_the_active_memtable "k" (bytes "v") e
                  H1 H2 H3 H4 H5 H6 H7)).
Defined.

(** ** A record larger than the buffer of the log *)

(* an Append on a flushed log whose record is larger than the buffer: the
   header and the first bytes of the value fill the buffer, which is
   written out; the rest of the value stays in the buffer *)
Lemma Append_spills (entry : WAL.WALEntry) (w : WAL.WAL) :
  WAL.writer w = [] ->
  17 + len_string (WAL.Key entry) < WAL.bufSize w ->
  len_bytes (WAL.Value entry) < 2 ^ 32 ->
  WAL.bufSize w < len_bytes (WAL.encode entry) < 2 * WAL.bufSize w - 4096 ->
  WAL.Append entry w
  = WAL.mkWAL
      (WAL.file w ++ take (Z.to_nat (WAL.bufSize w)) (WAL.encode entry))
      (drop (Z.to_nat (WAL.bufSize w)) (WAL.encode entry))
      (WAL.bufSize w).
Proof.
  intros Hw Hhead Hv [Hbig Hrest].
  set (header := [WAL.OpType entry]
                 ++ IO.Write_int64 (WAL.Timestamp entry)
                 ++ IO.Write_uint32 (uint32 (len_string (WAL.Key entry)))
                 ++ list_byte_of_string (WAL.Key entry)
                 ++ IO.Write_uint32 (uint32 (len_bytes (WAL.Value entry)))).
  assert (Henc : WAL.encode entry = header ++ WAL.Value entry).
  { unfold WAL.encode, header. rewrite <- !app_assoc. reflexivity. }
  assert (Hlenh : len_bytes header = 17 + len_string (WAL.Key entry)).
  { unfold header, len_bytes, len_string, IO.Write_int64, IO.Write_uint32.
    rewrite !length_app, !length_le_split, length_list_byte_of_string.
    cbn [length]. lia. }
  pose proof (len_string_nonneg (WAL.Key entry)) as Hk0.
  rewrite Henc, len_bytes_app, Hlenh in Hbig, Hrest.
  unfold WAL.Append.
  rewrite WriteByte_buffered by (rewrite Hw; change (len_bytes []) with 0; lia).
  rewrite Hw. cbn [app].
  assert (Hone : forall (c : byte) l, len_bytes (c :: l) = 1 + len_bytes l).
  { intros c l. unfold len_bytes. cbn [length]. lia. }
  assert (H8 : len_bytes (IO.Write_int64 (WAL.Timestamp entry)) = 8).
  { unfold len_bytes, IO.Write_int64. rewrite length_le_split. reflexivity. }
  assert (H4 : forall z, len_bytes (IO.Write_uint32 z) = 4).
  { intros z. unfold len_bytes, IO.Write_uint32. rewrite length_le_split.
    reflexivity. }
  assert (Hkl : len_bytes (list_byte_of_string (WAL.Key entry))
                = len_string (WAL.Key entry)).
  { unfold len_bytes, len_string. rewrite length_list_byte_of_string.
    reflexivity. }
  rewrite (Write_buffered (IO.Write_int64 _) (WAL.mkWAL _ _ _))
    by (cbn [WAL.writer WAL.bufSize]; rewrite Hone, H8;
        change (len_bytes []) with 0; lia).
  cbn [WAL.writer WAL.bufSize WAL.file].
  rewrite (Write_buffered (IO.Write_uint32 (uint32 (len_string _)))
             (WAL.mkWAL _ _ _))
    by (cbn [WAL.writer WAL.bufSize]; cbn [app];
        rewrite Hone, H8, H4; lia).
  cbn [WAL.writer WAL.bufSize WAL.file].
  rewrite (Write_buffered (list_byte_of_string _) (WAL.mkWAL _ _ _))
    by (cbn [WAL.writer WAL.bufSize]; cbn [app];
        rewrite Hone, len_bytes_app, H8, H4, Hkl; lia).
  cbn [WAL.writer WAL.bufSize WAL.file].
  rewrite (Write_buffered (IO.Write_uint32 (uint32 (len_bytes _)))
             (WAL.mkWAL _ _ _))
    by (cbn [WAL.writer WAL.bufSize]; cbn [app];
        rewrite Hone, !len_bytes_app, H8, !H4, Hkl; lia).
  cbn [WAL.writer WAL.bufSize WAL.file].
  assert (Hheader : (([WAL.OpType entry] ++ IO.Write_int64 (WAL.Timestamp entry))
                     ++ IO.Write_uint32 (uint32 (len_string (WAL.Key entry))))
                    ++ list_byte_of_string (WAL.Key entry)
                    ++ IO.Write_uint32 (uint32 (len_bytes (WAL.Value entry)))
                    = header).
  { unfold header. rewrite <- !app_assoc. reflexivity. }
  rewrite <- !app_assoc in Hheader |- *. cbn [app] in Hheader |- *.
  rewrite Hheader.
  (* the value does not fit the room left *)
  unfold WAL.Write, WAL.Available. cbn [WAL.writer WAL.bufSize WAL.file].
  rewrite Hlenh.
  destruct (Z.leb_spec (len_bytes (WAL.Value entry))
              (WAL.bufSize w - (17 + len_string (WAL.Key entry))))
    as [Hfits|_]; [lia|].
  destruct (Z.eqb_spec (17 + len_string (WAL.Key entry)) 0) as [H0|_]; [lia|].
  cbn zeta. unfold WAL.Flush, WAL.Available.
  cbn [WAL.writer WAL.bufSize WAL.file].
  set (n := Z.to_nat (WAL.bufSize w - (17 + len_string (WAL.Key entry)))).
  assert (Hn : (n <= length (WAL.Value entry))%nat)
    by (unfold len_bytes in *; lia).
  assert (Hdrop : len_bytes (drop n (WAL.Value entry))
                  = len_bytes (WAL.Value entry)
                    - (WAL.bufSize w - (17 + len_string (WAL.Key entry)))).
  { unfold len_bytes in *. rewrite length_drop. lia. }
  change (len_bytes []) with 0. rewrite Hdrop.
  destruct (Z.leb_spec
              (len_bytes (WAL.Value entry)
               - (WAL.bufSize w - (17 + len_string (WAL.Key entry))))
              (WAL.bufSize w - 0)) as [_|Hno]; [|lia].
  cbn [WAL.writer WAL.bufSize WAL.file]. rewrite Hdrop.
  destruct (Z.geb_spec
              (len_bytes (WAL.Value entry)
               - (WAL.bufSize w - (17 + len_string (WAL.Key entry))))
              (WAL.bufSize w - 4096)) as [Hno|_]; [lia|].
  assert (Hnh : Z.to_nat (WAL.bufSize w) = (length header + n)%nat)
    by (unfold len_bytes in Hlenh; lia).
  rewrite Henc, Hnh.
  rewrite take_app_ge, drop_app_ge by lia.
  replace (length header + n - length header)%nat with n by lia.
  reflexivity.
Qed.

(** C3.  The code does not treat a truncated trailing record as the end of
    the log, and an ordinary put leaves such a record.  A put whose log
    record is larger than the 256 KiB buffer of the log writer is
    acknowledged with the first 256 KiB of its record in the file and the
    rest in the buffer.  The log then ends inside that record: Replay
    returns the error of the short read instead of the records logged
    before the put (which it returned before the put), and NewEngine
    fails on the data directory as a crash at that moment leaves it. *)
Theorem large_put_leaves_a_torn_log (clock clock' : nat -> Z)
    (cfg : Engine.Config) (e : Engine.Engine) (logged : list WAL.WALEntry)
    (key : string) (value : list byte) (files : gmap Z (list byte)) :
  WAL.writer (Engine.wal e) = [] ->
  WAL.bufSize (Engine.wal e) = 256 * 1024 ->
  WAL.file (Engine.wal e) = concat (map WAL.encode logged) ->
  Forall WALEntry_wf logged ->
  len_string key <= 100 * 1024 ->
  - 2 ^ 63 <= clock (Engine.ticks e) < 2 ^ 63 ->
  let entry := WAL.mkWALEntry WAL.OpTypePut key value
                 (clock (Engine.ticks e)) in
  256 * 1024 < len_bytes (WAL.encode entry) < 2 * (256 * 1024) - 4096 ->
  let e' := (Engine.Put clock key value e).2 in
  WAL.Replay (Engine.wal e) = Ok logged
  /\ is_Ok (Engine.NewEngine clock' cfg
              (Engine.mkDisk (WAL.file (Engine.wal e)) ∅)) = true
  /\ (Engine.Put clock key value e).1 = Ok tt
  /\ WAL.file (Engine.wal e')
     = WAL.file (Engine.wal e)
       ++ take (Z.to_nat (256 * 1024)) (WAL.encode entry)
  /\ WAL.writer (Engine.wal e')
     = drop (Z.to_nat (256 * 1024)) (WAL.encode entry)
  /\ short_read (WAL.Replay (Engine.wal e'))
  /\ WAL.Replay (Engine.wal e') <> Ok logged
  /\ is_Ok (Engine.NewEngine clock' cfg
              (Engine.mkDisk (WAL.file (Engine.wal e')) files)) = false.
Proof.
  intros Hw Hbuf Hfile Hlogged Hkey Hts entry Hsize e'.
  destruct (Put_layers clock key value e Hkey) as (Hok & _).
  destruct (Put_state clock key value e Hkey) as (_ & _ & Hwal).
  fold e' entry in Hwal.
  pose proof (len_string_nonneg key) as Hk0.
  pose proof (len_bytes_nonneg value) as Hv0.
  assert (Hlen : len_bytes (WAL.encode entry)
                 = 17 + len_string key + len_bytes value).
  { rewrite WAL_encode_body. unfold len_bytes, len_string. cbn [length].
    rewrite WAL_body_length. unfold entry. cbn [WAL.Key WAL.Value]. lia. }
  assert (Hwf : WALEntry_wf entry).
  { split; [exact Hts|]. unfold entry. cbn [WAL.Key WAL.Value].
    change (2 ^ 32) with 4294967296. lia. }
  assert (Happ : Engine.wal e'
                 = WAL.mkWAL
                     (WAL.file (Engine.wal e)
                      ++ take (Z.to_nat (256 * 1024)) (WAL.encode entry))
                     (drop (Z.to_nat (256 * 1024)) (WAL.encode entry))
                     (256 * 1024)).
  { rewrite Hwal, <- Hbuf. apply Append_spills.
    - exact Hw.
    - rewrite Hbuf. unfold entry. cbn [WAL.Key]. lia.
    - unfold entry. cbn [WAL.Value]. change (2 ^ 32) with 4294967296. lia.
    - rewrite Hbuf. exact Hsize. }
  assert (Hbefore : WAL.Replay (Engine.wal e) = Ok logged).
  { rewrite Replay_file, Hfile. apply Replay_whole_records, Hlogged. }
  assert (Hshort : short_read (WAL.Replay (Engine.wal e'))).
  { rewrite Replay_file, Happ. cbn [WAL.file]. rewrite Hfile.
    apply Replay_truncated; [exact Hlogged|exact Hwf|].
    unfold len_bytes in Hsize. lia. }
  split; [exact Hbefore|].
  split; [apply (NewEngine_Replay_Ok _ _ _ logged);
          rewrite <- Replay_file; exact Hbefore|].
  split; [exact Hok|].
  split; [rewrite Happ; reflexivity|].
  split; [rewrite Happ; reflexivity|].
  split; [exact Hshort|].
  split; [intros Heq; rewrite Heq in Hshort;
          destruct Hshort as [H|H]; discriminate H|].
  destruct Hshort as [H|H];
    apply (NewEngine_Replay_Err _ _ _ _ _
             ltac:(rewrite <- Replay_file; exact H)).
Qed.

(* the theorem on the engine that has logged and synced [write a|1] and
   then takes a write of 300000 bytes *)
Lemma large_put_leaves_a_torn_log_witness :
  WAL.writer (Engine.wal synced_engine) = []
  /\ WAL.file (Engine.wal synced_engine)
     = concat (map WAL.encode
                 [WAL.mkWALEntry WAL.OpTypePut "a" (bytes "1") 1000])
  /\ WAL.Replay (Engine.wal synced_engine)
     = Ok [WAL.mkWALEntry WAL.OpTypePut "a" (bytes "1") 1000]
  /\ (Engine.Put sample_clock "b" big_value synced_engine).1 = Ok tt
  /\ len_bytes
       (WAL.file
          (Engine.wal (Engine.Put sample_clock "b" big_value
                         synced_engine).2))
     = 19 + 256 * 1024
  /\ WAL.Replay
       (Engine.wal (Engine.Put sample_clock "b" big_value synced_engine).2)
     = Err ErrUnexpectedEOF
  /\ Engine.NewEngine sample_clock default_config
       (Engine.mkDisk
          (WAL.file
             (Engine.wal (Engine.Put sample_clock "b" big_value
                            synced_engine).2)) ∅)
     = Err (Wrapf "recovery failed" ErrUnexpectedEOF).
Proof.
  assert (H1 : WAL.writer (Engine.wal synced_engine) = [])
    by (vm_compute; reflexivity).
  assert (H2 : WAL.bufSize (Engine.wal synced_engine) = 256 * 1024)
    by (vm_compute; reflexivity).
  assert (H3 : WAL.file (Engine.wal synced_engine)
               = concat (map WAL.encode
                           [WAL.mkWALEntry WAL.OpTypePut "a" (bytes "1")
                              1000]))
    by (vm_compute; reflexivity).
  assert (H4 : Forall WALEntry_wf
                 [WAL.mkWALEntry WAL.OpTypePut "a" (bytes "1") 1000])
    by (repeat constructor; vm_compute; easy).
  assert (H5 : len_string "b" <= 100 * 1024) by (vm_compute; discriminate).
  assert (H6 : - 2 ^ 63 <= sample_clock (Engine.ticks synced_engine) < 2 ^ 63)
    by (vm_compute; split; [discriminate|reflexivity]).
  assert (H7 : 256 * 1024
               < len_bytes
                   (WAL.encode
                      (WAL.mkWALEntry WAL.OpTypePut "b" big_value
                         (sample_clock (Engine.ticks synced_engine))))
               < 2 * (256 * 1024) - 4096)
    by (vm_compute; split; reflexivity).
  destruct (large_put_leaves_a_torn_log sample_clock sample_clock
              default_config synced_engine
              [WAL.mkWALEntry WAL.OpTypePut "a" (bytes "1") 1000]
              "b" big_value ∅ H1 H2 H3 H4 H5 H6 H7)
    as (Hbefore & _ & Hok & Hfile & _ & _ & _ & _).
  split; [exact H1|]. split; [exact H3|]. split; [exact Hbefore|].
  split; [exact Hok|].
  split; [rewrite Hfile; vm_compute; reflexivity|].
  split; vm_compute; reflexivity.
Defined.

(** ** The key size limit *)

(** C9.  A put with a key of exactly 100 KiB succeeds: its record is
    appended to the WAL, the write is counted, and the pair is stored in
    the MemStore, from where Get reads the value back (the store is the
    active memtable, or, when the put has filled it, the memtable rotated
    behind the immutable ones; Get then finds the value unless an older
    immutable memtable holds the key).  A put with a key of 100 KiB + 1
    bytes returns an error and leaves the engine as it was: no WAL record
    is appended and the MemStore is not mutated. *)
Theorem Put_key_size_boundary (clock : nat -> Z) (key big : string)
    (value : list byte) (e : Engine.Engine) :
  len_string key = 102400 -> len_string big = 102400 + 1 ->
  let m' := MemTable.Put (clock (S (Engine.ticks e))) key value
              (Engine.memtable e) in
  ((Engine.Put clock key value e).1 = Ok tt
   /\ WAL.contents (Engine.wal (Engine.Put clock key value e).2)
      = WAL.contents (Engine.wal e)
        ++ WAL.encode (WAL.mkWALEntry WAL.OpTypePut key value
                         (clock (Engine.ticks e)))
   /\ Engine.Writes (Engine.stats (Engine.Put clock key value e).2)
      = int64 (Engine.Writes (Engine.stats e) + 1)
   /\ Engine.memtable (Engine.Put clock key value e).2
      = (if MemTable.IsFull m'
         then MemTable.NewMemTable (Engine.MemTableMaxSize (Engine.config e))
         else m')
   /\ Engine.immutableMemtables (Engine.Put clock key value e).2
      = (if MemTable.IsFull m' then Engine.immutableMemtables e ++ [m']
         else Engine.immutableMemtables e)
   /\ Engine.sstManager (Engine.Put clock key value e).2
      = Engine.sstManager e
   /\ MemTable.data m' !! key
      = Some (mkEntry key value (clock (S (Engine.ticks e))) false)
   /\ (forall other, other <> key ->
         MemTable.data m' !! other
         = MemTable.data (Engine.memtable e) !! other)
   /\ MemTable.Get key m' = Some value
   /\ (MemTable.IsFull m' = false
       \/ Engine.Get_immutables (Engine.immutableMemtables e) key = None ->
       (Engine.Get key (Engine.Put clock key value e).2).1
       = Ok (Some value)))
  /\ is_Ok (Engine.Put clock big value e).1 = false
  /\ (Engine.Put clock big value e).2 = e
  /\ Engine.wal (Engine.Put clock big value e).2 = Engine.wal e
  /\ Engine.memtable (Engine.Put clock big value e).2 = Engine.memtable e.
Proof.
  intros Hkey Hbig m'.
  destruct (Put_accepted clock key value e ltac:(lia))
    as (H1 & H2 & _ & H4 & _ & H6).
  destruct (Put_layers clock key value e ltac:(lia)) as (_ & Hsm & Hm & Himm).
  fold m' in H4, Hm, Himm.
  assert (Hget : MemTable.Get key m' = Some value).
  { unfold MemTable.Get. rewrite H4. reflexivity. }
  split.
  - split; [exact H1|]. split; [exact H2|]. split; [exact H6|].
    split; [exact Hm|]. split; [exact Himm|]. split; [exact Hsm|].
    split; [exact H4|]. split.
    { intros other Hne. unfold m', MemTable.Put. cbn [MemTable.data].
      rewrite lookup_insert_ne by congruence. reflexivity. }
    split; [exact Hget|].
    intros Hcase. rewrite Get_answer, Hm, Himm.
    destruct (MemTable.IsFull m') eqn:Hfull.
    + destruct Hcase as [Hcase|Hcase]; [discriminate|].
      rewrite MemTable_Get_New, Get_immutables_app, Hcase, Hget.
      reflexivity.
    + rewrite Hget. reflexivity.
  - rewrite (Put_rejected clock big value e) by lia.
    simpl. auto 10.
Qed.

(* the theorem on keys of 102400 and 102401 bytes *)
Lemma Put_key_size_boundary_witness :
  len_string (key_of_size (Z.to_nat 102400)) = 102400
  /\ len_string (key_of_size (Z.to_nat 102401)) = 102400 + 1
  /\ (Engine.Put sample_clock (key_of_size (Z.to_nat 102400)) (bytes "v")
        (fresh default_config)).1 = Ok tt
  /\ (Engine.Get (key_of_size (Z.to_nat 102400))
        (Engine.Put sample_clock (key_of_size (Z.to_nat 102400)) (bytes "v")
           (fresh default_config)).2).1 = Ok (Some (bytes "v"))
  /\ (Engine.Put sample_clock (key_of_size (Z.to_nat 102401)) (bytes "v")
        (fresh default_config)).2 = fresh default_config.
Proof.
  assert (H0 : len_string (key_of_size (Z.to_nat 102400)) = 102400)
    by (rewrite len_key_of_size; lia).
  assert (H1 : len_string (key_of_size (Z.to_nat 102401)) = 102400 + 1)
    by (rewrite len_key_of_size; lia).
  pose proof (Put_key_size_boundary sample_clock _ _ (bytes "v")
                (fresh default_config) H0 H1)
    as ((Hok & _ & _ & _ & _ & _ & _ & _ & _ & Hget) & _ & Hsame & _).
  exact (conj H0 (conj H1 (conj Hok
           (conj (Hget (or_intror eq_refl)) Hsame)))).
Defined.
